(** * Character networks: co-occurrence and sentiment matrices

  A shallow embedding of [src/characters/character_relations.py]: the
  name aggregator [iterative_NER], the top-name selector [top_names],
  the alignment-rate calculator [calculate_align_rate], the matrix
  builder [calculate_matrix] and the edge projector
  [matrix_to_edge_list].

  Numbers.  Python [int]s and numpy [int64] cells are [Z]; every
  [int64] cell of this program counts sentences or tokens of the input,
  so the 64-bit wrap-around cannot occur.  numpy [float64] values are
  the type [Np.float64]: the finite values are real numbers [R]
  (rounding, overflow and the sign of zero are idealised away) and the
  IEEE special values [inf], [-inf] and [nan] are kept, because numpy
  returns them where Python's own arithmetic would raise (division by
  zero, logarithm outside its domain).  The properties stated over
  these values are therefore equalities that follow the code's own
  formula operation by operation, bounds and case distinctions that
  keep a margin, and identities between sums of AFINN scores, which
  are integer-valued; none equates two computations that round
  differently.

  Exceptions.  A Python function is a function into [Py.result]: it
  returns [Ok v] or raises [Raise e].

  Collaborators.  The libraries the module calls (Afinn's scorer,
  scikit-learn's analyzer, [str.lower], numpy's quicksort [argsort],
  the [nlp] pipeline) are parameters of the development. *)

From Stdlib Require Import Reals Lra Lia ZArith Ascii String List Bool Arith.
From Stdlib Require Import Permutation.
Import ListNotations.

Set Implicit Arguments.
Set Warnings "-register-all".

(* ================================================================= *)
(** ** Python values, exceptions and results *)

Module Py.

(** The exceptions the modelled library calls, index operations and
    name and attribute lookups can raise. *)
Inductive exn : Type :=
| ValueError
| IndexError
| UnboundLocalError
| NameError
| AttributeError.

Inductive result (A : Type) : Type :=
| Ok (a : A)
| Raise (e : exn).

Arguments Ok {A} a.
Arguments Raise {A} e.

Definition bind {A B : Type} (m : result A) (k : A -> result B)
  : result B :=
  match m with
  | Ok a => k a
  | Raise e => Raise e
  end.

Definition raises {A : Type} (m : result A) : Prop :=
  exists e, m = Raise e.

(** [lst[i]] for a non-negative index. *)
Definition getitem {A : Type} (l : list A) (i : nat) : result A :=
  match nth_error l i with
  | Some a => Ok a
  | None => Raise IndexError
  end.

(** The values a name extractor can hand back: [None], a string, or
    a (possibly nested) list of such values. *)
Inductive value : Type :=
| VNone
| VStr (s : string)
| VList (l : list value).

(** Python's [==] on these values. *)
Fixpoint value_eqb (a b : value) {struct a} : bool :=
  match a, b with
  | VNone, VNone => true
  | VStr s, VStr t => String.eqb s t
  | VList l, VList m =>
      (fix list_eqb (l m : list value) {struct l} : bool :=
         match l, m with
         | [], [] => true
         | x :: l', y :: m' => value_eqb x y && list_eqb l' m'
         | _, _ => false
         end) l m
  | _, _ => false
  end.

(** [lst[0:stop]] with Python's treatment of a negative or too large
    [stop]. *)
Definition slice_to {A : Type} (stop : Z) (l : list A) : list A :=
  let len := Z.of_nat (length l) in
  let stop' := if (stop <? 0)%Z then Z.max 0 (len + stop)
               else Z.min stop len in
  firstn (Z.to_nat stop') l.

End Py.

Import Py.

Declare Scope py_scope.
Delimit Scope py_scope with py.
Notation "x <- m ;; k" := (Py.bind m (fun x => k))
  (at level 61, m at next level, right associativity) : py_scope.
Open Scope py_scope.

(* ================================================================= *)
(** ** numpy scalars and arrays *)

Module Np.

Local Open Scope R_scope.

(** A [float64]: a finite real, or one of the IEEE special values. *)
Inductive float64 : Type :=
| Fin (x : R)
| PInf
| NInf
| NaN.

Definition of_int (z : Z) : float64 := Fin (IZR z).

(** Sign of a real, by trichotomy. *)
Definition Rsign (x : R) : comparison :=
  match total_order_T x 0 with
  | inleft (left _) => Lt
  | inleft (right _) => Eq
  | inright _ => Gt
  end.

Definition abs (a : float64) : float64 :=
  match a with
  | Fin x => Fin (Rabs x)
  | PInf | NInf => PInf
  | NaN => NaN
  end.

Definition add (a b : float64) : float64 :=
  match a, b with
  | NaN, _ | _, NaN => NaN
  | Fin x, Fin y => Fin (x + y)
  | PInf, NInf | NInf, PInf => NaN
  | PInf, _ | _, PInf => PInf
  | NInf, _ | _, NInf => NInf
  end.

Definition mul (a b : float64) : float64 :=
  match a, b with
  | NaN, _ | _, NaN => NaN
  | Fin x, Fin y => Fin (x * y)
  | Fin x, PInf | PInf, Fin x =>
      match Rsign x with Lt => NInf | Eq => NaN | Gt => PInf end
  | Fin x, NInf | NInf, Fin x =>
      match Rsign x with Lt => PInf | Eq => NaN | Gt => NInf end
  | PInf, PInf | NInf, NInf => PInf
  | PInf, NInf | NInf, PInf => NInf
  end.

(** Division never raises in numpy: [0/0] is [nan] and [x/0] is an
    infinity with the sign of [x] (the zero divisors of this program
    are results of [abs], hence positive zeros). *)
Definition div (a b : float64) : float64 :=
  match a, b with
  | NaN, _ | _, NaN => NaN
  | Fin x, Fin y =>
      if Req_dec_T y 0
      then match Rsign x with Lt => NInf | Eq => NaN | Gt => PInf end
      else Fin (x / y)
  | Fin _, (PInf | NInf) => Fin 0
  | PInf, Fin y => if Rlt_dec y 0 then NInf else PInf
  | NInf, Fin y => if Rlt_dec y 0 then PInf else NInf
  | (PInf | NInf), (PInf | NInf) => NaN
  end.

(** [np.log]: [-inf] at zero and [nan] below it. *)
Definition log (a : float64) : float64 :=
  match a with
  | Fin x => match Rsign x with
             | Lt => NaN
             | Eq => NInf
             | Gt => Fin (ln x)
             end
  | PInf => PInf
  | NInf | NaN => NaN
  end.

(** [np.maximum], which propagates [nan]. *)
Definition maximum (a b : float64) : float64 :=
  match a, b with
  | NaN, _ | _, NaN => NaN
  | PInf, _ | _, PInf => PInf
  | NInf, c | c, NInf => c
  | Fin x, Fin y => Fin (Rmax x y)
  end.

(** [a > b]; false as soon as one side is [nan]. *)
Definition gt (a b : float64) : bool :=
  match a, b with
  | NaN, _ | _, NaN => false
  | NInf, _ | _, PInf => false
  | PInf, _ | _, NInf => true
  | Fin x, Fin y => if Rlt_dec y x then true else false
  end.

(** [np.sum] of a list of Python floats. *)
Definition sum (l : list R) : R := fold_right Rplus 0 l.

(** [np.nonzero(l)[0]]: the indices of the non-zero entries. *)
Fixpoint nonzero_from (k : nat) (l : list R) : list nat :=
  match l with
  | [] => []
  | x :: r => if Req_dec_T x 0 then nonzero_from (S k) r
              else k :: nonzero_from (S k) r
  end.

Definition nonzero (l : list R) : list nat := nonzero_from 0 l.

(** [np.max] of the flattened array; a zero-size array has no
    maximum. *)
Definition amax (cells : list float64) : result float64 :=
  match cells with
  | [] => Raise ValueError
  | x :: r => Ok (fold_left maximum r x)
  end.

End Np.

(* ================================================================= *)
(** ** Two-dimensional arrays as lists of rows *)

Section Arrays.

Variable T : Type.
Variable zero : T.

(** [M[i, j]] read as an option. *)
Definition cell (M : list (list T)) (i j : nat) : option T :=
  match nth_error M i with
  | Some row => nth_error row j
  | None => None
  end.

(** [M[i, j]] as Python evaluates it. *)
Definition getcell (M : list (list T)) (i j : nat) : result T :=
  match cell M i j with
  | Some x => Ok x
  | None => Raise IndexError
  end.

Fixpoint mapi_from {B : Type} (k : nat) (f : nat -> T -> B)
  (l : list T) : list B :=
  match l with
  | [] => []
  | x :: r => f k x :: mapi_from (S k) f r
  end.

Definition is_shape (rows cols : nat) (M : list (list T)) : Prop :=
  length M = rows /\ Forall (fun r => length r = cols) M.

(** [M.T] for an array with [ncols] columns (a list of rows does
    not record the column count of an array without rows). *)
Definition transpose (ncols : nat) (M : list (list T)) : list (list T) :=
  map (fun j => map (fun row => nth j row zero) M) (seq 0 ncols).

End Arrays.

Arguments mapi_from {T B} k f l.

Definition mapi {A B : Type} (f : nat -> A -> B) (l : list A) : list B :=
  mapi_from 0 f l.

Fixpoint zip_with {A B C : Type} (f : A -> B -> C)
  (l : list A) (m : list B) : list C :=
  match l, m with
  | x :: l', y :: m' => f x y :: zip_with f l' m'
  | _, _ => []
  end.

(** [np.dot A B] for [A] of shape (r, n) and [B] of shape (n, [ncols]),
    over the scalars [T]. *)
Section Dot.

Variable T : Type.
Variable zero : T.
Variable add mul : T -> T -> T.

Definition inner (u v : list T) : T :=
  fold_right add zero (zip_with mul u v).

Definition column (j : nat) (B : list (list T)) : list T :=
  map (fun row => nth j row zero) B.

Definition dot (A B : list (list T)) (ncols : nat) : list (list T) :=
  map (fun u => map (fun j => inner u (column j B)) (seq 0 ncols)) A.

(** [np.tril M]: the cells above the diagonal are replaced by zero. *)
Definition tril (M : list (list T)) : list (list T) :=
  mapi (fun i row => mapi (fun j x => if (j <=? i)%nat then x else zero) row) M.

(** [M[[range(n)], [range(n)]] = 0] on a square array. *)
Definition zero_diagonal (M : list (list T)) : list (list T) :=
  mapi (fun i row => mapi (fun j x => if (i =? j)%nat then zero else x) row) M.

End Dot.

(* ================================================================= *)
(** ** The functions of [character_relations.py] *)

(** [flatten]: nested lists are spliced, any other item is kept. *)
Fixpoint flatten_item (i : value) : list value :=
  match i with
  | VList l =>
      (fix flatten_items (l : list value) : list value :=
         match l with
         | [] => []
         | x :: r => flatten_item x ++ flatten_items r
         end) l
  | _ => [i]
  end.

Definition flatten (input_list : list value) : list value :=
  flat_map flatten_item input_list.

(** [collections.Counter]: a dict from item to count, in the order of
    first insertion. *)
Fixpoint counter_add (c : list (value * nat)) (x : value)
  : list (value * nat) :=
  match c with
  | [] => [(x, 1%nat)]
  | (k, n) :: r =>
      if value_eqb k x then (k, S n) :: r else (k, n) :: counter_add r x
  end.

Definition Counter (items : list value) : list (value * nat) :=
  fold_left counter_add items [].

(** What the pipeline hands back for a sentence, as far as the module
    looks at it: the [entities] attribute, which a stanza [Document]
    has and a spaCy [Doc] has not. *)
Record document : Type := Document { entities : option (list string) }.

(** [name_entity_recognition] as the module has it.  [nlp] is the
    module-level name the body reads: it is assigned under [__main__]
    only, so it is unbound ([None]) when the module is imported, and
    bound to a pipeline, whose call may raise, otherwise.  The body
    runs the pipeline and prints [doc.entities]; the statements that
    built and returned the name list are commented out, so a call that
    gets through evaluates to [None]. *)
Definition name_entity_recognition (nlp : option (string -> result document))
  (sentence : string) : result value :=
  match nlp with
  | None => Raise NameError
  | Some pipeline =>
      doc <- pipeline sentence ;;
      match entities doc with
      | None => Raise AttributeError
      | Some _ => Ok VNone
      end
  end.

(** A [CountVectorizer] refuses a vocabulary with a repeated term, and
    then an empty one. *)
Fixpoint has_duplicate (l : list string) : bool :=
  match l with
  | [] => false
  | x :: r => existsb (String.eqb x) r || has_duplicate r
  end.

Definition validate_vocabulary (vocabulary : list string) : result unit :=
  if has_duplicate vocabulary then Raise ValueError
  else match vocabulary with
       | [] => Raise ValueError
       | _ :: _ => Ok tt
       end.

Definition term_count (features : list string) (term : string) : Z :=
  Z.of_nat (count_occ string_dec features term).

(** [np.triu(np.ones([shape, shape]))]; the cells are exactly 0 or 1. *)
Definition triu_ones (shape : nat) : list (list Z) :=
  map (fun i => map (fun j => if (j <? i)%nat then 0%Z else 1%Z)
                 (seq 0 shape)) (seq 0 shape).

(** [list(zip( *np.where(M == 0)))]: the positions of the zero cells
    in row-major order. *)
Definition where_zero (M : list (list Z)) : list (nat * nat) :=
  concat (mapi (fun i row =>
    concat (mapi (fun j x => if (x =? 0)%Z then [(i, j)] else []) row)) M).

(** An edge [(name_a, name_b, {'weight': w, 'color': c})]. *)
Record edge : Type := Edge {
  name_a : string;
  name_b : string;
  weight : Np.float64;
  color : Np.float64
}.

(** Reading a local variable that may not have been assigned. *)
Definition getvar {A : Type} (v : option A) : result A :=
  match v with
  | Some a => Ok a
  | None => Raise UnboundLocalError
  end.

Section CharacterRelations.

(** [Afinn().score]: a finite score per sentence, zero when neutral. *)
Variable afinn_score : string -> R.

(** [CountVectorizer(stop_words=sw).build_analyzer()]: the terms of a
    document after lower-casing, tokenisation and stop-word removal. *)
Variable analyze : option string -> string -> list string.

(** [str.lower]. *)
Variable str_lower : string -> string.

(** [ndarray.argsort(kind='quicksort')]. *)
Variable argsort : list Z -> list nat.

(** The name extractor [iterative_NER] calls on every sentence. *)
Variable ner : string -> value.

(** [CountVectorizer(vocabulary=v, stop_words=sw, binary=b)
      .fit_transform(docs).toarray()]: one row per document, one
    column per vocabulary term, holding the term's count among the
    analysed document, or its presence when [binary]. *)
Definition fit_transform (stop_words : option string) (binary : bool)
  (vocabulary : list string) (raw_documents : list string)
  : result (list (list Z)) :=
  _ <- validate_vocabulary vocabulary ;;
  Ok (map (fun doc =>
        map (fun term =>
               let c := term_count (analyze stop_words doc) term in
               if binary then Z.min 1 c else c) vocabulary)
        raw_documents).

(** *** [iterative_NER] *)
Definition iterative_NER (sentence_list : list string) (threshold_rate : R)
  : result (list value) :=
  let output :=
    filter (fun name_list => negb (value_eqb name_list (VList [])))
           (map ner sentence_list) in
  let output := flatten output in
  let output := Counter output in
  Ok (map fst
        (filter (fun kv =>
           if Rle_dec (threshold_rate * INR (length sentence_list))
                      (INR (snd kv))
           then true else false) output)).

(** *** [top_names] *)

(** pandas' [nargsort(items, kind='quicksort', ascending=False)]: the
    items and their positions are reversed, sorted ascending, and the
    resulting indexer is reversed again. *)
Definition nargsort_descending (items : list Z) : list nat :=
  let idx := seq 0 (length items) in
  let non_nans := rev items in
  let non_nan_idx := rev idx in
  let indexer := map (fun p => nth p non_nan_idx 0%nat) (argsort non_nans) in
  rev indexer.

Definition top_names (name_list : list string) (novel : string)
  (top_num : Z) : result (list Z * list string) :=
  name_frequency <-
    fit_transform (Some "english"%string) false name_list [str_lower novel] ;;
  (* DataFrame(..., columns=names).T : one row per name *)
  let name_frequency := combine name_list (hd [] name_frequency) in
  (* sort_values(by=0, ascending=False) *)
  let indexer := nargsort_descending (map snd name_frequency) in
  let name_frequency :=
    map (fun i => nth i name_frequency (""%string, 0%Z)) indexer in
  let name_frequency := slice_to top_num name_frequency in
  let names := map fst name_frequency in
  let name_frequency := map snd name_frequency in
  Ok (name_frequency, names).

(** *** [calculate_align_rate] *)
Definition calculate_align_rate (sentence_list : list string)
  : result Np.float64 :=
  let sentiment_score := map afinn_score sentence_list in
  let align_rate :=
    Np.mul
      (Np.div (Np.Fin (Np.sum sentiment_score))
              (Np.of_int (Z.of_nat (length (Np.nonzero sentiment_score)))))
      (Np.of_int (-2)) in
  Ok align_rate.

(** *** [calculate_matrix] *)
Definition calculate_matrix (name_list sentence_list : list string)
  (align_rate : Np.float64)
  : result (list (list Z) * list (list Np.float64)) :=
  let sentiment_score := map afinn_score sentence_list in
  occurrence_each_sentence <-
    fit_transform None true name_list sentence_list ;;
  let K := length name_list in
  let N := length sentence_list in
  let occurrence_T := transpose 0%Z K occurrence_each_sentence in
  let cooccurrence_matrix :=
    dot 0%Z Z.add Z.mul occurrence_T occurrence_each_sentence K in
  let scored_T :=
    map (fun row => zip_with (fun o s => (IZR o * s)%R) row sentiment_score)
        occurrence_T in
  let sentiment_matrix :=
    dot 0%R Rplus Rmult (map (map IZR) occurrence_T)
        (transpose 0%R N scored_T) K in
  let sentiment_matrix :=
    zip_with (zip_with (fun s c => Np.add (Np.Fin s)
                                     (Np.mul align_rate (Np.of_int c))))
             sentiment_matrix cooccurrence_matrix in
  let cooccurrence_matrix := tril 0%Z cooccurrence_matrix in
  let sentiment_matrix := tril (Np.Fin 0) sentiment_matrix in
  let cooccurrence_matrix := zero_diagonal 0%Z cooccurrence_matrix in
  let sentiment_matrix := zero_diagonal (Np.Fin 0) sentiment_matrix in
  Ok (cooccurrence_matrix, sentiment_matrix).

(** *** [matrix_to_edge_list] *)

Definition co_occurrence_weight (m : Np.float64) : Np.float64 :=
  Np.mul (Np.log (Np.add (Np.mul (Np.of_int 2000) m) (Np.of_int 1)))
         (Np.Fin 0.7).

Definition co_occurrence_color (m : Np.float64) : Np.float64 :=
  Np.log (Np.add (Np.mul (Np.of_int 2000) m) (Np.of_int 1)).

Definition sentiment_weight (m : Np.float64) : Np.float64 :=
  Np.mul (Np.log (Np.add (Np.abs (Np.mul (Np.of_int 1000) m)) (Np.of_int 1)))
         (Np.Fin 0.7).

Definition sentiment_color (m : Np.float64) : Np.float64 :=
  Np.mul (Np.of_int 2000) m.

(** The [for i in lower_tri_loc] loop; [weight] and [color] are bound
    only when one of the three [if mode == ...] branches ran. *)
Fixpoint edge_loop (mode : string)
  (weight color : option (list (list Np.float64)))
  (name_list : list string) (locs : list (nat * nat))
  (edge_list : list edge) : result (list edge) :=
  match locs with
  | [] => Ok edge_list
  | (i0, i1) :: rest =>
      keep <- (if negb (mode =? "bare")%string then Ok true
               else (w <- getvar weight ;;
                     wi <- getcell w i0 i1 ;;
                     Ok (Np.gt wi (Np.Fin 0.0001)))) ;;
      if (keep : bool) then
        a <- getitem name_list i0 ;;
        b <- getitem name_list i1 ;;
        w <- getvar weight ;;
        wi <- getcell w i0 i1 ;;
        c <- getvar color ;;
        ci <- getcell c i0 i1 ;;
        edge_loop mode weight color name_list rest
          (edge_list ++ [Edge a b wi ci])
      else edge_loop mode weight color name_list rest edge_list
  end.

Definition matrix_to_edge_list (matrix : list (list Np.float64))
  (mode : string) (name_list : list string) : result (list edge) :=
  let shape := length matrix in
  let lower_tri_loc := where_zero (triu_ones shape) in
  max_abs <- Np.amax (map Np.abs (concat matrix)) ;;
  let normalized_matrix := map (map (fun x => Np.div x max_abs)) matrix in
  let weight := None in
  let color := None in
  let (weight, color) :=
    if (mode =? "co-occurrence")%string
    then (Some (map (map co_occurrence_weight) normalized_matrix),
          Some (map (map co_occurrence_color) normalized_matrix))
    else (weight, color) in
  let (weight, color) :=
    if (mode =? "sentiment")%string
    then (Some (map (map sentiment_weight) normalized_matrix),
          Some (map (map sentiment_color) normalized_matrix))
    else (weight, color) in
  let (weight, color) :=
    if (mode =? "bare")%string
    then (Some (map (map sentiment_weight) normalized_matrix),
          Some (map (map sentiment_color) normalized_matrix))
    else (weight, color) in
  edge_loop mode weight color name_list lower_tri_loc [].

End CharacterRelations.

(* ================================================================= *)
(** ** Reference quantities the properties are stated against *)

(** How many scores are non-zero. *)
Fixpoint count_nonzero (scores : list R) : nat :=
  match scores with
  | [] => 0
  | x :: r => (if Req_dec_T x 0 then 0 else 1) + count_nonzero r
  end.

(** How often [x] occurs in a list of values. *)
Definition count_value (x : value) (l : list value) : nat :=
  length (filter (value_eqb x) l).

(** The count stored for a key: [None] when the key is absent. *)
Fixpoint counter_get (c : list (value * nat)) (x : value) : option nat :=
  match c with
  | [] => None
  | (k, n) :: r => if value_eqb k x then Some n else counter_get r x
  end.

(** The counter [c] holds the counts of the items of [l]. *)
Definition counter_counts (c : list (value * nat)) (l : list value) : Prop :=
  NoDup (map fst c)
  /\ forall x, counter_get c x
               = if (count_value x l =? 0)%nat then None
                 else Some (count_value x l).

(** The occurrence count of [x] across all sentences: the sum, over
    the sentences, of its occurrences among the names extracted from
    the sentence. *)
Fixpoint occurrence_count (ner : string -> value) (x : value)
  (sentence_list : list string) : nat :=
  match sentence_list with
  | [] => 0
  | s :: r =>
      count_value x (flatten_item (ner s)) + occurrence_count ner x r
  end.

(** The binary presence vector of a sentence over the vocabulary. *)
Definition presence_vector (analyze : option string -> string -> list string)
  (name_list : list string) (sentence : string) : list bool :=
  map (fun name => existsb (String.eqb name) (analyze None sentence))
      name_list.

(** The sentence's presence vector contains both name [i] and name
    [j]. *)
Definition mentions_both (analyze : option string -> string -> list string)
  (name_list : list string) (i j : nat) (sentence : string) : bool :=
  nth i (presence_vector analyze name_list sentence) false
  && nth j (presence_vector analyze name_list sentence) false.

(** The corpus frequency [top_names] ranks a name by. *)
Definition corpus_frequency
  (analyze : option string -> string -> list string)
  (str_lower : string -> string) (novel : string) (name : string) : Z :=
  term_count (analyze (Some "english"%string) (str_lower novel)) name.

(** [perm] is an ascending argsort of [items]. *)
Definition is_argsort (items : list Z) (perm : list nat) : Prop :=
  Permutation perm (seq 0 (length items))
  /\ forall a b, (a < b < length perm)%nat ->
       (nth (nth a perm 0%nat) items 0 <= nth (nth b perm 0%nat) items 0)%Z.

(** [perm] keeps equal items in their input order. *)
Definition is_stable (items : list Z) (perm : list nat) : Prop :=
  forall a b, (a < b < length perm)%nat ->
    nth (nth a perm 0%nat) items 0%Z = nth (nth b perm 0%nat) items 0%Z ->
    (nth a perm 0 < nth b perm 0)%nat.

(** The strictly-lower-triangular positions of a [shape] x [shape]
    array, row by row. *)
Definition lower_positions (shape : nat) : list (nat * nat) :=
  flat_map (fun i => map (fun j => (i, j)) (seq 0 i)) (seq 0 shape).

(** The projector's filter on a position: every position passes unless
    the mode is [bare], where the weight must exceed 0.0001. *)
Definition kept (mode : string) (weights : option (list (list Np.float64)))
  (p : nat * nat) : bool :=
  negb (mode =? "bare")%string
  || match weights with
     | Some w => match cell w (fst p) (snd p) with
                 | Some wi => Np.gt wi (Np.Fin 0.0001)
                 | None => false
                 end
     | None => false
     end.

(** Edge [e] is the one emitted for position [p]. *)
Definition edge_at (weights colors : option (list (list Np.float64)))
  (name_list : list string) (p : nat * nat) (e : edge) : Prop :=
  getitem name_list (fst p) = Ok (name_a e)
  /\ getitem name_list (snd p) = Ok (name_b e)
  /\ (w <- getvar weights ;; getcell w (fst p) (snd p)) = Ok (weight e)
  /\ (c <- getvar colors ;; getcell c (fst p) (snd p)) = Ok (color e).

(** The transform rules as the specification words them, on the
    normalised value [m]. *)
Definition spec_weight (mode : string) (m : Np.float64) : Np.float64 :=
  if (mode =? "co-occurrence")%string
  then Np.mul (Np.log (Np.add (Np.mul (Np.Fin 2000) m) (Np.Fin 1)))
              (Np.Fin 0.7)
  else Np.mul (Np.log (Np.add (Np.abs (Np.mul (Np.Fin 1000) m)) (Np.Fin 1)))
              (Np.Fin 0.7).

Definition spec_color (mode : string) (m : Np.float64) : Np.float64 :=
  if (mode =? "co-occurrence")%string
  then Np.log (Np.add (Np.mul (Np.Fin 2000) m) (Np.Fin 1))
  else Np.mul (Np.Fin 2000) m.

Definition known_mode (mode : string) : Prop :=
  mode = "co-occurrence"%string \/ mode = "sentiment"%string
  \/ mode = "bare"%string.

Definition all_zero (matrix : list (list Np.float64)) : Prop :=
  Forall (Forall (fun x => x = Np.Fin 0)) matrix.

(** The edge the projector builds for position [p], given the maximum
    absolute value [max_abs] of the matrix. *)
Definition edge_of (matrix : list (list Np.float64)) (mode : string)
  (name_list : list string) (max_abs : Np.float64) (p : nat * nat) : edge :=
  let m := Np.div (nth (snd p) (nth (fst p) matrix []) (Np.Fin 0)) max_abs in
  Edge (nth (fst p) name_list ""%string) (nth (snd p) name_list ""%string)
       (spec_weight mode m) (spec_color mode m).

(** The positions whose edge the projector keeps. *)
Definition keeps (matrix : list (list Np.float64)) (mode : string)
  (max_abs : Np.float64) (p : nat * nat) : bool :=
  negb (mode =? "bare")%string
  || Np.gt (spec_weight mode
              (Np.div (nth (snd p) (nth (fst p) matrix []) (Np.Fin 0)) max_abs))
           (Np.Fin 0.0001).

(** The edge list in closed form. *)
Definition projected_edges (matrix : list (list Np.float64)) (mode : string)
  (name_list : list string) (max_abs : Np.float64) : list edge :=
  map (edge_of matrix mode name_list max_abs)
      (filter (keeps matrix mode max_abs) (lower_positions (length matrix))).


(** Edge [e] is what the projector emits for position [p]: the two
    names at the position's indices, and the transforms of the
    position's normalised cell. *)
Definition emitted_for (matrix : list (list Np.float64)) (mode : string)
  (name_list : list string) (max_abs : Np.float64) (p : nat * nat)
  (e : edge) : Prop :=
  nth_error name_list (fst p) = Some (name_a e)
  /\ nth_error name_list (snd p) = Some (name_b e)
  /\ exists x, cell matrix (fst p) (snd p) = Some x
       /\ weight e = spec_weight mode (Np.div x max_abs)
       /\ color e = spec_color mode (Np.div x max_abs).


(** Name [i]'s cell in a sentence's row of the occurrence array. *)
Definition presence (analyze : option string -> string -> list string)
  (name_list : list string) (i : nat) (sentence : string) : Z :=
  if nth i (presence_vector analyze name_list sentence) false
  then 1%Z else 0%Z.


(** The intermediate arrays of [calculate_matrix]: the occurrence rows,
    and the two products before the triangle is taken. *)
Definition occurrence_rows (analyze : option string -> string -> list string)
  (name_list sentence_list : list string) : list (list Z) :=
  map (fun doc =>
         map (fun term => Z.min 1 (term_count (analyze None doc) term))
             name_list)
      sentence_list.

Definition raw_cooccurrence (analyze : option string -> string -> list string)
  (name_list sentence_list : list string) : list (list Z) :=
  let occ := occurrence_rows analyze name_list sentence_list in
  let K := length name_list in
  dot 0%Z Z.add Z.mul (transpose 0%Z K occ) occ K.

Definition raw_sentiment (afinn_score : string -> R)
  (analyze : option string -> string -> list string)
  (name_list sentence_list : list string) : list (list R) :=
  let occ := occurrence_rows analyze name_list sentence_list in
  let K := length name_list in
  let occurrence_T := transpose 0%Z K occ in
  dot 0%R Rplus Rmult (map (map IZR) occurrence_T)
      (transpose 0%R (length sentence_list)
         (map (fun row => zip_with (fun o s => (IZR o * s)%R) row
                            (map afinn_score sentence_list))
              occurrence_T))
      K.


(* ================================================================= *)
(** ** Further definitions: reference quantities, [read_story], [plot_graph] *)

(** *** [iterative_NER] over an extractor that can raise

    [iterative_NER] above takes the extractor as a function that
    returns.  The module's loop calls [name_entity_recognition], which
    can raise: the calls are made in sentence order and the first
    exception ends the function. *)
Fixpoint ner_loop (ner : string -> result value) (sentence_list : list string)
  (output : list value) : result (list value) :=
  match sentence_list with
  | [] => Ok output
  | i :: rest =>
      name_list <- ner i ;;
      ner_loop ner rest
        (if negb (value_eqb name_list (VList []))
         then output ++ [name_list] else output)
  end.

Definition iterative_NER_with (ner : string -> result value)
  (sentence_list : list string) (threshold_rate : R) : result (list value) :=
  output <- ner_loop ner sentence_list [] ;;
  let output := flatten output in
  let output := Counter output in
  Ok (map fst
        (filter (fun kv =>
           if Rle_dec (threshold_rate * INR (length sentence_list))
                      (INR (snd kv))
           then true else false) output)).

(** The names the extractor finds in the sentences, in reading order:
    what [flatten] leaves of the per-sentence results. *)
Definition extracted (ner : string -> value) (sentence_list : list string)
  : list value :=
  flat_map (fun s => flatten_item (ner s)) sentence_list.

(** The distinct items of a list, each at its first occurrence. *)
Fixpoint first_occurrences (l : list value) : list value :=
  match l with
  | [] => []
  | x :: r => x :: filter (fun y => negb (value_eqb x y)) (first_occurrences r)
  end.

(** The test [iterative_NER] applies to a name's count. *)
Definition reaches_threshold (threshold_rate : R) (total count : nat) : bool :=
  if Rle_dec (threshold_rate * INR total) (INR count) then true else false.

Definition is_list (v : value) : bool :=
  match v with VList _ => true | _ => false end.

(** The candidates in the order pandas' [sort_values] leaves them. *)
Definition ranked_names (analyze : option string -> string -> list string)
  (str_lower : string -> string) (argsort : list Z -> list nat)
  (name_list : list string) (novel : string) : list string :=
  map (fun i => nth i name_list ""%string)
      (nargsort_descending argsort
         (map (corpus_frequency analyze str_lower novel) name_list)).

(** The sentences whose presence vector contains both name [i] and
    name [j], and those that contain name [i]. *)
Definition together (analyze : option string -> string -> list string)
  (name_list : list string) (i j : nat) (sentence_list : list string)
  : list string :=
  filter (mentions_both analyze name_list i j) sentence_list.

Definition mentioning (analyze : option string -> string -> list string)
  (name_list : list string) (i : nat) (sentence_list : list string)
  : list string :=
  filter (fun s => nth i (presence_vector analyze name_list s) false)
         sentence_list.

(** An int64 array handed to a function that divides it: numpy
    converts the cells to float64. *)
Definition as_float (M : list (list Z)) : list (list Np.float64) :=
  map (map Np.of_int) M.

(** A matrix all of whose cells are finite, given by its real values. *)
Definition finite_matrix (V : list (list R)) : list (list Np.float64) :=
  map (map Np.Fin) V.

(** The pair of names of an edge. *)
Definition endpoints (e : edge) : string * string := (name_a e, name_b e).

(** The largest absolute value of a non-empty list of reals, as
    [np.max(np.abs(...))] folds it. *)
Definition real_max_abs (v : R) (rest : list R) : R :=
  fold_left Rmax (map Rabs rest) (Rabs v).

(** *** [read_story]

    The directory listing ([os.listdir(path)], already obtained) and
    the content of each file are the environment: [read name] is the
    decoded text of [path / name], or [None] when opening or reading it
    raises. *)

(** [s.replace(old, new)] for one-character [old] and [new]. *)
Fixpoint replace_char (old new : ascii) (s : string) : string :=
  match s with
  | EmptyString => EmptyString
  | String c r =>
      String (if Ascii.eqb c old then new else c) (replace_char old new r)
  end.

(** [s.find(needle) >= 0]. *)
Fixpoint found (needle s : string) : bool :=
  String.prefix needle s
  || match s with
     | EmptyString => false
     | String _ r => found needle r
     end.

Definition carriage_return : ascii := ascii_of_nat 13.
Definition line_feed : ascii := ascii_of_nat 10.

(** [f.read().replace('\r', ' ').replace('\n', ' ').replace("\'", "'")] *)
Definition clean (data : string) : string :=
  replace_char "'"%char "'"%char
    (replace_char line_feed " "%char
       (replace_char carriage_return " "%char data)).

(** What a call of [read_story] ends in: the novel text, or the
    exception of the file that could not be read. *)
Inductive story : Type :=
| Novel (text : string)
| Unreadable (file : string).

Fixpoint read_books (read : string -> option string) (book_list : list string)
  (novel : string) : story :=
  match book_list with
  | [] => Novel novel
  | i :: rest =>
      match read i with
      | Some data =>
          read_books read rest (novel ++ (" " ++ clean data))%string
      | None => Unreadable i
      end
  end.

Definition read_story (entries : list string) (read : string -> option string)
  (story_name : string) : story :=
  let book_list := entries in
  let book_list := filter (fun i => found story_name i) book_list in
  read_books read book_list ""%string.

(** *** [plot_graph]

    The function's own control flow.  The calls it makes into
    matplotlib and networkx are recorded in order and taken to return;
    the result is the calls made, and how the function ends. *)
Inductive action : Type :=
| Figure
| BuildGraph (nodes : list string) (edges : list edge)
| WriteGexf (file : string)
| Draw (mode : string)
| SaveFig (file : string).

Definition target_dir_net : string := "data/net".

Definition plot_graph (name_list : list string) (name_frequency : list Z)
  (matrix : list (list Np.float64)) (plt_name suffix mode path : string)
  : list action * result unit :=
  match matrix_to_edge_list matrix mode name_list with
  | Raise e => ([], Raise e)
  | Ok edge_list =>
      (* np.array(name_frequency) / np.max(name_frequency) *)
      match Np.amax (map Np.of_int name_frequency) with
      | Raise e => ([], Raise e)
      | Ok _ =>
          let calls := [Figure; BuildGraph name_list edge_list] in
          let calls :=
            if (mode =? "bare")%string
            then calls ++ [WriteGexf (target_dir_net ++ "/" ++ plt_name
                                      ++ "_characters.gexf")%string]
            else if (mode =? "sentiment")%string
            then calls ++ [WriteGexf (target_dir_net ++ "/" ++ plt_name
                                      ++ "_character_sentiment.gexf")%string]
            else calls in
          if ((mode =? "co-occurrence") || (mode =? "sentiment")
              || (mode =? "bare"))%string
          then (calls ++ [Draw mode;
                          SaveFig ("characterR/graphs/" ++ plt_name ++ suffix
                                   ++ ".png")%string],
                Ok tt)
          else (calls, Raise ValueError)
      end
  end.

(** The calls that leave a file behind. *)
Definition writes_file (a : action) : bool :=
  match a with
  | WriteGexf _ | SaveFig _ => true
  | _ => false
  end.

(* ================================================================= *)
(** ** Sample collaborators, to run the functions on concrete inputs *)

Module Sample.

(** Split on spaces. *)
Fixpoint words_from (cur : string) (s : string) : list string :=
  match s with
  | EmptyString => if (cur =? "")%string then [] else [cur]
  | String c r =>
      if Ascii.eqb c " "%char
      then (if (cur =? "")%string then words_from ""%string r
            else cur :: words_from ""%string r)
      else words_from (cur ++ String c EmptyString)%string r
  end.

(** A toy scorer: the valence of the first marked word found. *)
Definition score (s : string) : R :=
  let ws := words_from ""%string s in
  if existsb (String.eqb "good") ws then 2%R
  else if existsb (String.eqb "bad") ws then (-1)%R
  else if existsb (String.eqb "great") ws then 3%R
  else 0%R.

(** Words of two characters or more; with a stop list, minus "the"
    and "and". *)
Definition analyze (stop_words : option string) (doc : string)
  : list string :=
  let tokens := filter (fun w => (2 <=? String.length w)%nat)
                       (words_from ""%string doc) in
  match stop_words with
  | None => tokens
  | Some _ =>
      filter (fun w => negb ((w =? "the") || (w =? "and"))%string) tokens
  end.

Definition lower_char (c : Ascii.ascii) : Ascii.ascii :=
  let n := Ascii.nat_of_ascii c in
  if ((65 <=? n) && (n <=? 90))%nat then Ascii.ascii_of_nat (n + 32) else c.

Fixpoint lower (s : string) : string :=
  match s with
  | EmptyString => EmptyString
  | String c r => String (lower_char c) (lower r)
  end.

(** A stable insertion argsort. *)
Fixpoint insert_key (x : Z * nat) (l : list (Z * nat)) : list (Z * nat) :=
  match l with
  | [] => [x]
  | y :: r => if (fst x <=? fst y)%Z then x :: y :: r
              else y :: insert_key x r
  end.

Definition argsort (items : list Z) : list nat :=
  map snd (fold_right insert_key [] (combine items (seq 0 (length items)))).

(** An argsort that is not stable: equal items come out in reverse
    input order. *)
Fixpoint insert_key_after (x : Z * nat) (l : list (Z * nat))
  : list (Z * nat) :=
  match l with
  | [] => [x]
  | y :: r => if (fst x <? fst y)%Z then x :: y :: r
              else y :: insert_key_after x r
  end.

Definition argsort_unstable (items : list Z) : list nat :=
  map snd (fold_right insert_key_after []
             (combine items (seq 0 (length items)))).

(** A corpus that mentions alice five times, bob and carl twice. *)
Definition novel : string :=
  "Alice and Bob met Carl and Alice saw Alice and Bob so Alice met Carl and the Alice".

(** An extractor that returns the analysed words of the sentence. *)
Definition ner (sentence : string) : value :=
  VList (map VStr (analyze None sentence)).

(** A three-name vocabulary, a lower-triangular matrix over it with one
    zero cell below the diagonal, and an all-zero matrix. *)
Definition names : list string := ["alice"; "bob"; "carl"]%string.

Definition lower_matrix : list (list Np.float64) :=
  [ [Np.Fin 0; Np.Fin 0; Np.Fin 0];
    [Np.Fin 2; Np.Fin 0; Np.Fin 0];
    [Np.Fin 0; Np.Fin 1; Np.Fin 0] ].

Definition zero_matrix : list (list Np.float64) :=
  [ [Np.Fin 0; Np.Fin 0]; [Np.Fin 0; Np.Fin 0] ].

(** A five-sentence corpus in which alice and bob meet twice. *)
Definition pair : list string := ["alice"; "bob"]%string.

Definition sentences : list string :=
  [ "alice and bob good"; "alice bad bob"; "alice alone"; "bob great";
    "nothing here" ]%string.

End Sample.

(* ================================================================= *)
(** * Properties *)

(** ** Facts about the numpy scalars *)

Lemma Rsign_pos (x : R) : (0 < x)%R -> Np.Rsign x = Gt.
Proof.
  intros H. unfold Np.Rsign.
  destruct (total_order_T x 0) as [[Hlt | Heq] | Hgt]; try reflexivity; lra.
Qed.

Lemma Rsign_zero : Np.Rsign 0 = Eq.
Proof.
  unfold Np.Rsign.
  destruct (total_order_T 0 0) as [[Hlt | Heq] | Hgt]; try reflexivity; lra.
Qed.

Lemma Rsign_neg (x : R) : (x < 0)%R -> Np.Rsign x = Lt.
Proof.
  intros H. unfold Np.Rsign.
  destruct (total_order_T x 0) as [[Hlt | Heq] | Hgt]; try reflexivity; lra.
Qed.

Lemma div_finite (x y : R) :
  y <> 0%R -> Np.div (Np.Fin x) (Np.Fin y) = Np.Fin (x / y).
Proof.
  intros H. unfold Np.div. destruct (Req_dec_T y 0); [contradiction | reflexivity].
Qed.

Lemma div_zero_zero : Np.div (Np.Fin 0) (Np.Fin 0) = Np.NaN.
Proof.
  unfold Np.div. destruct (Req_dec_T 0 0) as [_ | H]; [| now elim H].
  now rewrite Rsign_zero.
Qed.

Lemma div_nan_r (a : Np.float64) : Np.div a Np.NaN = Np.NaN.
Proof. now destruct a. Qed.

Lemma mul_nan_r (a : Np.float64) : Np.mul a Np.NaN = Np.NaN.
Proof. now destruct a. Qed.

Lemma add_nan_l (a : Np.float64) : Np.add Np.NaN a = Np.NaN.
Proof. now destruct a. Qed.

Lemma log_finite (x : R) : (0 < x)%R -> Np.log (Np.Fin x) = Np.Fin (ln x).
Proof. intros H. unfold Np.log. now rewrite Rsign_pos. Qed.

Lemma gt_finite_true (x y : R) :
  (y < x)%R -> Np.gt (Np.Fin x) (Np.Fin y) = true.
Proof. intros H. unfold Np.gt. destruct (Rlt_dec y x); [reflexivity | contradiction]. Qed.

Lemma gt_finite_false (x y : R) :
  (x <= y)%R -> Np.gt (Np.Fin x) (Np.Fin y) = false.
Proof. intros H. unfold Np.gt. destruct (Rlt_dec y x); [lra | reflexivity]. Qed.

(** ** The alignment rate *)

Lemma length_nonzero_from (k : nat) (l : list R) :
  length (Np.nonzero_from k l) = count_nonzero l.
Proof.
  revert k. induction l as [| x r IH]; intros k; simpl; [reflexivity |].
  destruct (Req_dec_T x 0); simpl; now rewrite IH.
Qed.

Lemma count_nonzero_positive (l : list R) :
  (exists x, In x l /\ x <> 0%R) -> (0 < count_nonzero l)%nat.
Proof.
  induction l as [| y r IH]; intros [x [Hin Hx]]; simpl in *; [contradiction |].
  destruct (Req_dec_T y 0) as [Hy | Hy]; [| lia].
  destruct Hin as [-> | Hin]; [contradiction |].
  apply IH. now exists x.
Qed.

Lemma all_zero_scores (l : list R) :
  (forall x, In x l -> x = 0%R) ->
  Np.sum l = 0%R /\ count_nonzero l = 0%nat.
Proof.
  unfold Np.sum.
  induction l as [| y r IH]; intros H; simpl; [split; reflexivity |].
  destruct IH as [Hs Hc]; [intros x Hx; apply H; now right |].
  assert (Hy : y = 0%R) by (apply H; now left).
  rewrite Hs, Hc.
  destruct (Req_dec_T y 0); [| contradiction].
  split; [lra | reflexivity].
Qed.

Lemma calculate_align_rate_unfold (afinn_score : string -> R)
  (sentence_list : list string) :
  calculate_align_rate afinn_score sentence_list
  = Ok (Np.mul
          (Np.div (Np.Fin (Np.sum (map afinn_score sentence_list)))
                  (Np.Fin (INR (count_nonzero (map afinn_score sentence_list)))))
          (Np.Fin (-2))).
Proof.
  unfold calculate_align_rate, Np.nonzero, Np.of_int.
  now rewrite length_nonzero_from, <- INR_IZR_INZ.
Qed.

(** C6.  With at least one non-zero score the alignment rate is
    [sum(scores) / count(nonzero scores) * -2]; for the scores
    [2, -1, 0, 3] it is [-8/3]. *)
Theorem calculate_align_rate_formula :
  forall (afinn_score : string -> R) (sentence_list : list string),
    ((exists s, In s sentence_list /\ afinn_score s <> 0%R) ->
     calculate_align_rate afinn_score sentence_list
     = Ok (Np.Fin (Np.sum (map afinn_score sentence_list)
                   / INR (count_nonzero (map afinn_score sentence_list))
                   * -2)))
    /\ (map afinn_score sentence_list = [2; -1; 0; 3]%R ->
        calculate_align_rate afinn_score sentence_list
        = Ok (Np.Fin (-8 / 3))).
Proof.
  intros afinn_score sl.
  assert (General :
    (exists s, In s sl /\ afinn_score s <> 0%R) ->
    calculate_align_rate afinn_score sl
    = Ok (Np.Fin (Np.sum (map afinn_score sl)
                  / INR (count_nonzero (map afinn_score sl)) * -2))).
  { intros [s [Hin Hs]].
    rewrite calculate_align_rate_unfold.
    assert (Hpos : (0 < count_nonzero (map afinn_score sl))%nat).
    { apply count_nonzero_positive. exists (afinn_score s).
      split; [now apply in_map | assumption]. }
    rewrite div_finite; [reflexivity |].
    apply not_0_INR. lia. }
  split; [exact General |].
  intros Hscores.
  assert (Hnz : exists s, In s sl /\ afinn_score s <> 0%R).
  { destruct sl as [| s r]; [discriminate |].
    exists s. split; [now left |].
    simpl in Hscores. injection Hscores as H2 _. rewrite H2. lra. }
  rewrite (General Hnz), Hscores.
  do 2 f_equal. unfold Np.sum. simpl.
  destruct (Req_dec_T 2 0); [lra |].
  destruct (Req_dec_T (-1) 0); [lra |].
  destruct (Req_dec_T 0 0) as [_ | H0]; [| now elim H0].
  destruct (Req_dec_T 3 0); [lra |].
  simpl. lra.
Qed.

Lemma calculate_align_rate_formula_witness :
  calculate_align_rate Sample.score ["good"; "bad"; "meh"; "great"]%string
  = Ok (Np.Fin (-8 / 3))
  /\ calculate_align_rate Sample.score ["good"; "meh"]%string
     = Ok (Np.Fin (Np.sum (map Sample.score ["good"; "meh"]%string)
                   / INR (count_nonzero (map Sample.score ["good"; "meh"]%string))
                   * -2)).
Proof.
  split.
  - apply (proj2 (calculate_align_rate_formula Sample.score
                    ["good"; "bad"; "meh"; "great"]%string)).
    reflexivity.
  - apply (proj1 (calculate_align_rate_formula Sample.score
                    ["good"; "meh"]%string)).
    exists "good"%string. split; [now left |].
    change (Sample.score "good") with 2%R. lra.
Defined.

Lemma align_rate_nan (afinn_score : string -> R)
  (sentence_list : list string) :
  (forall s, In s sentence_list -> afinn_score s = 0%R) ->
  calculate_align_rate afinn_score sentence_list = Ok Np.NaN.
Proof.
  intros H.
  rewrite calculate_align_rate_unfold.
  destruct (all_zero_scores (map afinn_score sentence_list)) as [Hs Hc].
  { intros x Hx. apply in_map_iff in Hx as [s [<- Hs]]. now apply H. }
  rewrite Hs, Hc. simpl INR. now rewrite div_zero_zero.
Qed.

(** C7, as the code behaves.  When no sentence has a non-zero score the
    division is numpy's [0.0 / 0]: no exception is raised and the
    alignment rate is [nan]. *)
Theorem calculate_align_rate_no_nonzero :
  forall (afinn_score : string -> R) (sentence_list : list string),
    (forall s, In s sentence_list -> afinn_score s = 0%R) ->
    calculate_align_rate afinn_score sentence_list = Ok Np.NaN.
Proof. intros. now apply align_rate_nan. Qed.

Lemma calculate_align_rate_no_nonzero_witness :
  calculate_align_rate Sample.score ["meh"; "so"]%string = Ok Np.NaN.
Proof.
  apply calculate_align_rate_no_nonzero.
  intros s [<- | [<- | []]]; reflexivity.
Defined.

(** C7, counterexample: on two neutral sentences, and on the empty
    list, the calculator returns [nan] instead of raising. *)
Lemma calculate_align_rate_zero_counterexample :
  calculate_align_rate Sample.score ["meh"; "so"]%string = Ok Np.NaN
  /\ calculate_align_rate Sample.score [] = Ok Np.NaN
  /\ ~ (forall sentence_list,
          (forall s, In s sentence_list -> Sample.score s = 0%R) ->
          raises (calculate_align_rate Sample.score sentence_list)).
Proof.
  assert (H1 : calculate_align_rate Sample.score ["meh"; "so"]%string
               = Ok Np.NaN).
  { apply align_rate_nan. intros s [<- | [<- | []]]; reflexivity. }
  assert (H2 : calculate_align_rate Sample.score [] = Ok Np.NaN).
  { apply align_rate_nan. intros s []. }
  repeat split; try assumption.
  intros Hclaim.
  destruct (Hclaim ["meh"; "so"]%string) as [e He].
  - intros s [<- | [<- | []]]; reflexivity.
  - rewrite H1 in He. discriminate.
Qed.

(** ** The name aggregator *)

Lemma value_nested_ind (P : value -> Prop) :
  P VNone ->
  (forall s, P (VStr s)) ->
  (forall l, Forall P l -> P (VList l)) ->
  forall v, P v.
Proof.
  intros HN HS HL. fix IH 1. intros [| s | l].
  - exact HN.
  - apply HS.
  - apply HL. induction l as [| x r IHr]; constructor; [apply IH | exact IHr].
Qed.

Lemma value_eqb_eq (a b : value) : value_eqb a b = true <-> a = b.
Proof.
  revert b. induction a as [| s | l IH] using value_nested_ind; intros b.
  - destruct b; simpl; split; congruence.
  - destruct b as [| t | m]; simpl; try (split; congruence).
    rewrite String.eqb_eq. split; congruence.
  - destruct b as [| t | m]; simpl; try (split; congruence).
    revert m. induction IH as [| x r Hx Hr IHr]; intros m.
    + destruct m; split; congruence.
    + destruct m as [| y m']; [split; congruence |].
      rewrite andb_true_iff, Hx, IHr. split.
      * intros [-> H]. now inversion H.
      * intros H. inversion H. now split.
Qed.

Lemma value_eqb_refl (a : value) : value_eqb a a = true.
Proof. now apply value_eqb_eq. Qed.

Lemma value_eqb_neq (a b : value) : value_eqb a b = false <-> a <> b.
Proof.
  rewrite <- value_eqb_eq. destruct (value_eqb a b); split; congruence.
Qed.

Lemma count_value_app (x : value) (l m : list value) :
  count_value x (l ++ m) = (count_value x l + count_value x m)%nat.
Proof. unfold count_value. now rewrite filter_app, length_app. Qed.

Lemma count_value_positive (x : value) (l : list value) :
  (0 < count_value x l)%nat <-> In x l.
Proof.
  unfold count_value. induction l as [| y r IH]; simpl; [split; [lia | tauto] |].
  destruct (value_eqb x y) eqn:E; simpl.
  - apply value_eqb_eq in E. subst. split; [now left | lia].
  - apply value_eqb_neq in E. rewrite IH. split; [tauto |].
    intros [H | H]; [congruence | assumption].
Qed.

(** The keys of the counter after one more item. *)
Lemma counter_add_keys (c : list (value * nat)) (x : value) :
  map fst (counter_add c x)
  = if existsb (fun k => value_eqb k x) (map fst c)
    then map fst c else map fst c ++ [x].
Proof.
  induction c as [| [k n] r IH]; simpl; [reflexivity |].
  destruct (value_eqb k x) eqn:E; simpl; [reflexivity |].
  rewrite IH. now destruct (existsb _ _).
Qed.

Lemma counter_add_NoDup (c : list (value * nat)) (x : value) :
  NoDup (map fst c) -> NoDup (map fst (counter_add c x)).
Proof.
  intros H. rewrite counter_add_keys.
  destruct (existsb _ _) eqn:E; [assumption |].
  apply NoDup_app; [assumption | repeat constructor; simpl; tauto |].
  intros k Hk [Hx | []]. subst k.
  assert (Hex : existsb (fun k' => value_eqb k' x) (map fst c) = true).
  { apply existsb_exists. exists x. split; [assumption | apply value_eqb_refl]. }
  congruence.
Qed.

Lemma counter_get_add (c : list (value * nat)) (x k : value) :
  counter_get (counter_add c x) k
  = if value_eqb x k
    then Some (S (match counter_get c x with Some n => n | None => 0 end))
    else counter_get c k.
Proof.
  induction c as [| [k0 n0] r IH]; simpl.
  - reflexivity.
  - destruct (value_eqb k0 x) eqn:E0; simpl.
    + apply value_eqb_eq in E0. subst k0.
      now destruct (value_eqb x k).
    + rewrite IH. destruct (value_eqb x k) eqn:E1; [| reflexivity].
      apply value_eqb_eq in E1. subst k. now rewrite E0.
Qed.

Lemma counter_get_In (c : list (value * nat)) (x : value) (n : nat) :
  NoDup (map fst c) -> (In (x, n) c <-> counter_get c x = Some n).
Proof.
  induction c as [| [k m] r IH]; simpl; intros Hnd.
  - split; [tauto | discriminate].
  - inversion Hnd as [| ? ? Hk Hr]; subst.
    destruct (value_eqb k x) eqn:E.
    + apply value_eqb_eq in E. subst k. split.
      * intros [H | H]; [congruence |].
        elim Hk. apply in_map_iff. now exists (x, n).
      * intros H. left. congruence.
    + apply value_eqb_neq in E. rewrite <- (IH Hr). split; [| tauto].
      intros [H | H]; [congruence | assumption].
Qed.

Lemma count_value_single (k x : value) :
  count_value k [x] = if value_eqb k x then 1%nat else 0%nat.
Proof. unfold count_value. simpl. now destruct (value_eqb k x). Qed.

Lemma counter_add_counts (c : list (value * nat)) (l : list value)
  (x : value) :
  counter_counts c l -> counter_counts (counter_add c x) (l ++ [x]).
Proof.
  intros [Hnd Hget]. split; [now apply counter_add_NoDup |].
  intros k. rewrite counter_get_add, count_value_app, count_value_single.
  destruct (value_eqb x k) eqn:E.
  - apply value_eqb_eq in E. subst k. rewrite value_eqb_refl.
    rewrite Hget.
    destruct (count_value x l =? 0)%nat eqn:E0.
    + apply Nat.eqb_eq in E0. rewrite E0. reflexivity.
    + replace (count_value x l + 1 =? 0)%nat with false
        by (symmetry; apply Nat.eqb_neq; lia).
      f_equal. lia.
  - assert (E' : value_eqb k x = false).
    { apply value_eqb_neq. apply value_eqb_neq in E. congruence. }
    rewrite E'. rewrite Nat.add_0_r. apply Hget.
Qed.

Lemma Counter_counts (items : list value) :
  counter_counts (Counter items) items.
Proof.
  unfold Counter.
  assert (G : forall rest c l, counter_counts c l ->
            counter_counts (fold_left counter_add rest c) (l ++ rest)).
  { induction rest as [| x r IH]; intros c l H; simpl.
    - now rewrite app_nil_r.
    - replace (l ++ x :: r) with ((l ++ [x]) ++ r)
        by (now rewrite <- app_assoc).
      apply IH. now apply counter_add_counts. }
  apply (G items [] []). split; [constructor | reflexivity].
Qed.

Lemma flatten_cons (v : value) (l : list value) :
  flatten (v :: l) = flatten_item v ++ flatten l.
Proof. reflexivity. Qed.

(** The counter's input holds each value as often as the sentences
    mention it. *)
Lemma occurrence_count_flatten (ner : string -> value) (x : value)
  (sentence_list : list string) :
  count_value x
    (flatten (filter (fun name_list => negb (value_eqb name_list (VList [])))
                     (map ner sentence_list)))
  = occurrence_count ner x sentence_list.
Proof.
  induction sentence_list as [| s r IH]; [reflexivity |].
  cbn [map filter occurrence_count].
  destruct (value_eqb (ner s) (VList [])) eqn:E; cbn [negb].
  - apply value_eqb_eq in E. rewrite E. exact IH.
  - rewrite flatten_cons, count_value_app. now rewrite IH.
Qed.




(** ** Indexed maps and cells *)

Lemma length_mapi_from {A B : Type} (f : nat -> A -> B) (k : nat)
  (l : list A) :
  length (mapi_from k f l) = length l.
Proof.
  revert k. induction l as [| x r IH]; intros k; simpl; [reflexivity |].
  now rewrite IH.
Qed.

Lemma nth_error_mapi_from {A B : Type} (f : nat -> A -> B) (k n : nat)
  (l : list A) :
  nth_error (mapi_from k f l) n = option_map (f (k + n)%nat) (nth_error l n).
Proof.
  revert k n. induction l as [| x r IH]; intros k n; simpl.
  - now destruct n.
  - destruct n as [| n]; simpl.
    + now rewrite Nat.add_0_r.
    + rewrite IH. now rewrite Nat.add_succ_r.
Qed.

Lemma nth_error_mapi {A B : Type} (f : nat -> A -> B) (n : nat)
  (l : list A) :
  nth_error (mapi f l) n = option_map (f n) (nth_error l n).
Proof. unfold mapi. now rewrite nth_error_mapi_from. Qed.

Lemma mapi_from_map_seq {A B : Type} (f : nat -> A -> B) (h : nat -> A)
  (k n : nat) :
  mapi_from k f (map h (seq k n)) = map (fun j => f j (h j)) (seq k n).
Proof.
  revert k. induction n as [| n IH]; intros k; simpl; [reflexivity |].
  now rewrite IH.
Qed.

Lemma cell_map_map {A B : Type} (f : A -> B) (M : list (list A))
  (i j : nat) :
  cell (map (map f) M) i j = option_map f (cell M i j).
Proof.
  unfold cell. rewrite nth_error_map.
  destruct (nth_error M i) as [row |]; simpl; [| reflexivity].
  now rewrite nth_error_map.
Qed.

Lemma cell_in_shape {A : Type} (M : list (list A)) (rows cols i j : nat) :
  is_shape rows cols M -> (i < rows)%nat -> (j < cols)%nat ->
  exists x, cell M i j = Some x.
Proof.
  intros [Hlen Hrows] Hi Hj. unfold cell.
  destruct (nth_error M i) as [row |] eqn:E.
  - assert (Hrow : length row = cols).
    { rewrite Forall_forall in Hrows. apply Hrows.
      now apply nth_error_In with i. }
    destruct (nth_error row j) as [x |] eqn:Ej; [now exists x |].
    apply nth_error_None in Ej. lia.
  - apply nth_error_None in E. lia.
Qed.

(** ** The lower-triangular positions *)

Lemma concat_map_if {A B : Type} (p : A -> bool) (f : A -> B) (l : list A) :
  concat (map (fun a => if p a then [f a] else []) l) = map f (filter p l).
Proof.
  induction l as [| a r IH]; simpl; [reflexivity |].
  rewrite IH. now destruct (p a).
Qed.

Lemma filter_ltb_seq (i n : nat) :
  (i <= n)%nat -> filter (fun j => (j <? i)%nat) (seq 0 n) = seq 0 i.
Proof.
  induction n as [| n IH]; intros Hi.
  - now replace i with 0%nat by lia.
  - rewrite seq_S, filter_app. simpl.
    destruct (Nat.ltb_spec n i) as [Hlt | Hge].
    + replace i with (S n) by lia.
      rewrite seq_S. f_equal.
      apply forallb_filter_id. apply forallb_forall.
      intros j Hj. apply in_seq in Hj. apply Nat.ltb_lt. lia.
    + rewrite app_nil_r. apply IH. lia.
Qed.

(** The positions the projector walks are the pairs [(i, j)] with
    [j < i < shape], row by row. *)
Lemma where_zero_triu_ones (shape : nat) :
  where_zero (triu_ones shape) = lower_positions shape.
Proof.
  unfold where_zero, triu_ones, lower_positions, mapi.
  rewrite mapi_from_map_seq, flat_map_concat_map. f_equal.
  apply map_ext_in. intros i Hi. apply in_seq in Hi.
  rewrite mapi_from_map_seq.
  rewrite map_ext with
    (g := fun j => if (j <? i)%nat then [(i, j)] else []).
  - rewrite concat_map_if. rewrite filter_ltb_seq by lia. reflexivity.
  - intros j. now destruct (j <? i)%nat.
Qed.

Lemma in_lower_positions (shape i j : nat) :
  In (i, j) (lower_positions shape) <-> (j < i < shape)%nat.
Proof.
  unfold lower_positions. rewrite in_flat_map. split.
  - intros [i' [Hi Hin]]. apply in_seq in Hi.
    apply in_map_iff in Hin as [j' [Heq Hj]]. apply in_seq in Hj.
    injection Heq as <- <-. lia.
  - intros H. exists i. split; [apply in_seq; lia |].
    apply in_map_iff. exists j. split; [reflexivity | apply in_seq; lia].
Qed.

Lemma NoDup_lower_positions (shape : nat) : NoDup (lower_positions shape).
Proof.
  unfold lower_positions. induction shape as [| n IH]; [constructor |].
  rewrite seq_S, flat_map_app. simpl. rewrite app_nil_r.
  apply NoDup_app.
  - exact IH.
  - apply Finite.Injective_map_NoDup; [| apply seq_NoDup].
    intros a b H. now injection H.
  - intros [i j] Hin Hn.
    apply in_flat_map in Hin as [i' [Hi Hin]]. apply in_seq in Hi.
    apply in_map_iff in Hin as [j' [Heq _]].
    apply in_map_iff in Hn as [j'' [Heq' _]].
    injection Heq as <- _. injection Heq' as <- _. lia.
Qed.

Lemma length_lower_positions (shape : nat) :
  (2 * length (lower_positions shape) = shape * (shape - 1))%nat.
Proof.
  unfold lower_positions. induction shape as [| n IH]; [reflexivity |].
  rewrite seq_S, flat_map_app, length_app. simpl.
  rewrite app_nil_r, length_map, length_seq.
  replace (n - 0)%nat with n by lia.
  destruct n as [| m]; [reflexivity |].
  replace (S m - 1)%nat with m in IH by lia.
  replace (S (S m) - 1)%nat with (S m) by lia.
  set (len := length _) in *. nia.
Qed.

(** ** The edge loop *)

Lemma Forall2_nth_error_r {A B : Type} (P : A -> B -> Prop)
  (l : list A) (m : list B) (n : nat) (b : B) :
  Forall2 P l m -> nth_error m n = Some b ->
  exists a, nth_error l n = Some a /\ P a b.
Proof.
  intros H. revert n. induction H as [| x y l' m' Hxy _ IH]; intros n Hn.
  - now destruct n.
  - destruct n as [| n]; simpl in *.
    + injection Hn as <-. now exists x.
    + now apply IH.
Qed.

Lemma Forall2_nth_error_l {A B : Type} (P : A -> B -> Prop)
  (l : list A) (m : list B) (n : nat) (a : A) :
  Forall2 P l m -> nth_error l n = Some a ->
  exists b, nth_error m n = Some b /\ P a b.
Proof.
  intros H. revert n. induction H as [| x y l' m' Hxy _ IH]; intros n Hn.
  - now destruct n.
  - destruct n as [| n]; simpl in *.
    + injection Hn as <-. now exists y.
    + now apply IH.
Qed.

(** What a successful run of the loop has appended: one edge per
    position that passes the filter, in order. *)
Lemma edge_loop_filter (mode : string)
  (W C : option (list (list Np.float64))) (names : list string)
  (locs : list (nat * nat)) :
  forall acc edges,
    edge_loop mode W C names locs acc = Ok edges ->
    exists es, edges = acc ++ es
               /\ Forall2 (edge_at W C names) (filter (kept mode W) locs) es.
Proof.
  induction locs as [| [i0 i1] rest IH]; intros acc edges H.
  - injection H as <-. exists []. split; [now rewrite app_nil_r | constructor].
  - cbn [edge_loop filter] in *. unfold kept at 1. cbn [fst snd].
    assert (Keep : forall wi,
      (w <- getvar W ;; getcell w i0 i1) = Ok wi ->
      (a <- getitem names i0 ;; b <- getitem names i1 ;;
       w <- getvar W ;; wi <- getcell w i0 i1 ;;
       c <- getvar C ;; ci <- getcell c i0 i1 ;;
       edge_loop mode W C names rest (acc ++ [Edge a b wi ci])) = Ok edges ->
      exists es, edges = acc ++ es
        /\ Forall2 (edge_at W C names)
             ((i0, i1) :: filter (kept mode W) rest) es).
    { intros wi Hwi Hbody.
      destruct (getitem names i0) as [a |] eqn:Ea; [| discriminate].
      destruct (getitem names i1) as [b |] eqn:Eb; [| discriminate].
      cbn [bind] in Hbody.
      destruct (getvar W) as [w |] eqn:Ew; [| discriminate].
      cbn [bind] in Hbody, Hwi. rewrite Hwi in Hbody. cbn [bind] in Hbody.
      destruct (getvar C) as [c |] eqn:Ec; [| discriminate].
      cbn [bind] in Hbody.
      destruct (getcell c i0 i1) as [ci |] eqn:Eci; [| discriminate].
      cbn [bind] in Hbody.
      apply IH in Hbody as [es [-> HF]].
      exists (Edge a b wi ci :: es). split; [now rewrite <- app_assoc |].
      constructor; [| exact HF].
      unfold edge_at. cbn [fst snd name_a name_b weight color bind].
      rewrite Ea, Eb, Ew, Ec. cbn [bind]. now rewrite Hwi, Eci. }
    destruct (mode =? "bare")%string eqn:Ebare; cbn [negb orb] in *.
    + destruct W as [w |]; [| discriminate].
      cbn [getvar bind] in H. unfold getcell in H at 1.
      destruct (cell w i0 i1) as [wi |] eqn:Ewi; [| discriminate].
      cbn [bind] in H.
      destruct (Np.gt wi (Np.Fin 0.0001)) eqn:Egt.
      * apply (Keep wi); [| exact H].
        cbn [getvar bind]. unfold getcell. now rewrite Ewi.
      * now apply IH.
    + cbn [bind] in H.
      destruct (w <- getvar W ;; getcell w i0 i1) as [wi |] eqn:Ewi.
      * now apply (Keep wi).
      * exfalso.
        destruct (getitem names i0); [| discriminate].
        destruct (getitem names i1); [| discriminate].
        cbn [bind] in H.
        destruct (getvar W); [| discriminate].
        cbn [bind] in H, Ewi. rewrite Ewi in H. discriminate.
Qed.

(** The loop runs to its end when both arrays are bound and every
    position is inside the arrays and the name list. *)
Lemma edge_loop_total (mode : string) (w c : list (list Np.float64))
  (names : list string) (locs : list (nat * nat)) :
  (forall p, In p locs ->
     (exists x, cell w (fst p) (snd p) = Some x)
     /\ (exists y, cell c (fst p) (snd p) = Some y)
     /\ (fst p < length names)%nat /\ (snd p < length names)%nat) ->
  forall acc, exists edges,
    edge_loop mode (Some w) (Some c) names locs acc = Ok edges.
Proof.
  induction locs as [| [i0 i1] rest IH]; intros Hin acc.
  - now exists acc.
  - destruct (Hin (i0, i1)) as [[x Hx] [[y Hy] [H0 H1]]]; [now left |].
    cbn [fst snd] in *.
    assert (IH' := IH (fun p Hp => Hin p (or_intror Hp))).
    cbn [edge_loop getvar bind]. unfold getcell, getitem. rewrite Hx, Hy.
    destruct (nth_error names i0) as [a |] eqn:Ea;
      [| apply nth_error_None in Ea; lia].
    destruct (nth_error names i1) as [b |] eqn:Eb;
      [| apply nth_error_None in Eb; lia].
    destruct (negb (mode =? "bare")%string); cbn [bind].
    + apply IH'.
    + destruct (Np.gt x (Np.Fin 0.0001)); cbn [bind]; apply IH'.
Qed.

(** ** The edge projector *)

Lemma map_map_map {A B C : Type} (f : A -> B) (g : B -> C)
  (M : list (list A)) :
  map (map g) (map (map f) M) = map (map (fun x => g (f x))) M.
Proof.
  rewrite map_map. apply map_ext. intros row. apply map_map.
Qed.

(** For the three modes the weight and colour arrays are the
    specification's transforms of the normalised matrix. *)
Lemma matrix_to_edge_list_known (matrix : list (list Np.float64))
  (mode : string) (names : list string) :
  known_mode mode ->
  matrix_to_edge_list matrix mode names
  = (max_abs <- Np.amax (map Np.abs (concat matrix)) ;;
     edge_loop mode
       (Some (map (map (fun x => spec_weight mode (Np.div x max_abs))) matrix))
       (Some (map (map (fun x => spec_color mode (Np.div x max_abs))) matrix))
       names (lower_positions (length matrix)) []).
Proof.
  intros Hmode. unfold matrix_to_edge_list.
  rewrite where_zero_triu_ones.
  destruct (Np.amax (map Np.abs (concat matrix))) as [max_abs |];
    [| reflexivity].
  cbn [bind].
  destruct Hmode as [-> | [-> | ->]]; cbn [String.eqb Ascii.eqb Bool.eqb];
    rewrite !map_map_map; reflexivity.
Qed.

(** For any mode string, a returned edge list is the outcome of the
    loop over the lower-triangular positions. *)
Lemma matrix_to_edge_list_loop (matrix : list (list Np.float64))
  (mode : string) (names : list string) (edges : list edge) :
  matrix_to_edge_list matrix mode names = Ok edges ->
  exists W C,
    edge_loop mode W C names (lower_positions (length matrix)) [] = Ok edges.
Proof.
  unfold matrix_to_edge_list. rewrite where_zero_triu_ones.
  destruct (Np.amax (map Np.abs (concat matrix))) as [max_abs |];
    [| discriminate].
  cbn [bind].
  destruct (mode =? "co-occurrence")%string;
    destruct (mode =? "sentiment")%string;
    destruct (mode =? "bare")%string; intros H; eauto.
Qed.

(** ** The projector in closed form *)

Lemma cell_nth {A : Type} (M : list (list A)) (i j : nat) (x d : A) :
  cell M i j = Some x -> nth j (nth i M []) d = x.
Proof.
  unfold cell. intros H.
  destruct (nth_error M i) as [row |] eqn:E; [| discriminate].
  rewrite (nth_error_nth _ _ [] E). now apply nth_error_nth.
Qed.

Lemma Forall2_functional {A B : Type} (P : A -> B -> Prop) (f : A -> B)
  (l : list A) (m : list B) :
  (forall a b, In a l -> P a b -> b = f a) ->
  Forall2 P l m -> m = map f l.
Proof.
  intros Hf H. induction H as [| a b l' m' Hab _ IH]; [reflexivity |].
  simpl. f_equal.
  - apply Hf; [now left | exact Hab].
  - apply IH. intros a' b' Hin. apply Hf. now right.
Qed.

(** On a square matrix with enough names, and for one of the three
    modes, the projector returns the closed-form edge list. *)
Lemma matrix_to_edge_list_closed (matrix : list (list Np.float64))
  (mode : string) (names : list string) (K : nat) (max_abs : Np.float64) :
  known_mode mode ->
  is_shape K K matrix -> (K <= length names)%nat ->
  Np.amax (map Np.abs (concat matrix)) = Ok max_abs ->
  matrix_to_edge_list matrix mode names
  = Ok (projected_edges matrix mode names max_abs).
Proof.
  intros Hmode Hshape Hnames Hmax.
  rewrite (matrix_to_edge_list_known matrix names Hmode), Hmax. cbn [bind].
  set (W := map (map (fun x => spec_weight mode (Np.div x max_abs))) matrix).
  set (C := map (map (fun x => spec_color mode (Np.div x max_abs))) matrix).
  assert (Hlen : length matrix = K) by apply Hshape.
  assert (Hcells : forall p, In p (lower_positions (length matrix)) ->
            exists x, cell matrix (fst p) (snd p) = Some x).
  { intros [i j] Hp. apply in_lower_positions in Hp. cbn [fst snd].
    apply (cell_in_shape Hshape); lia. }
  destruct (@edge_loop_total mode W C names (lower_positions (length matrix)))
    with (acc := @nil edge) as [edges Hedges].
  { intros [i j] Hp. destruct (Hcells _ Hp) as [x Hx].
    apply in_lower_positions in Hp. cbn [fst snd] in *.
    unfold W, C. rewrite !cell_map_map, Hx. cbn [option_map].
    repeat split; eauto; lia. }
  rewrite Hedges. f_equal.
  apply edge_loop_filter in Hedges as [es [-> HF]]. cbn [app].
  unfold projected_edges.
  rewrite filter_ext_in with (g := keeps matrix mode max_abs) in HF.
  - apply Forall2_functional with (f := edge_of matrix mode names max_abs)
      in HF; [exact HF |].
    intros [i j] [a b w c] Hp [Ha [Hb [Hw Hc]]].
    apply filter_In in Hp as [Hp _]. destruct (Hcells _ Hp) as [x Hx].
    cbn [fst snd name_a name_b weight color getvar bind] in *.
    unfold getcell, W, C in Hw, Hc. rewrite cell_map_map, Hx in Hw, Hc.
    cbn [option_map] in Hw, Hc.
    unfold getitem in Ha, Hb.
    destruct (nth_error names i) as [a' |] eqn:Ea; [| discriminate].
    destruct (nth_error names j) as [b' |] eqn:Eb; [| discriminate].
    unfold edge_of. cbn [fst snd].
    rewrite (cell_nth _ _ _ (Np.Fin 0) Hx).
    rewrite (nth_error_nth _ _ ""%string Ea), (nth_error_nth _ _ ""%string Eb).
    congruence.
  - intros [i j] Hp. destruct (Hcells _ Hp) as [x Hx].
    unfold kept, keeps, W. cbn [fst snd] in *.
    rewrite cell_map_map, Hx. cbn [option_map].
    now rewrite (cell_nth _ _ _ (Np.Fin 0) Hx).
Qed.

(** ** The transforms on finite values *)

Lemma div_by_nonzero (v top : R) :
  Np.Fin top <> Np.Fin 0 ->
  Np.div (Np.Fin v) (Np.Fin top) = Np.Fin (v / top).
Proof.
  intros H. apply div_finite. intros ->. now apply H.
Qed.

Lemma spec_weight_co_occurrence (m : R) :
  (0 < 2000 * m + 1)%R ->
  spec_weight "co-occurrence" (Np.Fin m) = Np.Fin (ln (2000 * m + 1) * 0.7).
Proof.
  intros H. unfold spec_weight. cbn [String.eqb Ascii.eqb Bool.eqb].
  cbn [Np.mul Np.add]. now rewrite log_finite.
Qed.

Lemma spec_color_co_occurrence (m : R) :
  (0 < 2000 * m + 1)%R ->
  spec_color "co-occurrence" (Np.Fin m) = Np.Fin (ln (2000 * m + 1)).
Proof.
  intros H. unfold spec_color. cbn [String.eqb Ascii.eqb Bool.eqb].
  cbn [Np.mul Np.add]. now rewrite log_finite.
Qed.

Lemma spec_weight_signed (mode : string) (m : R) :
  mode <> "co-occurrence"%string ->
  spec_weight mode (Np.Fin m) = Np.Fin (ln (Rabs (1000 * m) + 1) * 0.7).
Proof.
  intros H. unfold spec_weight.
  destruct (String.eqb_spec mode "co-occurrence"); [contradiction |].
  cbn [Np.mul Np.add Np.abs]. rewrite log_finite; [reflexivity |].
  pose proof (Rabs_pos (1000 * m)). lra.
Qed.

Lemma spec_color_signed (mode : string) (m : R) :
  mode <> "co-occurrence"%string ->
  spec_color mode (Np.Fin m) = Np.Fin (2000 * m).
Proof.
  intros H. unfold spec_color.
  now destruct (String.eqb_spec mode "co-occurrence").
Qed.

Lemma spec_weight_nan (mode : string) : spec_weight mode Np.NaN = Np.NaN.
Proof. unfold spec_weight. now destruct (mode =? "co-occurrence")%string. Qed.

Lemma spec_color_nan (mode : string) : spec_color mode Np.NaN = Np.NaN.
Proof. unfold spec_color. now destruct (mode =? "co-occurrence")%string. Qed.

(** ** The maximum absolute value *)

Lemma fold_maximum_zero (l : list Np.float64) :
  Forall (fun x => x = Np.Fin 0) l ->
  fold_left Np.maximum (map Np.abs l) (Np.Fin 0) = Np.Fin 0.
Proof.
  induction 1 as [| x r Hx _ IH]; [reflexivity |].
  subst x. cbn [map fold_left Np.abs Np.maximum].
  rewrite Rabs_R0. unfold Rmax. now destruct (Rle_dec 0 0).
Qed.

Lemma amax_all_zero (l : list Np.float64) :
  l <> [] -> Forall (fun x => x = Np.Fin 0) l ->
  Np.amax (map Np.abs l) = Ok (Np.Fin 0).
Proof.
  intros Hne H. destruct l as [| x r]; [contradiction |].
  inversion H as [| ? ? Hx Hr]; subst.
  cbn [map Np.amax Np.abs]. rewrite Rabs_R0. f_equal.
  now apply fold_maximum_zero.
Qed.

Lemma all_zero_concat (matrix : list (list Np.float64)) :
  all_zero matrix -> Forall (fun x => x = Np.Fin 0) (concat matrix).
Proof.
  induction 1 as [| row rest Hrow _ IH]; [constructor |].
  simpl. apply Forall_app. now split.
Qed.

Lemma square_concat_nonempty {A : Type} (M : list (list A)) (K : nat) :
  (0 < K)%nat -> is_shape K K M -> concat M <> [].
Proof.
  intros HK [Hlen Hrows]. destruct M as [| row rest]; [simpl in Hlen; lia |].
  inversion Hrows as [| ? ? Hrow _]; subst.
  destruct row; [simpl in *; lia | discriminate].
Qed.

Lemma all_zero_cell (matrix : list (list Np.float64)) (i j : nat)
  (x : Np.float64) :
  all_zero matrix -> cell matrix i j = Some x -> x = Np.Fin 0.
Proof.
  unfold all_zero, cell. intros H Hc.
  destruct (nth_error matrix i) as [row |] eqn:E; [| discriminate].
  apply nth_error_In in E, Hc.
  rewrite Forall_forall in H. specialize (H row E).
  rewrite Forall_forall in H. now apply H.
Qed.

Lemma sample_amax :
  Np.amax (map Np.abs (concat Sample.lower_matrix)) = Ok (Np.Fin 2).
Proof.
  cbn [Sample.lower_matrix concat app map Np.abs Np.amax fold_left
       Np.maximum].
  rewrite Rabs_R0, (Rabs_pos_eq 2), (Rabs_pos_eq 1) by lra.
  do 2 f_equal. unfold Rmax.
  repeat (destruct (Rle_dec _ _); try lra).
Qed.

Lemma sample_shape : is_shape 3 3 Sample.lower_matrix.
Proof. split; [reflexivity | repeat constructor]. Qed.

Lemma zero_matrix_shape : is_shape 2 2 Sample.zero_matrix.
Proof. split; [reflexivity | repeat constructor]. Qed.

Lemma zero_matrix_all_zero : all_zero Sample.zero_matrix.
Proof. repeat constructor. Qed.

(** ** The projector on the sample matrices *)

Lemma ln_above_one (x : R) : (3 < x)%R -> (1 < ln x)%R.
Proof.
  intros H. rewrite <- (ln_exp 1) at 1.
  apply ln_increasing; [apply exp_pos |].
  pose proof exp_le_3. lra.
Qed.

Ltac eval_positions :=
  unfold projected_edges;
  cbn [length Sample.lower_matrix Sample.zero_matrix lower_positions
       flat_map seq map app filter].

Ltac eval_cells :=
  unfold edge_of, keeps;
  cbn [map fst snd nth Sample.names Sample.lower_matrix
       Sample.zero_matrix negb orb String.eqb Ascii.eqb Bool.eqb filter].

Example sample_co_occurrence :
  matrix_to_edge_list Sample.lower_matrix "co-occurrence" Sample.names
  = Ok [ Edge "bob" "alice" (Np.Fin (ln 2001 * 0.7)) (Np.Fin (ln 2001));
         Edge "carl" "alice" (Np.Fin 0) (Np.Fin 0);
         Edge "carl" "bob" (Np.Fin (ln 1001 * 0.7)) (Np.Fin (ln 1001)) ].
Proof.
  rewrite (@matrix_to_edge_list_closed _ _ _ 3 (Np.Fin 2));
    [| now left | apply sample_shape | simpl; lia | apply sample_amax].
  eval_positions. eval_cells.
  rewrite !div_finite by lra.
  rewrite !spec_weight_co_occurrence, !spec_color_co_occurrence by lra.
  replace (2000 * (2 / 2) + 1)%R with 2001%R by lra.
  replace (2000 * (0 / 2) + 1)%R with 1%R by lra.
  replace (2000 * (1 / 2) + 1)%R with 1001%R by lra.
  rewrite ln_1. now replace (0 * 0.7)%R with 0%R by lra.
Qed.

Example sample_sentiment :
  matrix_to_edge_list Sample.lower_matrix "sentiment" Sample.names
  = Ok [ Edge "bob" "alice" (Np.Fin (ln 1001 * 0.7)) (Np.Fin 2000);
         Edge "carl" "alice" (Np.Fin 0) (Np.Fin 0);
         Edge "carl" "bob" (Np.Fin (ln 501 * 0.7)) (Np.Fin 1000) ].
Proof.
  rewrite (@matrix_to_edge_list_closed _ _ _ 3 (Np.Fin 2));
    [| right; now left | apply sample_shape | simpl; lia | apply sample_amax].
  eval_positions. eval_cells.
  rewrite !div_finite by lra.
  rewrite !spec_weight_signed, !spec_color_signed by discriminate.
  replace (1000 * (2 / 2))%R with 1000%R by lra.
  replace (1000 * (0 / 2))%R with 0%R by lra.
  replace (1000 * (1 / 2))%R with 500%R by lra.
  rewrite Rabs_R0, (Rabs_pos_eq 1000), (Rabs_pos_eq 500) by lra.
  replace (1000 + 1)%R with 1001%R by lra.
  replace (500 + 1)%R with 501%R by lra.
  replace (0 + 1)%R with 1%R by lra.
  rewrite ln_1.
  replace (0 * 0.7)%R with 0%R by lra.
  replace (2000 * (2 / 2))%R with 2000%R by lra.
  replace (2000 * (0 / 2))%R with 0%R by lra.
  now replace (2000 * (1 / 2))%R with 1000%R by lra.
Qed.

(** In [bare] mode the zero cell (carl, alice) has weight 0 and is
    filtered out. *)
Example sample_bare :
  matrix_to_edge_list Sample.lower_matrix "bare" Sample.names
  = Ok [ Edge "bob" "alice" (Np.Fin (ln 1001 * 0.7)) (Np.Fin 2000);
         Edge "carl" "bob" (Np.Fin (ln 501 * 0.7)) (Np.Fin 1000) ].
Proof.
  rewrite (@matrix_to_edge_list_closed _ _ _ 3 (Np.Fin 2));
    [| right; now right | apply sample_shape | simpl; lia | apply sample_amax].
  eval_positions. unfold keeps. cbn [fst snd nth Sample.lower_matrix].
  cbn [String.eqb Ascii.eqb Bool.eqb negb orb].
  rewrite !div_finite by lra.
  rewrite !spec_weight_signed by discriminate.
  replace (1000 * (2 / 2))%R with 1000%R by lra.
  replace (1000 * (0 / 2))%R with 0%R by lra.
  replace (1000 * (1 / 2))%R with 500%R by lra.
  rewrite Rabs_R0, (Rabs_pos_eq 1000), (Rabs_pos_eq 500) by lra.
  replace (1000 + 1)%R with 1001%R by lra.
  replace (500 + 1)%R with 501%R by lra.
  replace (0 + 1)%R with 1%R by lra.
  rewrite ln_1.
  assert (H1 : (1 < ln 1001)%R) by (apply ln_above_one; lra).
  assert (H2 : (1 < ln 501)%R) by (apply ln_above_one; lra).
  rewrite (@gt_finite_true (ln 1001 * 0.7)) by lra.
  rewrite (@gt_finite_true (ln 501 * 0.7)) by lra.
  rewrite (@gt_finite_false (0 * 0.7)) by lra.
  cbn [filter]. eval_cells.
  rewrite !div_finite by lra.
  rewrite !spec_weight_signed, !spec_color_signed by discriminate.
  replace (1000 * (2 / 2))%R with 1000%R by lra.
  replace (1000 * (1 / 2))%R with 500%R by lra.
  rewrite (Rabs_pos_eq 1000), (Rabs_pos_eq 500) by lra.
  replace (1000 + 1)%R with 1001%R by lra.
  replace (500 + 1)%R with 501%R by lra.
  replace (2000 * (2 / 2))%R with 2000%R by lra.
  now replace (2000 * (1 / 2))%R with 1000%R by lra.
Qed.

(** An all-zero matrix has maximum 0: every normalised cell is
    [0/0 = nan], and so are the weights and colours. *)
Lemma all_zero_projected (matrix : list (list Np.float64)) (mode : string)
  (names : list string) (K : nat) :
  known_mode mode -> (0 < K)%nat -> is_shape K K matrix ->
  (K <= length names)%nat -> all_zero matrix ->
  matrix_to_edge_list matrix mode names
  = Ok (if (mode =? "bare")%string then []
        else map (fun p => Edge (nth (fst p) names ""%string)
                                (nth (snd p) names ""%string) Np.NaN Np.NaN)
                 (lower_positions K)).
Proof.
  intros Hmode HK Hshape Hnames Hzero.
  assert (Hmax : Np.amax (map Np.abs (concat matrix)) = Ok (Np.Fin 0)).
  { apply amax_all_zero; [now apply (square_concat_nonempty HK) |].
    now apply all_zero_concat. }
  rewrite (matrix_to_edge_list_closed names Hmode Hshape Hnames Hmax).
  f_equal. unfold projected_edges.
  assert (Hlen : length matrix = K) by apply Hshape. rewrite Hlen.
  assert (Hcell : forall p, In p (lower_positions K) ->
            Np.div (nth (snd p) (nth (fst p) matrix []) (Np.Fin 0)) (Np.Fin 0)
            = Np.NaN).
  { intros [i j] Hp. apply in_lower_positions in Hp. cbn [fst snd].
    destruct (@cell_in_shape _ matrix K K i j Hshape) as [x Hx]; try lia.
    rewrite (cell_nth _ _ _ (Np.Fin 0) Hx).
    rewrite (all_zero_cell _ _ Hzero Hx). apply div_zero_zero. }
  destruct (mode =? "bare")%string eqn:Ebare.
  - rewrite (@filter_ext_in _ _ (fun _ => false)).
    + clear. now induction (lower_positions K).
    + intros p Hp. unfold keeps. rewrite Ebare, (Hcell p Hp).
      now rewrite spec_weight_nan.
  - rewrite (@filter_ext_in _ _ (fun _ => true)).
    + rewrite forallb_filter_id by (now apply forallb_forall).
      apply map_ext_in. intros p Hp. unfold edge_of.
      now rewrite (Hcell p Hp), spec_weight_nan, spec_color_nan.
    + intros p Hp. unfold keeps. now rewrite Ebare.
Qed.

(** ** What a returned edge list holds *)

Lemma getitem_Ok {A : Type} (l : list A) (i : nat) (a : A) :
  getitem l i = Ok a -> nth_error l i = Some a.
Proof.
  unfold getitem. destruct (nth_error l i); [| discriminate]. congruence.
Qed.

Lemma getcell_map_Ok {A B : Type} (f : A -> B) (M : list (list A))
  (i j : nat) (b : B) :
  getcell (map (map f) M) i j = Ok b ->
  exists x, cell M i j = Some x /\ b = f x.
Proof.
  unfold getcell. rewrite cell_map_map.
  destruct (cell M i j) as [x |]; [| discriminate].
  cbn [option_map]. intros H. exists x. split; congruence.
Qed.

Lemma matrix_to_edge_list_emitted (matrix : list (list Np.float64))
  (mode : string) (names : list string) (edges : list edge) :
  known_mode mode ->
  matrix_to_edge_list matrix mode names = Ok edges ->
  exists max_abs,
    Np.amax (map Np.abs (concat matrix)) = Ok max_abs
    /\ Forall2 (emitted_for matrix mode names max_abs)
         (filter (kept mode
            (Some (map (map (fun x => spec_weight mode (Np.div x max_abs)))
                       matrix)))
            (lower_positions (length matrix)))
         edges.
Proof.
  intros Hmode Hok.
  rewrite (matrix_to_edge_list_known matrix names Hmode) in Hok.
  destruct (Np.amax (map Np.abs (concat matrix))) as [max_abs |];
    [| discriminate].
  cbn [bind] in Hok. exists max_abs. split; [reflexivity |].
  apply edge_loop_filter in Hok as [es [-> HF]]. cbn [app].
  eapply Forall2_impl; [| exact HF].
  intros [i j] e [Ha [Hb [Hw Hc]]]. cbn [fst snd getvar bind] in *.
  apply getitem_Ok in Ha, Hb.
  apply getcell_map_Ok in Hw as [x [Hx Hw]].
  apply getcell_map_Ok in Hc as [y [Hy Hc]].
  assert (y = x) by congruence. subst y.
  split; [exact Ha |]. split; [exact Hb |]. now exists x.
Qed.

Lemma kept_iff (matrix : list (list Np.float64)) (mode : string)
  (f : Np.float64 -> Np.float64) (i j : nat) :
  kept mode (Some (map (map f) matrix)) (i, j) = true
  <-> (mode = "bare"%string ->
       exists x, cell matrix i j = Some x
                 /\ Np.gt (f x) (Np.Fin 0.0001) = true).
Proof.
  unfold kept. cbn [fst snd]. rewrite cell_map_map.
  destruct (String.eqb_spec mode "bare") as [Hb | Hb]; cbn [negb orb].
  - destruct (cell matrix i j) as [x |]; cbn [option_map]; split.
    + intros H _. now exists x.
    + intros H. destruct (H Hb) as [y [Hy Hgt]]. congruence.
    + discriminate.
    + intros H. destruct (H Hb) as [y [Hy _]]. discriminate.
  - split; [intros _ Heq; contradiction | reflexivity].
Qed.

(** C3.  For a matrix whose maximum absolute value is non-zero, every
    emitted edge carries the transforms of [m], its cell divided by
    that maximum: in co-occurrence mode weight [ln(2000 m + 1) * 0.7]
    and colour [ln(2000 m + 1)]; in sentiment and bare mode weight
    [ln(|1000 m| + 1) * 0.7] and colour [2000 m].  [ln] is numpy's
    logarithm; on finite values it is the real logarithm wherever that
    is defined. *)
Theorem edge_weight_color_formula :
  forall (matrix : list (list Np.float64)) (mode : string)
         (name_list : list string) (edges : list edge)
         (max_abs : Np.float64),
    known_mode mode ->
    Np.amax (map Np.abs (concat matrix)) = Ok max_abs ->
    max_abs <> Np.Fin 0 ->
    matrix_to_edge_list matrix mode name_list = Ok edges ->
    forall e, In e edges ->
      exists i j x,
        (j < i < length matrix)%nat
        /\ nth_error name_list i = Some (name_a e)
        /\ nth_error name_list j = Some (name_b e)
        /\ cell matrix i j = Some x
        /\ weight e = spec_weight mode (Np.div x max_abs)
        /\ color e = spec_color mode (Np.div x max_abs)
        /\ (forall v top, x = Np.Fin v -> max_abs = Np.Fin top ->
              (mode = "co-occurrence"%string ->
               (0 < 2000 * (v / top) + 1)%R ->
               weight e = Np.Fin (ln (2000 * (v / top) + 1) * 0.7)
               /\ color e = Np.Fin (ln (2000 * (v / top) + 1)))
              /\ (mode <> "co-occurrence"%string ->
                  weight e = Np.Fin (ln (Rabs (1000 * (v / top)) + 1) * 0.7)
                  /\ color e = Np.Fin (2000 * (v / top)))).
Proof.
  intros matrix mode names edges max_abs Hmode Hmax Hnz Hok e He.
  destruct (matrix_to_edge_list_emitted _ _ Hmode Hok) as [mx [Hmx HF]].
  assert (mx = max_abs) by congruence. subst mx.
  apply In_nth_error in He as [n Hn].
  destruct (Forall2_nth_error_r _ HF Hn)
    as [[i j] [Hp [Ha [Hb [x [Hx [Hw Hc]]]]]]].
  apply nth_error_In, filter_In in Hp as [Hp _].
  apply in_lower_positions in Hp. cbn [fst snd] in *.
  exists i, j, x. repeat (split; [assumption || lia |]).
  intros v top -> ->.
  rewrite (div_by_nonzero v Hnz) in Hw, Hc. split.
  - intros -> Hpos.
    now rewrite Hw, Hc, spec_weight_co_occurrence, spec_color_co_occurrence.
  - intros Hmode'.
    now rewrite Hw, Hc, spec_weight_signed, spec_color_signed.
Qed.

Lemma edge_weight_color_formula_witness :
  exists i j x,
    (j < i < length Sample.lower_matrix)%nat
    /\ nth_error Sample.names i = Some "bob"%string
    /\ nth_error Sample.names j = Some "alice"%string
    /\ cell Sample.lower_matrix i j = Some x
    /\ Np.Fin (ln 1001 * 0.7) = spec_weight "sentiment" (Np.div x (Np.Fin 2))
    /\ Np.Fin 2000 = spec_color "sentiment" (Np.div x (Np.Fin 2))
    /\ (forall v top, x = Np.Fin v -> Np.Fin 2 = Np.Fin top ->
          ("sentiment"%string = "co-occurrence"%string ->
           (0 < 2000 * (v / top) + 1)%R ->
           Np.Fin (ln 1001 * 0.7) = Np.Fin (ln (2000 * (v / top) + 1) * 0.7)
           /\ Np.Fin 2000 = Np.Fin (ln (2000 * (v / top) + 1)))
          /\ ("sentiment"%string <> "co-occurrence"%string ->
              Np.Fin (ln 1001 * 0.7)
              = Np.Fin (ln (Rabs (1000 * (v / top)) + 1) * 0.7)
              /\ Np.Fin 2000 = Np.Fin (2000 * (v / top)))).
Proof.
  refine (@edge_weight_color_formula Sample.lower_matrix "sentiment"
            Sample.names
            [ Edge "bob" "alice" (Np.Fin (ln 1001 * 0.7)) (Np.Fin 2000);
              Edge "carl" "alice" (Np.Fin 0) (Np.Fin 0);
              Edge "carl" "bob" (Np.Fin (ln 501 * 0.7)) (Np.Fin 1000) ]
            (Np.Fin 2)
            (or_intror (or_introl eq_refl)) sample_amax _ sample_sentiment
            (Edge "bob" "alice" (Np.Fin (ln 1001 * 0.7)) (Np.Fin 2000)) _).
  - intros H. injection H. lra.
  - now left.
Defined.

Lemma amax_nonempty (cells : list Np.float64) :
  cells <> [] -> exists m, Np.amax (map Np.abs cells) = Ok m.
Proof.
  destruct cells as [| x r]; [contradiction |]. intros _.
  cbn [map Np.amax]. eauto.
Qed.

(** The transforms of a normalised value of zero are zero in every
    mode. *)
Lemma zero_transforms (mode : string) :
  spec_weight mode (Np.Fin 0) = Np.Fin 0
  /\ spec_color mode (Np.Fin 0) = Np.Fin 0.
Proof.
  destruct (String.eqb_spec mode "co-occurrence") as [-> | Hmode].
  - rewrite spec_weight_co_occurrence, spec_color_co_occurrence by lra.
    replace (2000 * 0 + 1)%R with 1%R by lra. rewrite ln_1.
    split; f_equal; lra.
  - rewrite spec_weight_signed, spec_color_signed by assumption.
    replace (1000 * 0)%R with 0%R by lra. rewrite Rabs_R0.
    replace (0 + 1)%R with 1%R by lra. rewrite ln_1.
    split; f_equal; lra.
Qed.

(** C4, as the code behaves.  The projector returns on every square
    matrix with enough names, and a returned edge list has one edge per
    kept position, in order.  In co-occurrence and sentiment mode every
    position [j < i] below the diagonal is kept, whatever its cell
    holds; in bare mode exactly the positions whose transformed weight
    exceeds 0.0001 are kept.  No other position yields an edge.
    Outside bare mode the edge of a zero cell has weight 0 and colour 0
    when the maximum absolute value of the matrix is neither zero nor
    [nan], and weight [nan] and colour [nan] when it is. *)
Theorem edge_list_pairs :
  forall (matrix : list (list Np.float64)) (mode : string)
         (name_list : list string),
    known_mode mode ->
    (forall K, (0 < K)%nat -> is_shape K K matrix ->
       (K <= length name_list)%nat ->
       exists edges, matrix_to_edge_list matrix mode name_list = Ok edges)
    /\ (forall edges,
          matrix_to_edge_list matrix mode name_list = Ok edges ->
          exists max_abs locs,
            Np.amax (map Np.abs (concat matrix)) = Ok max_abs
            /\ Forall2 (emitted_for matrix mode name_list max_abs) locs edges
            /\ NoDup locs
            /\ forall i j, In (i, j) locs <->
                 ((j < i < length matrix)%nat
                  /\ (mode = "bare"%string ->
                      exists x, cell matrix i j = Some x
                        /\ Np.gt (spec_weight mode (Np.div x max_abs))
                                 (Np.Fin 0.0001) = true)))
    /\ (forall edges i j,
          matrix_to_edge_list matrix mode name_list = Ok edges ->
          mode <> "bare"%string -> (j < i < length matrix)%nat ->
          cell matrix i j = Some (Np.Fin 0) ->
          exists max_abs e,
            Np.amax (map Np.abs (concat matrix)) = Ok max_abs
            /\ In e edges
            /\ nth_error name_list i = Some (name_a e)
            /\ nth_error name_list j = Some (name_b e)
            /\ (max_abs = Np.PInf
                \/ (exists top, max_abs = Np.Fin top /\ top <> 0%R) ->
                weight e = Np.Fin 0 /\ color e = Np.Fin 0)
            /\ (max_abs = Np.Fin 0 \/ max_abs = Np.NaN ->
                weight e = Np.NaN /\ color e = Np.NaN)).
Proof.
  intros matrix mode names Hmode. split; [| split].
  - intros K HK Hshape Hnames.
    destruct (amax_nonempty (square_concat_nonempty HK Hshape)) as [m Hm].
    rewrite (matrix_to_edge_list_closed names Hmode Hshape Hnames Hm).
    eauto.
  - intros edges Hok.
    destruct (matrix_to_edge_list_emitted _ _ Hmode Hok) as [mx [Hmx HF]].
    exists mx. eexists. split; [exact Hmx |]. split; [exact HF |].
    split; [apply NoDup_filter, NoDup_lower_positions |].
    intros i j. rewrite filter_In, in_lower_positions.
    now rewrite (kept_iff matrix mode
                   (fun x => spec_weight mode (Np.div x mx)) i j).
  - intros edges i j Hok Hbare Hij Hcell.
    destruct (matrix_to_edge_list_emitted _ _ Hmode Hok) as [mx [Hmx HF]].
    assert (Hin : In (i, j)
              (filter (kept mode
                 (Some (map (map (fun x => spec_weight mode (Np.div x mx)))
                            matrix)))
                 (lower_positions (length matrix)))).
    { apply filter_In. split; [now apply in_lower_positions |].
      apply (kept_iff matrix mode
               (fun x => spec_weight mode (Np.div x mx)) i j).
      intros Hb. contradiction. }
    apply In_nth_error in Hin as [n Hn].
    destruct (Forall2_nth_error_l _ HF Hn)
      as [e [He [Ha [Hb [x [Hx [Hw Hc]]]]]]].
    cbn [fst snd] in Ha, Hb, Hx.
    rewrite Hcell in Hx. injection Hx as <-.
    exists mx, e. split; [exact Hmx |].
    split; [eapply nth_error_In; exact He |].
    split; [exact Ha |]. split; [exact Hb |].
    rewrite Hw, Hc. split.
    + intros [-> | [top [-> Htop]]].
      * cbn [Np.div]. apply zero_transforms.
      * rewrite div_by_nonzero by congruence.
        replace (0 / top)%R with 0%R by (unfold Rdiv; lra).
        apply zero_transforms.
    + intros [-> | ->].
      * rewrite div_zero_zero. split;
          [apply spec_weight_nan | apply spec_color_nan].
      * rewrite div_nan_r. split;
          [apply spec_weight_nan | apply spec_color_nan].
Qed.

Lemma edge_list_pairs_witness :
  exists max_abs locs,
    Np.amax (map Np.abs (concat Sample.lower_matrix)) = Ok max_abs
    /\ Forall2 (emitted_for Sample.lower_matrix "bare" Sample.names max_abs)
         locs
         [ Edge "bob" "alice" (Np.Fin (ln 1001 * 0.7)) (Np.Fin 2000);
           Edge "carl" "bob" (Np.Fin (ln 501 * 0.7)) (Np.Fin 1000) ]
    /\ NoDup locs
    /\ forall i j, In (i, j) locs <->
         ((j < i < length Sample.lower_matrix)%nat
          /\ ("bare"%string = "bare"%string ->
              exists x, cell Sample.lower_matrix i j = Some x
                /\ Np.gt (spec_weight "bare" (Np.div x max_abs))
                         (Np.Fin 0.0001) = true)).
Proof.
  apply (proj1 (proj2 (@edge_list_pairs Sample.lower_matrix "bare"
                         Sample.names (or_intror (or_intror eq_refl))))).
  exact sample_bare.
Defined.

(** C4, counterexample: in co-occurrence mode the cell (carl, alice)
    is zero and its edge is emitted all the same, with weight and
    colour 0. *)
Lemma zero_cell_edge_counterexample :
  cell Sample.lower_matrix 2 0 = Some (Np.Fin 0)
  /\ nth_error Sample.names 2 = Some "carl"%string
  /\ nth_error Sample.names 0 = Some "alice"%string
  /\ matrix_to_edge_list Sample.lower_matrix "co-occurrence" Sample.names
     = Ok [ Edge "bob" "alice" (Np.Fin (ln 2001 * 0.7)) (Np.Fin (ln 2001));
            Edge "carl" "alice" (Np.Fin 0) (Np.Fin 0);
            Edge "carl" "bob" (Np.Fin (ln 1001 * 0.7)) (Np.Fin (ln 1001)) ].
Proof.
  repeat split. exact sample_co_occurrence.
Qed.

(** C5, as the code behaves.  On an all-zero K x K matrix, K >= 1, the
    projector raises nothing: the normalisation is numpy's [0/0 = nan].
    In co-occurrence and sentiment mode it returns the K(K-1)/2 edges
    with weight and colour [nan]; in bare mode the filter rejects every
    [nan] weight and the list is empty. *)
Theorem all_zero_matrix_projection :
  forall (matrix : list (list Np.float64)) (mode : string)
         (name_list : list string) (K : nat),
    known_mode mode -> (0 < K)%nat -> is_shape K K matrix ->
    (K <= length name_list)%nat -> all_zero matrix ->
    exists edges,
      matrix_to_edge_list matrix mode name_list = Ok edges
      /\ (forall e, In e edges -> weight e = Np.NaN /\ color e = Np.NaN)
      /\ (2 * length edges
          = if (mode =? "bare")%string then 0 else K * (K - 1))%nat.
Proof.
  intros matrix mode names K Hmode HK Hshape Hnames Hzero.
  rewrite (all_zero_projected names Hmode HK Hshape Hnames Hzero).
  eexists. split; [reflexivity |].
  destruct (mode =? "bare")%string.
  - split; [intros e [] | reflexivity].
  - split.
    + intros e He. apply in_map_iff in He as [p [<- _]]. now split.
    + rewrite length_map. apply length_lower_positions.
Qed.

Lemma all_zero_matrix_projection_witness :
  exists edges,
    matrix_to_edge_list Sample.zero_matrix "sentiment" Sample.names = Ok edges
    /\ (forall e, In e edges -> weight e = Np.NaN /\ color e = Np.NaN)
    /\ (2 * length edges = 2 * (2 - 1))%nat.
Proof.
  apply (@all_zero_matrix_projection Sample.zero_matrix "sentiment"
           Sample.names 2).
  - right. now left.
  - lia.
  - exact zero_matrix_shape.
  - simpl. lia.
  - exact zero_matrix_all_zero.
Defined.

(** C5, counterexample: the all-zero 2 x 2 matrix is projected without
    an exception, to one [nan] edge in co-occurrence mode and to no
    edge in bare mode. *)
Lemma all_zero_matrix_counterexample :
  matrix_to_edge_list Sample.zero_matrix "co-occurrence" Sample.names
  = Ok [ Edge "bob" "alice" Np.NaN Np.NaN ]
  /\ matrix_to_edge_list Sample.zero_matrix "bare" Sample.names = Ok []
  /\ ~ raises (matrix_to_edge_list Sample.zero_matrix "co-occurrence"
                 Sample.names).
Proof.
  assert (H1 : matrix_to_edge_list Sample.zero_matrix "co-occurrence"
                 Sample.names
               = Ok [ Edge "bob" "alice" Np.NaN Np.NaN ]).
  { rewrite (@all_zero_projected _ _ _ 2);
      [reflexivity | now left | lia | exact zero_matrix_shape
       | simpl; lia | exact zero_matrix_all_zero]. }
  split; [exact H1 |]. split.
  - rewrite (@all_zero_projected _ _ _ 2);
      [reflexivity | right; now right | lia | exact zero_matrix_shape
       | simpl; lia | exact zero_matrix_all_zero].
  - intros [e He]. rewrite H1 in He. discriminate.
Qed.

(** C10.  Every edge the projector emits joins the names at two
    vocabulary indices [i > j]; over a duplicate-free vocabulary the
    two names differ (no self-loop) and no unordered pair of names is
    emitted twice.  This holds for every matrix and every mode string. *)
Theorem edges_join_distinct_names :
  forall (matrix : list (list Np.float64)) (mode : string)
         (name_list : list string) (edges : list edge),
    matrix_to_edge_list matrix mode name_list = Ok edges ->
    (forall e, In e edges ->
       exists i j, (j < i < length matrix)%nat
                   /\ nth_error name_list i = Some (name_a e)
                   /\ nth_error name_list j = Some (name_b e))
    /\ (NoDup name_list ->
        (forall e, In e edges -> name_a e <> name_b e)
        /\ (forall a b e1 e2, (a < b)%nat ->
              nth_error edges a = Some e1 -> nth_error edges b = Some e2 ->
              ~ (name_a e1 = name_a e2 /\ name_b e1 = name_b e2)
              /\ ~ (name_a e1 = name_b e2 /\ name_b e1 = name_a e2))).
Proof.
  intros matrix mode names edges Hok.
  apply matrix_to_edge_list_loop in Hok as [W [C Hloop]].
  apply edge_loop_filter in Hloop as [es [-> HF]]. cbn [app].
  set (locs := filter (kept mode W) (lower_positions (length matrix))) in *.
  assert (Hlocs : forall p, In p locs ->
            (snd p < fst p < length matrix)%nat).
  { intros [i j] Hp. apply filter_In in Hp as [Hp _].
    now apply in_lower_positions. }
  assert (Hnd_locs : NoDup locs)
    by (apply NoDup_filter, NoDup_lower_positions).
  assert (Hat : forall n e, nth_error es n = Some e ->
            exists i j, nth_error locs n = Some (i, j)
              /\ (j < i < length matrix)%nat
              /\ nth_error names i = Some (name_a e)
              /\ nth_error names j = Some (name_b e)).
  { intros n e Hn.
    destruct (Forall2_nth_error_r _ HF Hn) as [[i j] [Hp [Ha [Hb _]]]].
    exists i, j. split; [exact Hp |].
    split; [apply (Hlocs (i, j)); now apply nth_error_In with n |].
    cbn [fst snd] in *. unfold getitem in *.
    destruct (nth_error names i); [| discriminate].
    destruct (nth_error names j); [| discriminate].
    split; congruence. }
  split.
  { intros e He. apply In_nth_error in He as [n Hn].
    destruct (Hat n e Hn) as [i [j [_ [Hij [Ha Hb]]]]].
    exists i, j. now repeat split. }
  intros Hnd.
  assert (Hinj : forall i j s, nth_error names i = Some s ->
            nth_error names j = Some s -> i = j).
  { intros i j s Hi Hj.
    apply (proj1 (NoDup_nth_error names) Hnd).
    - apply nth_error_Some. congruence.
    - congruence. }
  split.
  - intros e He. apply In_nth_error in He as [n Hn].
    destruct (Hat n e Hn) as [i [j [_ [Hij [Ha Hb]]]]].
    intros Heq. rewrite <- Heq in Hb.
    assert (i = j) by (eapply Hinj; eassumption). lia.
  - intros a b e1 e2 Hab H1 H2.
    destruct (Hat a e1 H1) as [i1 [j1 [Hp1 [Hij1 [Ha1 Hb1]]]]].
    destruct (Hat b e2 H2) as [i2 [j2 [Hp2 [Hij2 [Ha2 Hb2]]]]].
    split; intros [Hx Hy].
    + rewrite Hx in Ha1. rewrite Hy in Hb1.
      assert (i1 = i2) by (eapply Hinj; eassumption).
      assert (j1 = j2) by (eapply Hinj; eassumption).
      subst i2 j2.
      assert (a = b).
      { apply (proj1 (NoDup_nth_error locs) Hnd_locs).
        - apply nth_error_Some. congruence.
        - congruence. }
      lia.
    + rewrite Hx in Ha1. rewrite Hy in Hb1.
      assert (i1 = j2) by (eapply Hinj; eassumption).
      assert (j1 = i2) by (eapply Hinj; eassumption).
      lia.
Qed.

Lemma sample_names_NoDup : NoDup Sample.names.
Proof.
  repeat constructor; simpl; intros H;
    repeat (destruct H as [H | H]; [discriminate |]); exact H.
Qed.

Lemma edges_join_distinct_names_witness :
  let edges :=
    [ Edge "bob" "alice" (Np.Fin (ln 1001 * 0.7)) (Np.Fin 2000);
      Edge "carl" "alice" (Np.Fin 0) (Np.Fin 0);
      Edge "carl" "bob" (Np.Fin (ln 501 * 0.7)) (Np.Fin 1000) ] in
  (forall e, In e edges -> name_a e <> name_b e)
  /\ (forall a b e1 e2, (a < b)%nat ->
        nth_error edges a = Some e1 -> nth_error edges b = Some e2 ->
        ~ (name_a e1 = name_a e2 /\ name_b e1 = name_b e2)
        /\ ~ (name_a e1 = name_b e2 /\ name_b e1 = name_a e2)).
Proof.
  exact (proj2 (edges_join_distinct_names Sample.lower_matrix "sentiment"
                  Sample.names sample_sentiment) sample_names_NoDup).
Defined.

(** ** Arrays: zips, transposes and products *)

Lemma nth_error_zip_with {A B C : Type} (f : A -> B -> C)
  (l : list A) (m : list B) (n : nat) :
  nth_error (zip_with f l m) n
  = match nth_error l n, nth_error m n with
    | Some a, Some b => Some (f a b)
    | _, _ => None
    end.
Proof.
  revert m n. induction l as [| a l IH]; intros m n.
  - now destruct n.
  - destruct m as [| b m].
    + destruct n; simpl; [reflexivity |]. now destruct (nth_error l n).
    + destruct n; simpl; [reflexivity | apply IH].
Qed.

Lemma length_zip_with {A B C : Type} (f : A -> B -> C)
  (l : list A) (m : list B) :
  length (zip_with f l m) = Nat.min (length l) (length m).
Proof.
  revert m. induction l as [| a l IH]; intros [| b m]; simpl; auto.
Qed.

Lemma zip_with_map {A B C D : Type} (h : B -> C -> D) (f : A -> B)
  (g : A -> C) (l : list A) :
  zip_with h (map f l) (map g l) = map (fun a => h (f a) (g a)) l.
Proof. induction l as [| a l IH]; simpl; [reflexivity | now rewrite IH]. Qed.

Lemma nth_map_default {A B : Type} (g : A -> B) (l : list A) (n : nat)
  (d : B) :
  nth n (map g l) d
  = match nth_error l n with Some a => g a | None => d end.
Proof.
  revert n. induction l as [| a l IH]; intros [| n]; simpl; auto.
Qed.

Lemma map_nth_seq_id {A : Type} (l : list A) (d : A) :
  map (fun n => nth n l d) (seq 0 (length l)) = l.
Proof.
  induction l as [| a l IH]; [reflexivity |].
  simpl. f_equal. rewrite <- seq_shift, map_map. exact IH.
Qed.

Lemma nth_error_map_seq {B : Type} (f : nat -> B) (n i : nat) :
  (i < n)%nat -> nth_error (map f (seq 0 n)) i = Some (f i).
Proof.
  intros H. rewrite nth_error_map, nth_error_seq.
  apply Nat.ltb_lt in H. now rewrite H.
Qed.

Lemma nth_error_transpose {T : Type} (zero : T) (ncols : nat)
  (M : list (list T)) (i : nat) :
  (i < ncols)%nat ->
  nth_error (transpose zero ncols M) i
  = Some (map (fun row => nth i row zero) M).
Proof. intros H. unfold transpose. now rewrite nth_error_map_seq. Qed.

Lemma length_transpose {T : Type} (zero : T) (ncols : nat)
  (M : list (list T)) :
  length (transpose zero ncols M) = ncols.
Proof. unfold transpose. now rewrite length_map, length_seq. Qed.

(** The column of a transpose is the row it came from. *)
Lemma column_transpose {T : Type} (zero : T) (M : list (list T))
  (n j : nat) (row : list T) :
  nth_error M j = Some row -> length row = n ->
  column zero j (transpose zero n M) = row.
Proof.
  intros Hj Hlen. unfold column, transpose. rewrite map_map.
  transitivity (map (fun k => nth k row zero) (seq 0 (length row)));
    [| apply map_nth_seq_id].
  rewrite Hlen. apply map_ext. intros k.
  now rewrite nth_map_default, Hj.
Qed.

Lemma cell_dot {T : Type} (zero : T) (add mul : T -> T -> T)
  (A B : list (list T)) (ncols i j : nat) (u : list T) :
  nth_error A i = Some u -> (j < ncols)%nat ->
  cell (dot zero add mul A B ncols) i j
  = Some (inner zero add mul u (column zero j B)).
Proof.
  intros Hu Hj. unfold cell, dot. rewrite nth_error_map, Hu.
  cbn [option_map]. now rewrite nth_error_map_seq.
Qed.

Lemma dot_shape {T : Type} (zero : T) (add mul : T -> T -> T)
  (A B : list (list T)) (ncols : nat) :
  is_shape (length A) ncols (dot zero add mul A B ncols).
Proof.
  unfold dot. split; [apply length_map |].
  apply Forall_map, Forall_forall. intros u _.
  now rewrite length_map, length_seq.
Qed.

Lemma inner_map {A T : Type} (zero : T) (add mul : T -> T -> T)
  (f g : A -> T) (l : list A) :
  inner zero add mul (map f l) (map g l)
  = fold_right add zero (map (fun a => mul (f a) (g a)) l).
Proof. unfold inner. now rewrite zip_with_map. Qed.

Lemma cell_zip_with {A B C : Type} (f : A -> B -> C)
  (M : list (list A)) (N : list (list B)) (i j : nat) (a : A) (b : B) :
  cell M i j = Some a -> cell N i j = Some b ->
  cell (zip_with (zip_with f) M N) i j = Some (f a b).
Proof.
  unfold cell. intros Ha Hb. rewrite nth_error_zip_with.
  destruct (nth_error M i) as [u |]; [| discriminate].
  destruct (nth_error N i) as [v |]; [| discriminate].
  now rewrite nth_error_zip_with, Ha, Hb.
Qed.

Lemma zip_with_shape {A B C : Type} (f : A -> B -> C)
  (M : list (list A)) (N : list (list B)) (r c : nat) :
  is_shape r c M -> is_shape r c N ->
  is_shape r c (zip_with (zip_with f) M N).
Proof.
  intros [HM HMr] [HN HNr]. split.
  - rewrite length_zip_with. lia.
  - apply Forall_forall. intros row Hrow.
    apply In_nth_error in Hrow as [n Hn].
    rewrite nth_error_zip_with in Hn.
    destruct (nth_error M n) as [u |] eqn:Eu; [| discriminate].
    destruct (nth_error N n) as [v |] eqn:Ev; [| discriminate].
    injection Hn as <-. rewrite length_zip_with.
    rewrite Forall_forall in HMr, HNr.
    rewrite (HMr u), (HNr v); [lia | |]; now eapply nth_error_In; eauto.
Qed.

Lemma cell_mapi2 {T : Type} (f : nat -> nat -> T -> T)
  (M : list (list T)) (i j : nat) :
  cell (mapi (fun i row => mapi (fun j x => f i j x) row) M) i j
  = option_map (f i j) (cell M i j).
Proof.
  unfold cell. rewrite nth_error_mapi.
  destruct (nth_error M i) as [row |]; [| reflexivity].
  cbn [option_map]. apply nth_error_mapi.
Qed.

Lemma mapi2_shape {T : Type} (f : nat -> nat -> T -> T)
  (M : list (list T)) (r c : nat) :
  is_shape r c M ->
  is_shape r c (mapi (fun i row => mapi (fun j x => f i j x) row) M).
Proof.
  intros [HM HMr]. unfold mapi. split; [now rewrite length_mapi_from |].
  apply Forall_forall. intros row Hrow.
  apply In_nth_error in Hrow as [n Hn].
  rewrite nth_error_mapi_from in Hn.
  destruct (nth_error M n) as [u |] eqn:Eu; [| discriminate].
  injection Hn as <-. rewrite length_mapi_from.
  rewrite Forall_forall in HMr. apply HMr. now eapply nth_error_In; eauto.
Qed.

Lemma cell_tril {T : Type} (zero : T) (M : list (list T)) (i j : nat) :
  cell (tril zero M) i j
  = option_map (fun x => if (j <=? i)%nat then x else zero) (cell M i j).
Proof.
  unfold tril.
  apply (cell_mapi2 (fun i j x => if (j <=? i)%nat then x else zero)).
Qed.

Lemma cell_zero_diagonal {T : Type} (zero : T) (M : list (list T))
  (i j : nat) :
  cell (zero_diagonal zero M) i j
  = option_map (fun x => if (i =? j)%nat then zero else x) (cell M i j).
Proof.
  unfold zero_diagonal.
  apply (cell_mapi2 (fun i j x => if (i =? j)%nat then zero else x)).
Qed.

(** After [np.tril] and the zeroed diagonal, a cell keeps its value
    below the diagonal and is zero elsewhere. *)
Lemma cell_lower {T : Type} (zero : T) (M : list (list T)) (i j : nat) :
  cell (zero_diagonal zero (tril zero M)) i j
  = option_map (fun x => if (j <? i)%nat then x else zero) (cell M i j).
Proof.
  rewrite cell_zero_diagonal, cell_tril.
  destruct (cell M i j) as [x |]; [| reflexivity]. cbn [option_map].
  destruct (Nat.eqb_spec i j), (Nat.leb_spec j i), (Nat.ltb_spec j i);
    try reflexivity; lia.
Qed.

Lemma lower_shape {T : Type} (zero : T) (M : list (list T)) (r c : nat) :
  is_shape r c M -> is_shape r c (zero_diagonal zero (tril zero M)).
Proof.
  intros H. unfold zero_diagonal, tril.
  apply (mapi2_shape (fun i j x => if (i =? j)%nat then zero else x)).
  now apply (mapi2_shape (fun i j x => if (j <=? i)%nat then x else zero)).
Qed.

(** ** The matrix builder *)

Lemma has_duplicate_NoDup (l : list string) :
  has_duplicate l = false <-> NoDup l.
Proof.
  induction l as [| x r IH]; simpl.
  - split; [constructor | reflexivity].
  - rewrite orb_false_iff, IH. split.
    + intros [Hx Hr]. constructor; [| exact Hr].
      intros Hin.
      assert (existsb (String.eqb x) r = true).
      { apply existsb_exists. exists x. split; [exact Hin | apply String.eqb_refl]. }
      congruence.
    + intros H. inversion H as [| ? ? Hx Hr]; subst. split; [| exact Hr].
      destruct (existsb (String.eqb x) r) eqn:E; [| reflexivity].
      apply existsb_exists in E as [y [Hy E]].
      apply String.eqb_eq in E. subst y. contradiction.
Qed.

Lemma validate_vocabulary_Ok (names : list string) :
  validate_vocabulary names = Ok tt <-> (names <> [] /\ NoDup names).
Proof.
  unfold validate_vocabulary.
  destruct (has_duplicate names) eqn:E.
  - split; [discriminate |]. intros [_ H].
    apply has_duplicate_NoDup in H. congruence.
  - apply has_duplicate_NoDup in E.
    destruct names; split; try discriminate; try tauto.
    intros _. split; [discriminate | exact E].
Qed.

Lemma min_one_count (features : list string) (term : string) :
  Z.min 1 (term_count features term)
  = if existsb (String.eqb term) features then 1%Z else 0%Z.
Proof.
  unfold term_count.
  destruct (existsb (String.eqb term) features) eqn:E.
  - apply existsb_exists in E as [y [Hy E]].
    apply String.eqb_eq in E. subst y.
    apply (count_occ_In string_dec) in Hy. lia.
  - assert (Hn : ~ In term features).
    { intros Hin.
      assert (existsb (String.eqb term) features = true).
      { apply existsb_exists. exists term. split; [exact Hin | apply String.eqb_refl]. }
      congruence. }
    apply (count_occ_not_In string_dec) in Hn. rewrite Hn. reflexivity.
Qed.

Section MatrixBuilder.

Variable afinn_score : string -> R.
Variable analyze : option string -> string -> list string.
Variable names : list string.

Lemma occurrence_cell (i : nat) (sentence : string) :
  nth i (map (fun term => Z.min 1 (term_count (analyze None sentence) term))
             names) 0%Z
  = presence analyze names i sentence.
Proof.
  unfold presence, presence_vector. rewrite !nth_map_default.
  destruct (nth_error names i) as [name |]; [| reflexivity].
  apply min_one_count.
Qed.

Lemma occurrence_column (i : nat) (sentence_list : list string) :
  map (fun row => nth i row 0%Z)
      (occurrence_rows analyze names sentence_list)
  = map (presence analyze names i) sentence_list.
Proof.
  unfold occurrence_rows. rewrite map_map. apply map_ext.
  intros d. apply occurrence_cell.
Qed.

Lemma raw_cooccurrence_shape (sentence_list : list string) :
  is_shape (length names) (length names)
           (raw_cooccurrence analyze names sentence_list).
Proof.
  unfold raw_cooccurrence.
  rewrite <- (length_transpose 0%Z (length names)
                (occurrence_rows analyze names sentence_list)) at 1.
  apply dot_shape.
Qed.

Lemma raw_sentiment_shape (sentence_list : list string) :
  is_shape (length names) (length names)
           (raw_sentiment afinn_score analyze names sentence_list).
Proof.
  unfold raw_sentiment.
  set (A := map (map IZR) _).
  assert (HA : length A = length names).
  { unfold A. now rewrite length_map, length_transpose. }
  rewrite <- HA at 1. apply dot_shape.
Qed.

Lemma raw_cooccurrence_cell (sentence_list : list string) (i j : nat) :
  (i < length names)%nat -> (j < length names)%nat ->
  cell (raw_cooccurrence analyze names sentence_list) i j
  = Some (fold_right Z.add 0%Z
            (map (fun d => (presence analyze names i d
                            * presence analyze names j d)%Z)
                 sentence_list)).
Proof.
  intros Hi Hj. unfold raw_cooccurrence.
  rewrite (@cell_dot _ _ _ _ _ _ _ _ _
             (map (presence analyze names i) sentence_list));
    [| rewrite nth_error_transpose by assumption;
       now rewrite occurrence_column | assumption].
  unfold column. rewrite occurrence_column. now rewrite inner_map.
Qed.

Lemma raw_sentiment_cell (sentence_list : list string) (i j : nat) :
  (i < length names)%nat -> (j < length names)%nat ->
  cell (raw_sentiment afinn_score analyze names sentence_list) i j
  = Some (fold_right Rplus 0%R
            (map (fun d => (IZR (presence analyze names i d)
                            * (IZR (presence analyze names j d)
                               * afinn_score d))%R)
                 sentence_list)).
Proof.
  intros Hi Hj. unfold raw_sentiment.
  set (occ := occurrence_rows analyze names sentence_list).
  set (scored := map (fun row => zip_with _ row _)
                     (transpose 0%Z (length names) occ)).
  assert (Hrow : nth_error scored j
                 = Some (map (fun d => (IZR (presence analyze names j d)
                                        * afinn_score d)%R) sentence_list)).
  { unfold scored. rewrite nth_error_map, nth_error_transpose by assumption.
    cbn [option_map]. unfold occ. rewrite occurrence_column.
    now rewrite zip_with_map. }
  rewrite (@cell_dot _ _ _ _ _ _ _ _ _
             (map (fun d => IZR (presence analyze names i d)) sentence_list));
    [| rewrite nth_error_map, nth_error_transpose by assumption;
       cbn [option_map]; unfold occ; rewrite occurrence_column;
       now rewrite map_map | assumption].
  rewrite (@column_transpose _ 0%R scored (length sentence_list) j _ Hrow)
    by (now rewrite length_map).
  now rewrite inner_map.
Qed.

(** The sums of the products count, and add up the scores of, the
    sentences that mention both names. *)
Lemma presence_products (i j : nat) (sentence_list : list string) :
  fold_right Z.add 0%Z
    (map (fun d => (presence analyze names i d
                    * presence analyze names j d)%Z) sentence_list)
  = Z.of_nat (length (filter (mentions_both analyze names i j)
                             sentence_list)).
Proof.
  induction sentence_list as [| d r IH]; [reflexivity |].
  cbn [map fold_right filter]. rewrite IH.
  unfold presence, mentions_both.
  destruct (nth i (presence_vector analyze names d) false),
           (nth j (presence_vector analyze names d) false);
    cbn [andb length]; lia.
Qed.

Lemma scored_products (i j : nat) (sentence_list : list string) :
  fold_right Rplus 0%R
    (map (fun d => (IZR (presence analyze names i d)
                    * (IZR (presence analyze names j d) * afinn_score d))%R)
         sentence_list)
  = Np.sum (map afinn_score
              (filter (mentions_both analyze names i j) sentence_list)).
Proof.
  unfold Np.sum.
  induction sentence_list as [| d r IH]; [reflexivity |].
  cbn [map fold_right filter]. rewrite IH.
  unfold presence, mentions_both.
  destruct (nth i (presence_vector analyze names d) false),
           (nth j (presence_vector analyze names d) false);
    cbn [andb map fold_right]; lra.
Qed.

(** The builder, once the vocabulary has passed the vectorizer. *)
Lemma calculate_matrix_form (sentence_list : list string)
  (align_rate : Np.float64) :
  calculate_matrix afinn_score analyze names sentence_list align_rate
  = (_ <- validate_vocabulary names ;;
     Ok (zero_diagonal 0%Z
           (tril 0%Z (raw_cooccurrence analyze names sentence_list)),
         zero_diagonal (Np.Fin 0)
           (tril (Np.Fin 0)
              (zip_with
                 (zip_with (fun s c =>
                    Np.add (Np.Fin s) (Np.mul align_rate (Np.of_int c))))
                 (raw_sentiment afinn_score analyze names sentence_list)
                 (raw_cooccurrence analyze names sentence_list))))).
Proof.
  unfold calculate_matrix, fit_transform.
  now destruct (validate_vocabulary names).
Qed.

End MatrixBuilder.

(** C1.  Below the diagonal, [C[i,j]] is the number of sentences whose
    presence vector contains both name [i] and name [j], and [S[i,j]]
    is the sum of the sentiment scores of those sentences plus
    [align_rate * C[i,j]]. *)
Theorem calculate_matrix_cells :
  forall (afinn_score : string -> R)
         (analyze : option string -> string -> list string)
         (name_list sentence_list : list string)
         (align_rate : Np.float64) (i j : nat),
    NoDup name_list -> (j < i < length name_list)%nat ->
    exists C S,
      calculate_matrix afinn_score analyze name_list sentence_list align_rate
      = Ok (C, S)
      /\ cell C i j
         = Some (Z.of_nat
                   (length (filter (mentions_both analyze name_list i j)
                                   sentence_list)))
      /\ cell S i j
         = Some (Np.add
                   (Np.Fin (Np.sum
                      (map afinn_score
                         (filter (mentions_both analyze name_list i j)
                                 sentence_list))))
                   (Np.mul align_rate
                      (Np.of_int
                         (Z.of_nat
                            (length (filter (mentions_both analyze name_list i j)
                                            sentence_list))))))
      /\ (forall a, align_rate = Np.Fin a ->
            cell S i j
            = Some (Np.Fin
                      (Np.sum
                         (map afinn_score
                            (filter (mentions_both analyze name_list i j)
                                    sentence_list))
                       + a * INR (length
                                    (filter (mentions_both analyze name_list i j)
                                            sentence_list))))).
Proof.
  intros afinn_score analyze names sl align i j Hnd Hij.
  rewrite calculate_matrix_form.
  assert (Hvalid : validate_vocabulary names = Ok tt).
  { apply validate_vocabulary_Ok. split; [| exact Hnd].
    intros ->. simpl in Hij. lia. }
  rewrite Hvalid. cbn [bind]. do 2 eexists. split; [reflexivity |].
  assert (HC : cell (raw_cooccurrence analyze names sl) i j
               = Some (Z.of_nat (length (filter (mentions_both analyze names i j) sl)))).
  { rewrite raw_cooccurrence_cell by lia. now rewrite presence_products. }
  assert (HS : cell (raw_sentiment afinn_score analyze names sl) i j
               = Some (Np.sum (map afinn_score
                         (filter (mentions_both analyze names i j) sl)))).
  { rewrite raw_sentiment_cell by lia. now rewrite scored_products. }
  assert (Hlt : (j <? i)%nat = true) by (apply Nat.ltb_lt; lia).
  rewrite !cell_lower.
  rewrite (cell_zip_with _ _ _ _ _ HS HC), HC. cbn [option_map].
  rewrite Hlt. repeat split.
  intros a ->. cbn [Np.mul Np.add Np.of_int].
  now rewrite <- INR_IZR_INZ.
Qed.

Lemma sample_pair_NoDup : NoDup Sample.pair.
Proof.
  repeat constructor; simpl; intros H;
    repeat (destruct H as [H | H]; [discriminate |]); exact H.
Qed.

Lemma calculate_matrix_cells_witness :
  exists C S,
    calculate_matrix Sample.score Sample.analyze Sample.pair Sample.sentences
      (Np.Fin 1)
    = Ok (C, S)
    /\ cell C 1 0 = Some 2%Z
    /\ cell S 1 0
       = Some (Np.add (Np.Fin (Np.sum [2; -1]%R))
                      (Np.mul (Np.Fin 1) (Np.of_int 2)))
    /\ (forall a, Np.Fin 1 = Np.Fin a ->
          cell S 1 0 = Some (Np.Fin (Np.sum [2; -1]%R + a * INR 2))).
Proof.
  refine (@calculate_matrix_cells Sample.score Sample.analyze Sample.pair
            Sample.sentences (Np.Fin 1) 1 0 sample_pair_NoDup _).
  simpl. lia.
Defined.

(** C2.  Both matrices the builder returns are K x K, with a zero
    diagonal and zeros above it; the builder does return on every
    non-empty duplicate-free vocabulary. *)
Theorem calculate_matrix_lower_triangular :
  forall (afinn_score : string -> R)
         (analyze : option string -> string -> list string)
         (name_list sentence_list : list string)
         (align_rate : Np.float64),
    (name_list <> [] -> NoDup name_list ->
     exists C S,
       calculate_matrix afinn_score analyze name_list sentence_list align_rate
       = Ok (C, S))
    /\ (forall C S,
          calculate_matrix afinn_score analyze name_list sentence_list
            align_rate = Ok (C, S) ->
          is_shape (length name_list) (length name_list) C
          /\ is_shape (length name_list) (length name_list) S
          /\ forall i j, (i < length name_list)%nat ->
               (j < length name_list)%nat -> (i <= j)%nat ->
               cell C i j = Some 0%Z /\ cell S i j = Some (Np.Fin 0)).
Proof.
  intros afinn_score analyze names sl align. split.
  - intros Hne Hnd. rewrite calculate_matrix_form.
    rewrite (proj2 (validate_vocabulary_Ok names) (conj Hne Hnd)).
    cbn [bind]. eauto.
  - intros C S. rewrite calculate_matrix_form.
    destruct (validate_vocabulary names); [| discriminate].
    cbn [bind]. intros H. injection H as <- <-.
    pose proof (raw_cooccurrence_shape analyze names sl) as HC.
    pose proof (raw_sentiment_shape afinn_score analyze names sl) as HS.
    set (S1 := zip_with _ _ _).
    assert (HS1 : is_shape (length names) (length names) S1)
      by (now apply zip_with_shape).
    split; [now apply lower_shape |]. split; [now apply lower_shape |].
    intros i j Hi Hj Hij. rewrite !cell_lower.
    destruct (cell_in_shape HC Hi Hj) as [c ->].
    destruct (cell_in_shape HS1 Hi Hj) as [s ->].
    cbn [option_map].
    assert (Hlt : (j <? i)%nat = false) by (apply Nat.ltb_ge; lia).
    now rewrite Hlt.
Qed.

Lemma calculate_matrix_lower_triangular_witness :
  exists C S,
    calculate_matrix Sample.score Sample.analyze Sample.pair Sample.sentences
      (Np.Fin 1) = Ok (C, S)
    /\ is_shape 2 2 C /\ is_shape 2 2 S
    /\ forall i j, (i < 2)%nat -> (j < 2)%nat -> (i <= j)%nat ->
         cell C i j = Some 0%Z /\ cell S i j = Some (Np.Fin 0).
Proof.
  destruct (proj1 (calculate_matrix_lower_triangular Sample.score
                     Sample.analyze Sample.pair Sample.sentences (Np.Fin 1)))
    as [C [S H]].
  - discriminate.
  - exact sample_pair_NoDup.
  - exists C, S. split; [exact H |].
    exact (proj2 (calculate_matrix_lower_triangular Sample.score
                    Sample.analyze Sample.pair Sample.sentences (Np.Fin 1))
             C S H).
Defined.

(** The builder on the sample corpus: alice and bob meet in the first
    two sentences, scored 2 and -1; with alignment rate 1 the sentiment
    cell is [(2 - 1) + 1 * 2 = 3]. *)
Example sample_matrices :
  calculate_matrix Sample.score Sample.analyze Sample.pair Sample.sentences
    (Np.Fin 1)
  = Ok ([ [0; 0]; [2; 0] ]%Z,
        [ [Np.Fin 0; Np.Fin 0]; [Np.Fin 3; Np.Fin 0] ]).
Proof.
  cbv - [Rplus Rmult IZR].
  do 6 f_equal. lra.
Qed.

(** ** The top-name selector *)

Lemma combine_map_r {A B : Type} (f : A -> B) (l : list A) :
  combine l (map f l) = map (fun a => (a, f a)) l.
Proof. induction l as [| a l IH]; simpl; [reflexivity | now rewrite IH]. Qed.

Lemma slice_to_nonneg {A : Type} (stop : Z) (l : list A) :
  (0 <= stop)%Z -> slice_to stop l = firstn (Z.to_nat stop) l.
Proof.
  intros H. unfold slice_to.
  destruct (Z.ltb_spec stop 0) as [Hlt | _]; [lia |].
  destruct (Z.le_gt_cases stop (Z.of_nat (length l))) as [Hle | Hgt].
  - now rewrite Z.min_l.
  - rewrite Z.min_r by lia. rewrite Nat2Z.id.
    rewrite firstn_all. symmetry. apply firstn_all2. lia.
Qed.

Lemma nth_map_in_range {A B : Type} (g : A -> B) (l : list A) (n : nat)
  (d : B) (d' : A) :
  (n < length l)%nat -> nth n (map g l) d = g (nth n l d').
Proof.
  intros H. rewrite nth_map_default.
  now rewrite (nth_error_nth' l d' H).
Qed.

Lemma permutation_of_seq_nth (l : list nat) (n k : nat) :
  Permutation l (seq 0 n) -> (k < n)%nat -> (nth k l 0 < n)%nat.
Proof.
  intros HP Hk.
  assert (Hlen : length l = n).
  { rewrite (Permutation_length HP). apply length_seq. }
  assert (Hin : In (nth k l 0%nat) (seq 0 n)).
  { apply (Permutation_in _ HP). apply nth_In. lia. }
  apply in_seq in Hin. lia.
Qed.

Lemma permutation_apply {A : Type} (l : list A) (d : A) (perm : list nat) :
  Permutation perm (seq 0 (length l)) ->
  Permutation (map (fun i => nth i l d) perm) l.
Proof.
  intros HP.
  eapply perm_trans; [apply Permutation_map; exact HP |].
  rewrite map_nth_seq_id. apply Permutation_refl.
Qed.

Section TopNames.

Variable analyze : option string -> string -> list string.
Variable str_lower : string -> string.
Variable argsort : list Z -> list nat.
Variable names : list string.
Variable novel : string.

Lemma top_names_form (top_num : Z) :
  top_names analyze str_lower argsort names novel top_num
  = (_ <- validate_vocabulary names ;;
     let frame :=
       map (fun n => (n, corpus_frequency analyze str_lower novel n)) names in
     let indexer :=
       nargsort_descending argsort
         (map (corpus_frequency analyze str_lower novel) names) in
     let top :=
       slice_to top_num
         (map (fun i => nth i frame (""%string, 0%Z)) indexer) in
     Ok (map snd top, map fst top)).
Proof.
  unfold top_names, fit_transform.
  destruct (validate_vocabulary names); [| reflexivity].
  cbn [bind map hd]. unfold corpus_frequency.
  now rewrite combine_map_r, map_map.
Qed.

Hypothesis sorted_call :
  is_argsort (rev (map (corpus_frequency analyze str_lower novel) names))
    (argsort (rev (map (corpus_frequency analyze str_lower novel) names))).

Lemma argsort_length :
  length (argsort (rev (map (corpus_frequency analyze str_lower novel) names)))
  = length names.
Proof.
  destruct sorted_call as [HP _].
  now rewrite (Permutation_length HP), length_seq, length_rev, length_map.
Qed.

Lemma argsort_bound (k : nat) :
  (k < length names)%nat ->
  (nth k (argsort (rev (map (corpus_frequency analyze str_lower novel) names)))
       0 < length names)%nat.
Proof.
  intros Hk. destruct sorted_call as [HP _].
  rewrite length_rev, length_map in HP.
  now apply permutation_of_seq_nth.
Qed.

(** The indexer pandas sorts the frame with, entry by entry. *)
Lemma indexer_nth (k : nat) :
  (k < length names)%nat ->
  nth k (nargsort_descending argsort
           (map (corpus_frequency analyze str_lower novel) names)) 0%nat
  = (length names
     - S (nth (length names - S k)
              (argsort (rev (map (corpus_frequency analyze str_lower novel)
                                 names))) 0))%nat.
Proof.
  intros Hk. unfold nargsort_descending.
  set (perm := argsort _). rewrite length_map.
  assert (Hlen : length perm = length names) by apply argsort_length.
  rewrite rev_nth by (rewrite length_map; lia).
  rewrite length_map, Hlen.
  rewrite (@nth_map_in_range _ _ _ perm _ 0%nat 0%nat) by lia.
  assert (Hb : (nth (length names - S k) perm 0 < length names)%nat)
    by (apply argsort_bound; lia).
  rewrite rev_nth by (rewrite length_seq; lia).
  rewrite length_seq, seq_nth by lia. reflexivity.
Qed.

Lemma indexer_length :
  length (nargsort_descending argsort
            (map (corpus_frequency analyze str_lower novel) names))
  = length names.
Proof.
  unfold nargsort_descending.
  rewrite length_rev, length_map. apply argsort_length.
Qed.

Lemma indexer_permutation :
  Permutation
    (nargsort_descending argsort
       (map (corpus_frequency analyze str_lower novel) names))
    (seq 0 (length names)).
Proof.
  unfold nargsort_descending. rewrite length_map.
  destruct sorted_call as [HP _]. rewrite length_rev, length_map in HP.
  eapply perm_trans; [symmetry; apply Permutation_rev |].
  eapply perm_trans; [apply Permutation_map; exact HP |].
  replace (seq 0 (length names)) with
    (seq 0 (length (rev (seq 0 (length names))))) at 1
    by (now rewrite length_rev, length_seq).
  rewrite map_nth_seq_id. symmetry. apply Permutation_rev.
Qed.

Lemma count_at (p : nat) :
  (p < length names)%nat ->
  nth (length names - S p)
      (map (corpus_frequency analyze str_lower novel) names) 0%Z
  = nth p (rev (map (corpus_frequency analyze str_lower novel) names)) 0%Z.
Proof.
  intros Hp. rewrite rev_nth by (rewrite length_map; lia).
  now rewrite length_map.
Qed.

Lemma indexer_descending (a b : nat) :
  (a < b < length names)%nat ->
  let counts := map (corpus_frequency analyze str_lower novel) names in
  let indexer := nargsort_descending argsort counts in
  (nth (nth b indexer 0%nat) counts 0 <= nth (nth a indexer 0%nat) counts 0)%Z.
Proof.
  intros Hab counts indexer. unfold indexer, counts.
  rewrite !indexer_nth by lia.
  rewrite !count_at by (apply argsort_bound; lia).
  destruct sorted_call as [_ Hsorted]. apply Hsorted.
  rewrite argsort_length. lia.
Qed.

Lemma indexer_stable (a b : nat) :
  let counts := map (corpus_frequency analyze str_lower novel) names in
  let indexer := nargsort_descending argsort counts in
  is_stable (rev counts) (argsort (rev counts)) ->
  (a < b < length names)%nat ->
  nth (nth a indexer 0%nat) counts 0%Z = nth (nth b indexer 0%nat) counts 0%Z ->
  (nth a indexer 0 < nth b indexer 0)%nat.
Proof.
  intros counts indexer Hstable Hab. unfold indexer, counts in *.
  rewrite !indexer_nth by lia.
  rewrite !count_at by (apply argsort_bound; lia).
  intros Heq.
  assert (Hlt : (nth (length names - S b) (argsort (rev (map (corpus_frequency analyze str_lower novel) names))) 0
                 < nth (length names - S a) (argsort (rev (map (corpus_frequency analyze str_lower novel) names))) 0)%nat).
  { apply Hstable; [rewrite argsort_length; lia | now symmetry]. }
  assert (Ha := @argsort_bound (length names - S a)).
  assert (Hb := @argsort_bound (length names - S b)).
  lia.
Qed.

End TopNames.

(** C8, as the code behaves.  On a non-empty duplicate-free candidate
    list and a non-negative [top_num], with an argsort that sorts, the
    selector returns the first [min(top_num, K)] names of a ranking of
    all candidates by descending corpus frequency, each paired with its
    frequency.  Ties keep their input order when the argsort is stable,
    and then the candidates alice 5, bob 2, carl 2 with [top_num = 2]
    give the names alice, bob and the frequencies 5, 2. *)
Theorem top_names_ranking :
  forall (analyze : option string -> string -> list string)
         (str_lower : string -> string) (argsort : list Z -> list nat)
         (name_list : list string) (novel : string) (top_num : Z),
    let freq := corpus_frequency analyze str_lower novel in
    let items := rev (map freq name_list) in
    name_list <> [] -> NoDup name_list -> (0 <= top_num)%Z ->
    is_argsort items (argsort items) ->
    exists ranking,
      Permutation ranking name_list
      /\ top_names analyze str_lower argsort name_list novel top_num
         = Ok (map freq (firstn (Z.to_nat top_num) ranking),
               firstn (Z.to_nat top_num) ranking)
      /\ length (firstn (Z.to_nat top_num) ranking)
         = Nat.min (Z.to_nat top_num) (length name_list)
      /\ (forall a b, (a < b < length name_list)%nat ->
            (freq (nth b ranking ""%string)
             <= freq (nth a ranking ""%string))%Z)
      /\ (is_stable items (argsort items) ->
          forall a b ia ib, (a < b < length name_list)%nat ->
            freq (nth a ranking ""%string) = freq (nth b ranking ""%string) ->
            nth_error name_list ia = Some (nth a ranking ""%string) ->
            nth_error name_list ib = Some (nth b ranking ""%string) ->
            (ia < ib)%nat)
      /\ (is_stable items (argsort items) ->
          name_list = ["alice"; "bob"; "carl"]%string ->
          map freq name_list = [5; 2; 2]%Z -> top_num = 2%Z ->
          top_names analyze str_lower argsort name_list novel top_num
          = Ok ([5; 2]%Z, ["alice"; "bob"]%string)).
Proof.
  intros analyze str_lower argsort names novel top_num freq items
         Hne Hnd Htop Hsort.
  set (counts := map freq names).
  set (indexer := nargsort_descending argsort counts).
  set (ranking := map (fun i => nth i names ""%string) indexer).
  assert (Hperm : Permutation indexer (seq 0 (length names)))
    by (now apply indexer_permutation).
  assert (Hbound : forall k, (k < length names)%nat ->
            (nth k indexer 0 < length names)%nat)
    by (intros k Hk; now apply (permutation_of_seq_nth Hperm)).
  assert (Hlen : length indexer = length names)
    by (now apply indexer_length).
  assert (Hrank : forall k, (k < length names)%nat ->
            nth k ranking ""%string = nth (nth k indexer 0%nat) names ""%string).
  { intros k Hk. unfold ranking.
    now rewrite (@nth_map_in_range _ _ _ indexer _ ""%string 0%nat) by lia. }
  assert (Hfreq : forall i, (i < length names)%nat ->
            freq (nth i names ""%string) = nth i counts 0%Z).
  { intros i Hi. unfold counts.
    now rewrite (@nth_map_in_range _ _ freq names _ 0%Z ""%string). }
  assert (Hrank_perm : Permutation ranking names)
    by (now apply permutation_apply).
  assert (Hrun : top_names analyze str_lower argsort names novel top_num
                 = Ok (map freq (firstn (Z.to_nat top_num) ranking),
                       firstn (Z.to_nat top_num) ranking)).
  { rewrite top_names_form.
    rewrite (proj2 (validate_vocabulary_Ok names) (conj Hne Hnd)).
    cbn [bind]. fold freq counts indexer.
    assert (Hframe :
      map (fun i => nth i (map (fun n => (n, freq n)) names) (""%string, 0%Z))
          indexer
      = map (fun n => (n, freq n)) ranking).
    { unfold ranking. rewrite map_map. apply map_ext_in. intros i Hi.
      apply (Permutation_in _ Hperm), in_seq in Hi.
      now rewrite (@nth_map_in_range _ _ (fun n => (n, freq n)) names i
                     (""%string, 0%Z) ""%string) by lia. }
    rewrite Hframe, slice_to_nonneg by assumption.
    rewrite firstn_map, !map_map. cbn [fst snd]. now rewrite map_id. }
  assert (Hdesc : forall a b, (a < b < length names)%nat ->
            (freq (nth b ranking ""%string)
             <= freq (nth a ranking ""%string))%Z).
  { intros a b Hab. rewrite !Hrank by lia.
    rewrite !Hfreq by (apply Hbound; lia).
    now apply indexer_descending. }
  assert (Hties : is_stable items (argsort items) ->
            forall a b ia ib, (a < b < length names)%nat ->
              freq (nth a ranking ""%string) = freq (nth b ranking ""%string) ->
              nth_error names ia = Some (nth a ranking ""%string) ->
              nth_error names ib = Some (nth b ranking ""%string) ->
              (ia < ib)%nat).
  { intros Hstable a b ia ib Hab Heq Hia Hib.
    rewrite !Hrank in * by lia.
    assert (Hinj : forall i k, (k < length names)%nat ->
              nth_error names i = Some (nth k names ""%string) -> i = k).
    { intros i k Hk Hi.
      apply (proj1 (NoDup_nth_error names) Hnd).
      - apply nth_error_Some. congruence.
      - rewrite Hi. symmetry. now apply nth_error_nth'. }
    apply Hinj in Hia; [| apply Hbound; lia].
    apply Hinj in Hib; [| apply Hbound; lia].
    subst ia ib.
    rewrite !Hfreq in Heq by (apply Hbound; lia).
    now apply indexer_stable. }
  exists ranking.
  split; [exact Hrank_perm |]. split; [exact Hrun |].
  split.
  { rewrite length_firstn. unfold ranking. now rewrite length_map, Hlen. }
  split; [exact Hdesc |]. split; [exact Hties |].
  intros Hstable Hnames Hcounts Htwo.
  rewrite Hrun. specialize (Hties Hstable).
  clearbody ranking. clear Hrun Hrank Hperm Hbound Hlen Hfreq Hsort Hstable.
  subst names top_num.
  injection Hcounts as Halice Hbob Hcarl.
  assert (Hl := Permutation_length Hrank_perm).
  assert (Hnd' : NoDup ranking).
  { apply (Permutation_NoDup (Permutation_sym Hrank_perm) Hnd). }
  destruct ranking as [| x [| y [| z [| w r]]]]; try discriminate Hl.
  assert (Hx : In x ["alice"; "bob"; "carl"]%string)
    by (apply (Permutation_in _ Hrank_perm); simpl; auto).
  assert (Hy : In y ["alice"; "bob"; "carl"]%string)
    by (apply (Permutation_in _ Hrank_perm); simpl; auto).
  assert (Hz : In z ["alice"; "bob"; "carl"]%string)
    by (apply (Permutation_in _ Hrank_perm); simpl; auto).
  assert (Hxy : x <> y).
  { inversion Hnd' as [| ? ? Hn _]; subst. intros ->. apply Hn. now left. }
  assert (Hxz : x <> z).
  { inversion Hnd' as [| ? ? Hn _]; subst. intros ->. apply Hn.
    right. now left. }
  assert (Hyz : y <> z).
  { inversion Hnd' as [| ? ? _ Hn']; subst.
    inversion Hn' as [| ? ? Hn _]; subst. intros ->. apply Hn. now left. }
  assert (D01 := Hdesc 0%nat 1%nat). assert (D02 := Hdesc 0%nat 2%nat).
  assert (D12 := Hdesc 1%nat 2%nat).
  assert (T12 := Hties 1%nat 2%nat).
  cbn [nth length] in D01, D02, D12, T12.
  simpl in Hx, Hy, Hz.
  change (Z.to_nat 2) with 2%nat. cbn [firstn map].
  destruct Hx as [<- | [<- | [<- | []]]];
    destruct Hy as [<- | [<- | [<- | []]]];
    destruct Hz as [<- | [<- | [<- | []]]];
    try congruence;
    try (rewrite ?Halice, ?Hbob, ?Hcarl in *; lia).
  exfalso.
  assert (2 < 1)%nat; [| lia].
  apply T12; [lia | congruence | reflexivity | reflexivity].
Qed.

Lemma sample_items :
  rev (map (corpus_frequency Sample.analyze Sample.lower Sample.novel)
           Sample.names)
  = [2; 2; 5]%Z.
Proof. reflexivity. Qed.

Lemma sample_argsort_sorts :
  is_argsort [2; 2; 5]%Z (Sample.argsort [2; 2; 5]%Z).
Proof.
  split; [apply Permutation_refl |].
  intros a b Hab. change (length (Sample.argsort [2; 2; 5]%Z)) with 3%nat in Hab.
  destruct a as [| [| [| a]]]; destruct b as [| [| [| b]]]; try lia;
    vm_compute; discriminate.
Qed.

Lemma sample_argsort_stable :
  is_stable [2; 2; 5]%Z (Sample.argsort [2; 2; 5]%Z).
Proof.
  intros a b Hab. change (length (Sample.argsort [2; 2; 5]%Z)) with 3%nat in Hab.
  destruct a as [| [| [| a]]]; destruct b as [| [| [| b]]]; try lia;
    vm_compute; first [ discriminate | intros _; lia ].
Qed.

Lemma top_names_ranking_witness :
  top_names Sample.analyze Sample.lower Sample.argsort Sample.names
    Sample.novel 2
  = Ok ([5; 2]%Z, ["alice"; "bob"]%string).
Proof.
  destruct (@top_names_ranking Sample.analyze Sample.lower Sample.argsort
              Sample.names Sample.novel 2)
    as [ranking [_ [_ [_ [_ [_ Hexample]]]]]].
  - discriminate.
  - exact sample_names_NoDup.
  - lia.
  - rewrite sample_items. exact sample_argsort_sorts.
  - apply Hexample.
    + rewrite sample_items. exact sample_argsort_stable.
    + reflexivity.
    + reflexivity.
    + reflexivity.
Defined.

(** C8, counterexample.  An empty candidate list makes the vectorizer
    raise [ValueError] instead of returning [min(2, 0) = 0] names; a
    negative [top_num] is a slice bound counted from the end, so two
    names come back for [top_num = -1]; and with an argsort that sorts
    but is not stable, the tie between bob and carl is broken the other
    way. *)
Lemma top_names_counterexample :
  top_names Sample.analyze Sample.lower Sample.argsort [] Sample.novel 2
  = Raise ValueError
  /\ top_names Sample.analyze Sample.lower Sample.argsort Sample.names
       Sample.novel (-1)
     = Ok ([5; 2]%Z, ["alice"; "bob"]%string)
  /\ is_argsort [2; 2; 5]%Z (Sample.argsort_unstable [2; 2; 5]%Z)
  /\ top_names Sample.analyze Sample.lower Sample.argsort_unstable
       Sample.names Sample.novel 2
     = Ok ([5; 2]%Z, ["alice"; "carl"]%string).
Proof.
  split; [reflexivity |]. split; [reflexivity |]. split; [| reflexivity].
  split.
  - change (Sample.argsort_unstable [2; 2; 5]%Z) with [1; 0; 2]%nat.
    apply perm_swap.
  - intros a b Hab.
    change (length (Sample.argsort_unstable [2; 2; 5]%Z)) with 3%nat in Hab.
    destruct a as [| [| [| a]]]; destruct b as [| [| [| b]]]; try lia;
      vm_compute; discriminate.
Qed.

(** ** Behaviour outside the three modes, and with the module's own
       extractor *)

Lemma lower_positions_head (K : nat) :
  (2 <= K)%nat -> exists rest, lower_positions K = (1, 0)%nat :: rest.
Proof.
  intros H. destruct K as [| [| k]]; try lia.
  unfold lower_positions. cbn [seq flat_map map app]. eauto.
Qed.

(** With any other mode string neither [weight] nor [color] is ever
    assigned: the first lower-triangular position makes the loop body
    read an unbound local. *)
Lemma matrix_to_edge_list_unknown_mode (matrix : list (list Np.float64))
  (mode : string) (names : list string) (K : nat) :
  ~ known_mode mode -> is_shape K K matrix -> (2 <= K)%nat ->
  (K <= length names)%nat ->
  matrix_to_edge_list matrix mode names = Raise UnboundLocalError.
Proof.
  intros Hmode Hshape HK Hnames. unfold matrix_to_edge_list, known_mode in *.
  rewrite where_zero_triu_ones.
  assert (Hpos : (0 < K)%nat) by lia.
  destruct (amax_nonempty (square_concat_nonempty Hpos Hshape)) as [m ->].
  cbn [bind].
  destruct (String.eqb_spec mode "co-occurrence"); [tauto |].
  destruct (String.eqb_spec mode "sentiment"); [tauto |].
  destruct (String.eqb_spec mode "bare") as [| Hbare]; [tauto |].
  replace (length matrix) with K by (symmetry; apply Hshape).
  destruct (lower_positions_head HK) as [rest ->].
  cbn [edge_loop].
  apply String.eqb_neq in Hbare. rewrite Hbare. cbn [negb bind].
  unfold getitem.
  destruct (nth_error names 1) eqn:E1;
    [| apply nth_error_None in E1; lia].
  destruct (nth_error names 0) eqn:E0;
    [| apply nth_error_None in E0; lia].
  reflexivity.
Qed.

Lemma counter_add_same (k : nat) (r : list string) :
  fold_left counter_add (map (fun _ => VNone) r) [(VNone, k)]
  = [(VNone, (k + length r)%nat)].
Proof.
  revert k. induction r as [| s r IH]; intros k; cbn [map fold_left length].
  - now rewrite Nat.add_0_r.
  - cbn [counter_add value_eqb]. rewrite IH. do 2 f_equal. lia.
Qed.

(** With an extractor that returns [None] for every sentence the
    aggregate is the single key [None], kept as long as the threshold
    rate does not exceed 1. *)
Lemma iterative_NER_none_extractor (sentence_list : list string)
  (threshold_rate : R) :
  iterative_NER (fun _ => VNone) sentence_list threshold_rate
  = Ok (match sentence_list with
        | [] => []
        | _ :: _ => if Rle_dec threshold_rate 1 then [VNone] else []
        end).
Proof.
  destruct sentence_list as [| s r]; [reflexivity |].
  unfold iterative_NER.
  assert (Hfilter : forall l : list string,
            filter (fun name_list => negb (value_eqb name_list (VList [])))
                   (map (fun _ => VNone) l)
            = map (fun _ => VNone) l).
  { induction l as [| x l IH]; [reflexivity |].
    cbn [map filter value_eqb negb]. now rewrite IH. }
  assert (Hflat : forall l : list string,
            flatten (map (fun _ => VNone) l) = map (fun _ => VNone) l).
  { induction l as [| x l IH]; [reflexivity |].
    cbn [map]. rewrite flatten_cons, IH. reflexivity. }
  rewrite Hfilter, Hflat.
  unfold Counter. cbn [map fold_left counter_add].
  rewrite counter_add_same. cbn [filter snd].
  replace (1 + length r)%nat with (length (s :: r)) by reflexivity.
  assert (Hpos : (0 < INR (length (s :: r)))%R)
    by (apply lt_0_INR; simpl; lia).
  destruct (Rle_dec _ _) as [Hle | Hgt], (Rle_dec threshold_rate 1)
    as [Hle1 | Hgt1]; try reflexivity; exfalso.
  - apply Hgt1. nra.
  - apply Hgt. nra.
Qed.

(* ================================================================= *)
(** * Further properties of the code *)

(** ** [flatten] *)

Lemma flatten_item_flat (v : value) :
  Forall (fun x => is_list x = false) (flatten_item v).
Proof.
  induction v as [| s | l IH] using value_nested_ind.
  - repeat constructor.
  - repeat constructor.
  - cbn [flatten_item]. induction IH as [| x r Hx _ IHr]; [constructor |].
    apply Forall_app. split; assumption.
Qed.

Lemma flatten_app (l m : list value) :
  flatten (l ++ m) = flatten l ++ flatten m.
Proof. unfold flatten. apply flat_map_app. Qed.

Lemma flatten_of_flat (l : list value) :
  Forall (fun x => is_list x = false) l -> flatten l = l.
Proof.
  induction 1 as [| x r Hx _ IH]; [reflexivity |].
  rewrite flatten_cons, IH. destruct x; try discriminate; reflexivity.
Qed.

Lemma flatten_flat_all (l : list value) :
  Forall (fun x => is_list x = false) (flatten l).
Proof.
  induction l as [| v r IH]; [constructor |].
  rewrite flatten_cons. apply Forall_app. split; [apply flatten_item_flat | exact IH].
Qed.

(** X1.  Whatever the nesting of its input, the output of [flatten]
    holds no list: every item is a leaf ([None] or a string). *)
Theorem flatten_has_no_list :
  forall (input_list : list value) (x : value),
    In x (flatten input_list) -> forall l, x <> VList l.
Proof.
  intros input x Hin l ->.
  pose proof (flatten_flat_all input) as H.
  rewrite Forall_forall in H. specialize (H _ Hin). discriminate.
Qed.

(** X2.  [flatten] is idempotent and distributes over concatenation;
    on a list without nested lists it is the identity. *)
Theorem flatten_idempotent :
  forall (l m : list value),
    flatten (flatten l) = flatten l
    /\ flatten (l ++ m) = flatten l ++ flatten m
    /\ flatten [VList l; VList [VList m]] = flatten l ++ flatten m.
Proof.
  intros l m. split; [apply flatten_of_flat, flatten_flat_all |].
  split; [apply flatten_app |].
  unfold flatten at 1. cbn [flat_map flatten_item]. rewrite !app_nil_r.
  assert (H : forall k, (fix flatten_items (l0 : list value) : list value :=
              match l0 with
              | [] => []
              | x :: r => flatten_item x ++ flatten_items r
              end) k = flatten k).
  { induction k as [| x r IH]; [reflexivity |]. now rewrite flatten_cons, IH. }
  now rewrite !H.
Qed.

(** ** The order and the pruning of [iterative_NER] *)

Lemma value_eqb_sym (a b : value) : value_eqb a b = value_eqb b a.
Proof.
  destruct (value_eqb a b) eqn:E.
  - apply value_eqb_eq in E. subst. symmetry. apply value_eqb_refl.
  - destruct (value_eqb b a) eqn:E'; [| reflexivity].
    apply value_eqb_eq in E'. subst. now rewrite value_eqb_refl in E.
Qed.

Lemma filter_filter_andb {A : Type} (p q : A -> bool) (l : list A) :
  filter p (filter q l) = filter (fun x => q x && p x) l.
Proof.
  induction l as [| x r IH]; [reflexivity |]. simpl.
  destruct (q x); simpl; [destruct (p x) |]; now rewrite IH.
Qed.

(** The keys a counter ends with: the keys it had, then the new items
    at their first occurrence. *)
Lemma counter_fold_keys (items : list value) :
  forall c,
    map fst (fold_left counter_add items c)
    = map fst c
      ++ filter (fun y => negb (existsb (fun k => value_eqb k y) (map fst c)))
                (first_occurrences items).
Proof.
  induction items as [| x r IH]; intros c.
  - simpl. now rewrite app_nil_r.
  - cbn [fold_left first_occurrences filter]. rewrite IH, counter_add_keys.
    destruct (existsb (fun k => value_eqb k x) (map fst c)) eqn:E;
      cbn [negb].
    + f_equal. rewrite filter_filter_andb. apply filter_ext_in.
      intros y _. destruct (value_eqb x y) eqn:Exy; [| reflexivity].
      apply value_eqb_eq in Exy. subst y. now rewrite E.
    + rewrite <- app_assoc. cbn [app]. do 2 f_equal.
      rewrite filter_filter_andb. apply filter_ext. intros y.
      rewrite existsb_app. cbn [existsb]. rewrite orb_false_r, negb_orb.
      now rewrite andb_comm.
Qed.

Lemma Counter_keys (items : list value) :
  map fst (Counter items) = first_occurrences items.
Proof.
  unfold Counter. rewrite counter_fold_keys. cbn [map app existsb negb].
  clear. induction (first_occurrences items) as [| x r IH]; [reflexivity |].
  simpl. now rewrite IH.
Qed.

Lemma flatten_nonempty_results (ner : string -> value)
  (sentence_list : list string) :
  flatten (filter (fun name_list => negb (value_eqb name_list (VList [])))
                  (map ner sentence_list))
  = extracted ner sentence_list.
Proof.
  unfold extracted.
  induction sentence_list as [| s r IH]; [reflexivity |].
  cbn [map filter flat_map].
  destruct (value_eqb (ner s) (VList [])) eqn:E; cbn [negb].
  - apply value_eqb_eq in E. rewrite E. exact IH.
  - rewrite flatten_cons. now rewrite IH.
Qed.

Lemma count_value_extracted (ner : string -> value) (x : value)
  (sentence_list : list string) :
  count_value x (extracted ner sentence_list)
  = occurrence_count ner x sentence_list.
Proof.
  rewrite <- flatten_nonempty_results. apply occurrence_count_flatten.
Qed.

Lemma map_fst_filter_snd {A B : Type} (q : A -> B -> bool) (count : A -> B)
  (c : list (A * B)) :
  (forall k n, In (k, n) c -> n = count k) ->
  map fst (filter (fun kv => q (fst kv) (snd kv)) c)
  = filter (fun k => q k (count k)) (map fst c).
Proof.
  induction c as [| [k n] r IH]; intros H; [reflexivity |].
  cbn [filter map fst snd].
  rewrite (H k n) by now left.
  destruct (q k (count k)); cbn [map fst]; rewrite IH; auto;
    intros k' n' Hin; apply H; now right.
Qed.

(** The aggregator in closed form: the extracted names at their first
    occurrence, minus those below the threshold. *)
Lemma iterative_NER_closed (ner : string -> value)
  (sentence_list : list string) (threshold_rate : R) :
  iterative_NER ner sentence_list threshold_rate
  = Ok (filter (fun x => reaches_threshold threshold_rate
                           (length sentence_list)
                           (occurrence_count ner x sentence_list))
               (first_occurrences (extracted ner sentence_list))).
Proof.
  unfold iterative_NER. rewrite flatten_nonempty_results. f_equal.
  set (items := extracted ner sentence_list).
  destruct (Counter_counts items) as [Hnd Hget].
  rewrite <- Counter_keys.
  rewrite <- (map_fst_filter_snd
                (fun _ n => reaches_threshold threshold_rate
                              (length sentence_list) n)
                (fun k => occurrence_count ner k sentence_list)).
  - reflexivity.
  - intros k n Hin. apply (counter_get_In _ _ _ Hnd) in Hin.
    rewrite Hget in Hin.
    destruct (count_value k items =? 0)%nat; [discriminate |].
    injection Hin as <-. apply count_value_extracted.
Qed.


Lemma reaches_threshold_true (thr : R) (total count : nat) :
  reaches_threshold thr total count = true
  <-> (thr * INR total <= INR count)%R.
Proof.
  unfold reaches_threshold. destruct (Rle_dec _ _); split; try tauto; discriminate.
Qed.

(** X4.  Raising the threshold only removes names: the result for the
    higher rate is the result for the lower rate, filtered. *)
Theorem iterative_NER_threshold_monotone :
  forall (ner : string -> value) (sentence_list : list string)
         (low high : R),
    (low <= high)%R ->
    exists kept_low kept_high,
      iterative_NER ner sentence_list low = Ok kept_low
      /\ iterative_NER ner sentence_list high = Ok kept_high
      /\ kept_high
         = filter (fun x => reaches_threshold high (length sentence_list)
                              (occurrence_count ner x sentence_list))
                  kept_low
      /\ (forall x, In x kept_high -> In x kept_low).
Proof.
  intros ner sl low high Hle.
  rewrite !iterative_NER_closed. do 2 eexists.
  split; [reflexivity |]. split; [reflexivity |].
  assert (Heq : filter (fun x => reaches_threshold high (length sl)
                                   (occurrence_count ner x sl))
                  (first_occurrences (extracted ner sl))
                = filter (fun x => reaches_threshold high (length sl)
                                     (occurrence_count ner x sl))
                    (filter (fun x => reaches_threshold low (length sl)
                                        (occurrence_count ner x sl))
                       (first_occurrences (extracted ner sl)))).
  { rewrite filter_filter_andb. apply filter_ext. intros x.
    destruct (reaches_threshold high _ _) eqn:Eh;
      [| now rewrite andb_false_r].
    apply reaches_threshold_true in Eh.
    assert (El : reaches_threshold low (length sl)
                   (occurrence_count ner x sl) = true).
    { apply reaches_threshold_true.
      pose proof (pos_INR (length sl)). nra. }
    now rewrite El. }
  split; [exact Heq |].
  intros x Hx. rewrite Heq in Hx. now apply filter_In in Hx.
Qed.

Lemma iterative_NER_threshold_monotone_witness :
  exists kept_low kept_high,
    iterative_NER Sample.ner Sample.sentences 0.2 = Ok kept_low
    /\ iterative_NER Sample.ner Sample.sentences 0.5 = Ok kept_high
    /\ kept_high
       = filter (fun x => reaches_threshold 0.5 (length Sample.sentences)
                            (occurrence_count Sample.ner x Sample.sentences))
                kept_low
    /\ (forall x, In x kept_high -> In x kept_low).
Proof.
  apply (@iterative_NER_threshold_monotone Sample.ner Sample.sentences
           0.2%R 0.5%R).
  lra.
Defined.

Lemma first_occurrences_In (x : value) (l : list value) :
  In x (first_occurrences l) <-> In x l.
Proof.
  induction l as [| y r IH]; [reflexivity |].
  cbn [first_occurrences]. simpl. rewrite filter_In, IH.
  destruct (value_eqb y x) eqn:E.
  - apply value_eqb_eq in E. subst. split; auto.
  - apply value_eqb_neq in E. split.
    + intros [H | [H _]]; auto.
    + intros [H | H]; [contradiction | right; now split].
Qed.

(** X5.  With a threshold rate of zero or less nothing is pruned: the
    result is every extracted name, once, in first-occurrence order. *)
Theorem iterative_NER_nonpositive_threshold :
  forall (ner : string -> value) (sentence_list : list string)
         (threshold_rate : R),
    (threshold_rate <= 0)%R ->
    iterative_NER ner sentence_list threshold_rate
    = Ok (first_occurrences (extracted ner sentence_list)).
Proof.
  intros ner sl thr Hthr. rewrite iterative_NER_closed. f_equal.
  apply forallb_filter_id, forallb_forall. intros x _.
  apply reaches_threshold_true.
  pose proof (pos_INR (length sl)). pose proof (pos_INR (occurrence_count ner x sl)).
  nra.
Qed.

Lemma iterative_NER_nonpositive_threshold_witness :
  iterative_NER Sample.ner ["alice and bob"; "bob"]%string 0
  = Ok [VStr "alice"; VStr "and"; VStr "bob"].
Proof.
  rewrite (@iterative_NER_nonpositive_threshold Sample.ner
             ["alice and bob"; "bob"]%string 0%R); [reflexivity | lra].
Defined.

Lemma ner_loop_returning (f : string -> value) (sentence_list : list string) :
  forall output,
    ner_loop (fun s => Ok (f s)) sentence_list output
    = Ok (output
          ++ filter (fun name_list => negb (value_eqb name_list (VList [])))
               (map f sentence_list)).
Proof.
  induction sentence_list as [| i rest IH]; intros output.
  - cbn [ner_loop map filter]. now rewrite app_nil_r.
  - cbn [ner_loop bind map filter]. rewrite IH.
    destruct (negb (value_eqb (f i) (VList []))); [| reflexivity].
    now rewrite <- app_assoc.
Qed.

(** Over an extractor that returns, the loop is [iterative_NER]. *)
Lemma iterative_NER_with_returning (f : string -> value)
  (sentence_list : list string) (threshold_rate : R) :
  iterative_NER_with (fun s => Ok (f s)) sentence_list threshold_rate
  = iterative_NER f sentence_list threshold_rate.
Proof.
  unfold iterative_NER_with, iterative_NER.
  rewrite ner_loop_returning. reflexivity.
Qed.

Lemma ner_loop_agrees (ner ner' : string -> result value)
  (sentence_list : list string) :
  (forall s, In s sentence_list -> ner s = ner' s) ->
  forall output,
    ner_loop ner sentence_list output = ner_loop ner' sentence_list output.
Proof.
  induction sentence_list as [| i rest IH]; intros Hagree output;
    [reflexivity |].
  cbn [ner_loop]. rewrite (Hagree i) by now left.
  destruct (ner' i) as [v | e]; [| reflexivity].
  cbn [bind]. apply IH. intros s Hs. apply Hagree. now right.
Qed.

Lemma ner_loop_first_raises (ner : string -> result value) (e : exn)
  (s : string) (rest : list string) (output : list value) :
  ner s = Raise e -> ner_loop ner (s :: rest) output = Raise e.
Proof. intros H. cbn [ner_loop]. now rewrite H. Qed.

(** A call of the module's extractor that returns, returns [None]. *)
Lemma name_entity_recognition_returns
  (nlp : option (string -> result document)) (s : string) (v : value) :
  name_entity_recognition nlp s = Ok v -> v = VNone.
Proof.
  unfold name_entity_recognition. destruct nlp as [pipeline |]; [| discriminate].
  destruct (pipeline s) as [doc | e]; [| discriminate].
  cbn [bind]. destruct (entities doc); [| discriminate].
  congruence.
Qed.

Lemma ner_loop_all_return (ner : string -> result value)
  (sentence_list : list string) :
  forall output result,
    ner_loop ner sentence_list output = Ok result ->
    forall s, In s sentence_list -> exists v, ner s = Ok v.
Proof.
  induction sentence_list as [| i rest IH]; intros output result Hok s Hs;
    [contradiction |].
  cbn [ner_loop] in Hok. destruct (ner i) as [v | e] eqn:E; [| discriminate].
  cbn [bind] in Hok. destruct Hs as [<- | Hs]; [eauto |].
  eapply IH; eassumption.
Qed.

(** X6.  With the module's own extractor the aggregator never yields a
    name.  On a non-empty sentence list it raises [NameError] when
    [nlp] is unbound (the module imported: [nlp] is assigned under
    [__main__] only), and [AttributeError] when the pipeline returns
    documents without an [entities] attribute (the spaCy pipeline that
    [__main__] binds).  Whenever it does return, the result is the
    single key [None] (a sentence, and a threshold rate of at most 1) or
    the empty list, because the statements that built the name list are
    commented out. *)
Theorem iterative_NER_yields_no_name :
  forall (nlp : option (string -> result document))
         (sentence_list : list string) (threshold_rate : R),
    (sentence_list <> [] -> nlp = None ->
     iterative_NER_with (name_entity_recognition nlp) sentence_list
       threshold_rate = Raise NameError)
    /\ (forall pipeline,
          sentence_list <> [] -> nlp = Some pipeline ->
          (forall s, In s sentence_list ->
             exists doc, pipeline s = Ok doc /\ entities doc = None) ->
          iterative_NER_with (name_entity_recognition nlp) sentence_list
            threshold_rate = Raise AttributeError)
    /\ (forall names,
          iterative_NER_with (name_entity_recognition nlp) sentence_list
            threshold_rate = Ok names ->
          names = match sentence_list with
                  | [] => []
                  | _ :: _ => if Rle_dec threshold_rate 1 then [VNone] else []
                  end).
Proof.
  intros nlp sentence_list threshold_rate. split; [| split].
  - intros Hne ->. destruct sentence_list as [| s rest]; [contradiction |].
    unfold iterative_NER_with.
    now rewrite (@ner_loop_first_raises _ NameError).
  - intros pipeline Hne -> Hdocs.
    destruct sentence_list as [| s rest]; [contradiction |].
    unfold iterative_NER_with.
    rewrite (@ner_loop_first_raises _ AttributeError); [reflexivity |].
    destruct (Hdocs s (or_introl eq_refl)) as [doc [Hdoc Hent]].
    unfold name_entity_recognition. rewrite Hdoc. cbn [bind].
    now rewrite Hent.
  - intros names Hok.
    assert (Hagree : forall s, In s sentence_list ->
              name_entity_recognition nlp s = Ok VNone).
    { intros s Hs. unfold iterative_NER_with in Hok.
      destruct (ner_loop (name_entity_recognition nlp) sentence_list [])
        as [output |] eqn:Eloop; [| discriminate].
      destruct (ner_loop_all_return _ _ _ Eloop s Hs) as [v Hv].
      now rewrite Hv, (name_entity_recognition_returns _ _ Hv). }
    unfold iterative_NER_with in Hok.
    rewrite (ner_loop_agrees _ (fun _ => Ok VNone) _ Hagree) in Hok.
    fold (iterative_NER_with (fun _ : string => Ok VNone) sentence_list
            threshold_rate) in Hok.
    rewrite (iterative_NER_with_returning (fun _ => VNone)) in Hok.
    rewrite iterative_NER_none_extractor in Hok. congruence.
Qed.

Lemma iterative_NER_yields_no_name_witness :
  iterative_NER_with (name_entity_recognition None)
    ["Long ago, the mice had a general council."%string] 0.0005
  = Raise NameError.
Proof.
  apply (proj1 (@iterative_NER_yields_no_name None
                  ["Long ago, the mice had a general council."%string]
                  0.0005%R)).
  - discriminate.
  - reflexivity.
Defined.

Lemma flatten_has_no_list_witness :
  In (VStr "a") (flatten [VList [VStr "a"; VList [VNone]]])
  /\ VStr "a" <> VList [].
Proof.
  assert (H : In (VStr "a") (flatten [VList [VStr "a"; VList [VNone]]]))
    by (simpl; now left).
  split; [exact H |].
  exact (@flatten_has_no_list [VList [VStr "a"; VList [VNone]]] (VStr "a")
           H []).
Defined.


(** ** More on the top-name selector *)

Lemma slice_to_map {A B : Type} (f : A -> B) (stop : Z) (l : list A) :
  slice_to stop (map f l) = map f (slice_to stop l).
Proof. unfold slice_to. now rewrite length_map, firstn_map. Qed.

Lemma top_names_sliced (analyze : option string -> string -> list string)
  (str_lower : string -> string) (argsort : list Z -> list nat)
  (names : list string) (novel : string) (top_num : Z) :
  names <> [] -> NoDup names ->
  is_argsort (rev (map (corpus_frequency analyze str_lower novel) names))
    (argsort (rev (map (corpus_frequency analyze str_lower novel) names))) ->
  top_names analyze str_lower argsort names novel top_num
  = Ok (map (corpus_frequency analyze str_lower novel)
            (slice_to top_num
               (ranked_names analyze str_lower argsort names novel)),
        slice_to top_num (ranked_names analyze str_lower argsort names novel)).
Proof.
  intros Hne Hnd Hsort. rewrite top_names_form.
  rewrite (proj2 (validate_vocabulary_Ok names) (conj Hne Hnd)).
  cbn [bind]. unfold ranked_names.
  set (freq := corpus_frequency analyze str_lower novel).
  set (indexer := nargsort_descending argsort (map freq names)).
  assert (Hperm : Permutation indexer (seq 0 (length names)))
    by (now apply indexer_permutation).
  assert (Hframe :
    map (fun i => nth i (map (fun n => (n, freq n)) names) (""%string, 0%Z))
        indexer
    = map (fun n => (n, freq n)) (map (fun i => nth i names ""%string) indexer)).
  { rewrite map_map. apply map_ext_in. intros i Hi.
    apply (Permutation_in _ Hperm), in_seq in Hi.
    now rewrite (@nth_map_in_range _ _ (fun n => (n, freq n)) names i
                   (""%string, 0%Z) ""%string) by lia. }
  rewrite Hframe, slice_to_map, !map_map. cbn [fst snd].
  now rewrite map_id.
Qed.

Lemma ranked_names_permutation
  (analyze : option string -> string -> list string)
  (str_lower : string -> string) (argsort : list Z -> list nat)
  (names : list string) (novel : string) :
  is_argsort (rev (map (corpus_frequency analyze str_lower novel) names))
    (argsort (rev (map (corpus_frequency analyze str_lower novel) names))) ->
  Permutation (ranked_names analyze str_lower argsort names novel) names.
Proof.
  intros Hsort. unfold ranked_names.
  apply permutation_apply. now apply indexer_permutation.
Qed.

(** X7.  The selector raises exactly when the vectorizer refuses the
    vocabulary: [ValueError] on an empty or repeating candidate list,
    and a result on every other one, whatever the corpus, [top_num] and
    the sort. *)
Theorem top_names_raises_iff_invalid :
  forall (analyze : option string -> string -> list string)
         (str_lower : string -> string) (argsort : list Z -> list nat)
         (name_list : list string) (novel : string) (top_num : Z),
    (name_list = [] \/ ~ NoDup name_list ->
     top_names analyze str_lower argsort name_list novel top_num
     = Raise ValueError)
    /\ (name_list <> [] -> NoDup name_list ->
        exists freqs names,
          top_names analyze str_lower argsort name_list novel top_num
          = Ok (freqs, names)
          /\ length freqs = length names).
Proof.
  intros analyze str_lower argsort names novel top_num. split.
  - intros H. rewrite top_names_form.
    destruct (validate_vocabulary names) as [[] |] eqn:E.
    + apply validate_vocabulary_Ok in E. tauto.
    + cbn [bind]. f_equal. unfold validate_vocabulary in E.
      destruct (has_duplicate names); [congruence |].
      destruct names; congruence.
  - intros Hne Hnd. rewrite top_names_form.
    rewrite (proj2 (validate_vocabulary_Ok names) (conj Hne Hnd)).
    cbn [bind]. do 2 eexists. split; [reflexivity |].
    now rewrite !length_map.
Qed.

Lemma top_names_raises_iff_invalid_witness :
  top_names Sample.analyze Sample.lower Sample.argsort
    ["alice"; "bob"; "alice"]%string Sample.novel 2
  = Raise ValueError
  /\ exists freqs names,
       top_names Sample.analyze Sample.lower Sample.argsort Sample.names
         Sample.novel 2 = Ok (freqs, names)
       /\ length freqs = length names.
Proof.
  split.
  - apply (proj1 (top_names_raises_iff_invalid Sample.analyze Sample.lower
                    Sample.argsort ["alice"; "bob"; "alice"]%string
                    Sample.novel 2)).
    right. intros H. inversion H as [| ? ? Hin _]; subst.
    apply Hin. simpl. auto.
  - apply (proj2 (top_names_raises_iff_invalid Sample.analyze Sample.lower
                    Sample.argsort Sample.names Sample.novel 2)).
    + discriminate.
    + exact sample_names_NoDup.
Defined.

(** X8.  Asking for at least as many names as there are candidates
    returns every candidate once (the request is clamped by the slice),
    and asking for none returns two empty lists. *)
Theorem top_names_clamps :
  forall (analyze : option string -> string -> list string)
         (str_lower : string -> string) (argsort : list Z -> list nat)
         (name_list : list string) (novel : string) (top_num : Z),
    name_list <> [] -> NoDup name_list ->
    is_argsort
      (rev (map (corpus_frequency analyze str_lower novel) name_list))
      (argsort
         (rev (map (corpus_frequency analyze str_lower novel) name_list))) ->
    (Z.of_nat (length name_list) <= top_num)%Z ->
    (exists freqs names,
       top_names analyze str_lower argsort name_list novel top_num
       = Ok (freqs, names)
       /\ Permutation names name_list
       /\ freqs = map (corpus_frequency analyze str_lower novel) names)
    /\ top_names analyze str_lower argsort name_list novel 0 = Ok ([], []).
Proof.
  intros analyze str_lower argsort names novel top_num Hne Hnd Hsort Htop.
  rewrite !top_names_sliced by assumption.
  pose proof (@ranked_names_permutation _ _ _ _ _ Hsort) as Hperm.
  split.
  - do 2 eexists. split; [reflexivity |].
    rewrite slice_to_nonneg by lia.
    rewrite firstn_all2
      by (rewrite (Permutation_length Hperm); lia).
    split; [exact Hperm | reflexivity].
  - rewrite slice_to_nonneg by lia. reflexivity.
Qed.

Lemma top_names_clamps_witness :
  (exists freqs names,
     top_names Sample.analyze Sample.lower Sample.argsort Sample.names
       Sample.novel 20 = Ok (freqs, names)
     /\ Permutation names Sample.names
     /\ freqs = map (corpus_frequency Sample.analyze Sample.lower Sample.novel)
                    names)
  /\ top_names Sample.analyze Sample.lower Sample.argsort Sample.names
       Sample.novel 0 = Ok ([], []).
Proof.
  apply (@top_names_clamps Sample.analyze Sample.lower Sample.argsort
           Sample.names Sample.novel 20).
  - discriminate.
  - exact sample_names_NoDup.
  - rewrite sample_items. exact sample_argsort_sorts.
  - simpl. lia.
Defined.

(** X9.  A negative [top_num] is a slice bound counted from the end:
    the selector drops the last [-top_num] names of the ranking and
    returns the rest, or nothing when there are not that many. *)
Theorem top_names_negative_top_num :
  forall (analyze : option string -> string -> list string)
         (str_lower : string -> string) (argsort : list Z -> list nat)
         (name_list : list string) (novel : string) (top_num : Z),
    name_list <> [] -> NoDup name_list ->
    is_argsort
      (rev (map (corpus_frequency analyze str_lower novel) name_list))
      (argsort
         (rev (map (corpus_frequency analyze str_lower novel) name_list))) ->
    (top_num < 0)%Z ->
    exists freqs names,
      top_names analyze str_lower argsort name_list novel top_num
      = Ok (freqs, names)
      /\ names
         = firstn (length name_list - Z.to_nat (- top_num))
                  (ranked_names analyze str_lower argsort name_list novel)
      /\ length names = (length name_list - Z.to_nat (- top_num))%nat
      /\ length freqs = length names.
Proof.
  intros analyze str_lower argsort names novel top_num Hne Hnd Hsort Htop.
  rewrite top_names_sliced by assumption.
  pose proof (Permutation_length (@ranked_names_permutation _ _ _ _ _ Hsort)) as Hlen.
  do 2 eexists. split; [reflexivity |].
  assert (Hslice :
    slice_to top_num (ranked_names analyze str_lower argsort names novel)
    = firstn (length names - Z.to_nat (- top_num))
             (ranked_names analyze str_lower argsort names novel)).
  { unfold slice_to. rewrite Hlen.
    destruct (Z.ltb_spec top_num 0) as [_ | Hge]; [| lia].
    f_equal. lia. }
  rewrite Hslice. split; [reflexivity |].
  rewrite length_map, length_firstn, Hlen. split; [lia | reflexivity].
Qed.

Lemma top_names_negative_top_num_witness :
  exists freqs names,
    top_names Sample.analyze Sample.lower Sample.argsort Sample.names
      Sample.novel (-2) = Ok (freqs, names)
    /\ names
       = firstn (3 - 2)
           (ranked_names Sample.analyze Sample.lower Sample.argsort
              Sample.names Sample.novel)
    /\ length names = 1%nat
    /\ length freqs = length names.
Proof.
  apply (@top_names_negative_top_num Sample.analyze Sample.lower
           Sample.argsort Sample.names Sample.novel (-2)).
  - discriminate.
  - exact sample_names_NoDup.
  - rewrite sample_items. exact sample_argsort_sorts.
  - lia.
Defined.


(** ** More on the alignment rate *)

Lemma sum_app (l m : list R) : Np.sum (l ++ m) = (Np.sum l + Np.sum m)%R.
Proof.
  unfold Np.sum. induction l as [| x r IH]; simpl; [lra |]. rewrite IH. lra.
Qed.

Lemma count_nonzero_app (l m : list R) :
  count_nonzero (l ++ m) = (count_nonzero l + count_nonzero m)%nat.
Proof.
  induction l as [| x r IH]; simpl; [reflexivity |]. rewrite IH. lia.
Qed.

Lemma align_rate_from (afinn_score : string -> R) (sl sl' : list string) :
  Np.sum (map afinn_score sl) = Np.sum (map afinn_score sl') ->
  count_nonzero (map afinn_score sl) = count_nonzero (map afinn_score sl') ->
  calculate_align_rate afinn_score sl = calculate_align_rate afinn_score sl'.
Proof.
  intros Hs Hc. rewrite !calculate_align_rate_unfold. now rewrite Hs, Hc.
Qed.

(** X10.  Neutral sentences do not move the alignment rate: inserting
    a sentence of score zero anywhere in the list leaves it unchanged. *)
Theorem calculate_align_rate_ignores_neutral :
  forall (afinn_score : string -> R) (before after : list string)
         (s : string),
    afinn_score s = 0%R ->
    calculate_align_rate afinn_score (before ++ s :: after)
    = calculate_align_rate afinn_score (before ++ after).
Proof.
  intros afinn_score l1 l2 s Hs. apply align_rate_from.
  - rewrite !map_app, !sum_app. cbn [map]. unfold Np.sum at 2.
    cbn [fold_right]. fold (Np.sum (map afinn_score l2)). rewrite Hs. lra.
  - rewrite !map_app, !count_nonzero_app. cbn [map count_nonzero].
    rewrite Hs. destruct (Req_dec_T 0 0) as [_ | H]; [reflexivity | now elim H].
Qed.

Lemma calculate_align_rate_ignores_neutral_witness :
  calculate_align_rate Sample.score
    (["alice good"%string] ++ "nothing here"%string :: ["bob bad"%string])
  = calculate_align_rate Sample.score
      (["alice good"%string] ++ ["bob bad"%string]).
Proof.
  apply (@calculate_align_rate_ignores_neutral Sample.score).
  reflexivity.
Defined.

Lemma nonzero_sum_bounds (lo hi : R) (l : list R) :
  (forall x, In x l -> x <> 0%R -> (lo <= x <= hi)%R) ->
  (INR (count_nonzero l) * lo <= Np.sum l
   /\ Np.sum l <= INR (count_nonzero l) * hi)%R.
Proof.
  unfold Np.sum. induction l as [| x r IH]; intros H.
  - simpl. lra.
  - destruct IH as [IHlo IHhi]; [intros y Hy; apply H; now right |].
    cbn [count_nonzero fold_right].
    destruct (Req_dec_T x 0) as [Hx | Hx].
    + cbn [Nat.add]. subst x. lra.
    + assert (Hb : (lo <= x <= hi)%R) by (apply H; [now left | exact Hx]).
      change (1 + count_nonzero r)%nat with (S (count_nonzero r)).
      rewrite S_INR. lra.
Qed.

(** X11.  The alignment rate is minus twice the mean of the non-zero
    scores, so it lies within minus twice their range: if every
    non-zero score is between [lo] and [hi], the rate is a finite
    number between [-2 hi] and [-2 lo]. *)
Theorem calculate_align_rate_bounds :
  forall (afinn_score : string -> R) (sentence_list : list string)
         (lo hi : R),
    (exists s, In s sentence_list /\ afinn_score s <> 0%R) ->
    (forall s, In s sentence_list -> afinn_score s <> 0%R ->
               (lo <= afinn_score s <= hi)%R) ->
    exists r,
      calculate_align_rate afinn_score sentence_list = Ok (Np.Fin r)
      /\ (-2 * hi <= r <= -2 * lo)%R.
Proof.
  intros afinn_score sl lo hi [s [Hin Hs]] Hrange.
  rewrite calculate_align_rate_unfold.
  set (scores := map afinn_score sl).
  assert (Hpos : (0 < count_nonzero scores)%nat).
  { apply count_nonzero_positive. exists (afinn_score s).
    split; [now apply in_map | assumption]. }
  assert (Hn : (0 < INR (count_nonzero scores))%R) by (now apply lt_0_INR).
  destruct (@nonzero_sum_bounds lo hi scores) as [Hlo Hhi].
  { intros x Hx Hx0. apply in_map_iff in Hx as [t [<- Ht]]. now apply Hrange. }
  rewrite div_finite by lra. cbn [Np.mul].
  eexists. split; [reflexivity |].
  set (n := INR (count_nonzero scores)) in *.
  set (q := (Np.sum scores / n)%R).
  assert (Hq : (q * n = Np.sum scores)%R) by (unfold q; field; lra).
  split; nra.
Qed.

Lemma calculate_align_rate_bounds_witness :
  exists r,
    calculate_align_rate Sample.score
      ["alice good"; "bob bad"; "nothing here"]%string = Ok (Np.Fin r)
    /\ (-2 * 2 <= r <= -2 * -1)%R.
Proof.
  apply (@calculate_align_rate_bounds Sample.score
           ["alice good"; "bob bad"; "nothing here"]%string (-1)%R 2%R).
  - exists "alice good"%string. split; [now left |].
    change (Sample.score "alice good") with 2%R. lra.
  - intros s [<- | [<- | [<- | []]]] _.
    + change (Sample.score "alice good") with 2%R. lra.
    + change (Sample.score "bob bad") with (-1)%R. lra.
    + change (Sample.score "nothing here") with 0%R. lra.
Defined.

Lemma sum_permutation (l m : list R) :
  Permutation l m -> Np.sum l = Np.sum m.
Proof.
  unfold Np.sum. induction 1; simpl; lra.
Qed.

Lemma count_nonzero_permutation (l m : list R) :
  Permutation l m -> count_nonzero l = count_nonzero m.
Proof.
  induction 1; simpl; lia.
Qed.

(** X12.  The alignment rate does not depend on the order of the
    sentences. *)
Theorem calculate_align_rate_order_free :
  forall (afinn_score : string -> R) (sentence_list reordered : list string),
    Permutation sentence_list reordered ->
    calculate_align_rate afinn_score sentence_list
    = calculate_align_rate afinn_score reordered.
Proof.
  intros afinn_score sl sl' HP.
  apply align_rate_from.
  - apply sum_permutation. now apply Permutation_map.
  - apply count_nonzero_permutation. now apply Permutation_map.
Qed.

Lemma calculate_align_rate_order_free_witness :
  calculate_align_rate Sample.score ["alice good"; "bob bad"]%string
  = calculate_align_rate Sample.score ["bob bad"; "alice good"]%string.
Proof.
  apply (@calculate_align_rate_order_free Sample.score).
  apply perm_swap.
Defined.


(** ** More on the matrix builder *)

(** Every cell of the two matrices, on a vocabulary the vectorizer
    accepts. *)
Lemma calculate_matrix_all_cells (afinn_score : string -> R)
  (analyze : option string -> string -> list string)
  (names sentence_list : list string) (align_rate : Np.float64) :
  names <> [] -> NoDup names ->
  exists C S,
    calculate_matrix afinn_score analyze names sentence_list align_rate
    = Ok (C, S)
    /\ is_shape (length names) (length names) C
    /\ is_shape (length names) (length names) S
    /\ forall i j, (i < length names)%nat -> (j < length names)%nat ->
         cell C i j
         = Some (if (j <? i)%nat
                 then Z.of_nat (length (together analyze names i j sentence_list))
                 else 0%Z)
         /\ cell S i j
            = Some (if (j <? i)%nat
                    then Np.add
                           (Np.Fin (Np.sum (map afinn_score
                              (together analyze names i j sentence_list))))
                           (Np.mul align_rate
                              (Np.of_int (Z.of_nat (length
                                 (together analyze names i j sentence_list)))))
                    else Np.Fin 0).
Proof.
  intros Hne Hnd. rewrite calculate_matrix_form.
  rewrite (proj2 (validate_vocabulary_Ok names) (conj Hne Hnd)).
  cbn [bind]. do 2 eexists. split; [reflexivity |].
  pose proof (raw_cooccurrence_shape analyze names sentence_list) as HC.
  pose proof (raw_sentiment_shape afinn_score analyze names sentence_list) as HS.
  split; [now apply lower_shape |].
  split; [apply lower_shape; now apply zip_with_shape |].
  intros i j Hi Hj. unfold together.
  assert (HCc : cell (raw_cooccurrence analyze names sentence_list) i j
               = Some (Z.of_nat (length (filter (mentions_both analyze names i j)
                                                sentence_list)))).
  { rewrite raw_cooccurrence_cell by lia. now rewrite presence_products. }
  assert (HSc : cell (raw_sentiment afinn_score analyze names sentence_list) i j
               = Some (Np.sum (map afinn_score
                         (filter (mentions_both analyze names i j)
                                 sentence_list)))).
  { rewrite raw_sentiment_cell by lia. now rewrite scored_products. }
  rewrite !cell_lower.
  rewrite (cell_zip_with _ _ _ _ _ HSc HCc), HCc. cbn [option_map].
  split; reflexivity.
Qed.

(** X13.  The builder raises exactly when the vectorizer refuses the
    vocabulary: [ValueError] on an empty or repeating name list, two
    K x K matrices on every other one, whatever the sentences, their
    scores and the alignment rate (a [nan] rate included). *)
Theorem calculate_matrix_raises_iff_invalid :
  forall (afinn_score : string -> R)
         (analyze : option string -> string -> list string)
         (name_list sentence_list : list string) (align_rate : Np.float64),
    (name_list = [] \/ ~ NoDup name_list ->
     calculate_matrix afinn_score analyze name_list sentence_list align_rate
     = Raise ValueError)
    /\ (name_list <> [] -> NoDup name_list ->
        exists C S,
          calculate_matrix afinn_score analyze name_list sentence_list
            align_rate = Ok (C, S)
          /\ is_shape (length name_list) (length name_list) C
          /\ is_shape (length name_list) (length name_list) S).
Proof.
  intros afinn_score analyze names sl align. split.
  - intros H. rewrite calculate_matrix_form.
    destruct (validate_vocabulary names) as [[] |] eqn:E.
    + apply validate_vocabulary_Ok in E. tauto.
    + cbn [bind]. f_equal. unfold validate_vocabulary in E.
      destruct (has_duplicate names); [congruence |].
      destruct names; congruence.
  - intros Hne Hnd.
    destruct (@calculate_matrix_all_cells afinn_score analyze names sl align
                Hne Hnd) as [C [S [H [HC [HS _]]]]].
    now exists C, S.
Qed.

Lemma calculate_matrix_raises_iff_invalid_witness :
  calculate_matrix Sample.score Sample.analyze ["alice"; "alice"]%string
    Sample.sentences Np.NaN = Raise ValueError
  /\ exists C S,
       calculate_matrix Sample.score Sample.analyze Sample.pair
         Sample.sentences Np.NaN = Ok (C, S)
       /\ is_shape 2 2 C /\ is_shape 2 2 S.
Proof.
  split.
  - apply (proj1 (calculate_matrix_raises_iff_invalid Sample.score
                    Sample.analyze ["alice"; "alice"]%string
                    Sample.sentences Np.NaN)).
    right. intros H. inversion H as [| ? ? Hin _]; subst.
    apply Hin. now left.
  - apply (proj2 (calculate_matrix_raises_iff_invalid Sample.score
                    Sample.analyze Sample.pair Sample.sentences Np.NaN)).
    + discriminate.
    + exact sample_pair_NoDup.
Defined.

Lemma length_filter_andb_l {A : Type} (p q : A -> bool) (l : list A) :
  (length (filter (fun x => p x && q x) l) <= length (filter p l))%nat.
Proof.
  induction l as [| x r IH]; simpl; [lia |].
  destruct (p x), (q x); simpl; lia.
Qed.

Lemma length_filter_andb_r {A : Type} (p q : A -> bool) (l : list A) :
  (length (filter (fun x => p x && q x) l) <= length (filter q l))%nat.
Proof.
  induction l as [| x r IH]; simpl; [lia |].
  destruct (p x), (q x); simpl; lia.
Qed.

(** X14.  Every co-occurrence cell is a count between zero and the
    number of sentences that mention either of its two names; in
    particular it never exceeds the number of sentences. *)
Theorem cooccurrence_bounds :
  forall (afinn_score : string -> R)
         (analyze : option string -> string -> list string)
         (name_list sentence_list : list string) (align_rate : Np.float64)
         (C : list (list Z)) (S : list (list Np.float64)) (i j : nat),
    calculate_matrix afinn_score analyze name_list sentence_list align_rate
    = Ok (C, S) ->
    (i < length name_list)%nat -> (j < length name_list)%nat ->
    exists c,
      cell C i j = Some c
      /\ (0 <= c)%Z
      /\ (c <= Z.of_nat (length (mentioning analyze name_list i sentence_list)))%Z
      /\ (c <= Z.of_nat (length (mentioning analyze name_list j sentence_list)))%Z
      /\ (c <= Z.of_nat (length sentence_list))%Z.
Proof.
  intros afinn_score analyze names sl align C S i j Hok Hi Hj.
  assert (Hvalid : names <> [] /\ NoDup names).
  { apply validate_vocabulary_Ok. rewrite calculate_matrix_form in Hok.
    destruct (validate_vocabulary names) as [[] |]; [reflexivity | discriminate]. }
  destruct (@calculate_matrix_all_cells afinn_score analyze names sl align
              (proj1 Hvalid) (proj2 Hvalid)) as [C' [S' [H' [_ [_ Hcells]]]]].
  rewrite H' in Hok. injection Hok as <- <-.
  destruct (Hcells i j Hi Hj) as [HC _]. eexists. split; [exact HC |].
  pose proof (length_filter_andb_l
                (fun s => nth i (presence_vector analyze names s) false)
                (fun s => nth j (presence_vector analyze names s) false) sl) as H1.
  pose proof (length_filter_andb_r
                (fun s => nth i (presence_vector analyze names s) false)
                (fun s => nth j (presence_vector analyze names s) false) sl) as H2.
  pose proof (filter_length_le
                (fun s => nth i (presence_vector analyze names s) false) sl) as H3.
  unfold together, mentioning, mentions_both. cbv beta in *.
  destruct (j <? i)%nat; lia.
Qed.

Lemma cooccurrence_bounds_witness :
  exists c,
    cell [ [0; 0]; [2; 0] ]%Z 1 0 = Some c
    /\ (0 <= c)%Z
    /\ (c <= Z.of_nat (length (mentioning Sample.analyze Sample.pair 1
                                 Sample.sentences)))%Z
    /\ (c <= Z.of_nat (length (mentioning Sample.analyze Sample.pair 0
                                 Sample.sentences)))%Z
    /\ (c <= Z.of_nat (length Sample.sentences))%Z.
Proof.
  apply (@cooccurrence_bounds Sample.score Sample.analyze Sample.pair
           Sample.sentences (Np.Fin 1) _ _ 1%nat 0%nat sample_matrices).
  - simpl. lia.
  - simpl. lia.
Defined.

Lemma together_app (analyze : option string -> string -> list string)
  (names : list string) (i j : nat) (sl1 sl2 : list string) :
  together analyze names i j (sl1 ++ sl2)
  = together analyze names i j sl1 ++ together analyze names i j sl2.
Proof. unfold together. apply filter_app. Qed.

(** X15.  The co-occurrence matrix is additive over the corpus:
    built from two sentence lists and from their concatenation, every
    cell of the joint matrix is the sum of the two separate cells.  The
    cells are integers and the alignment rates play no part, so the
    three calls may differ in them. *)
Theorem calculate_matrix_additive :
  forall (afinn_score : string -> R)
         (analyze : option string -> string -> list string)
         (name_list first second : list string) (r1 r2 r : Np.float64),
    name_list <> [] -> NoDup name_list ->
    exists C1 S1 C2 S2 C S,
      calculate_matrix afinn_score analyze name_list first r1 = Ok (C1, S1)
      /\ calculate_matrix afinn_score analyze name_list second r2
         = Ok (C2, S2)
      /\ calculate_matrix afinn_score analyze name_list (first ++ second) r
         = Ok (C, S)
      /\ forall i j, (i < length name_list)%nat -> (j < length name_list)%nat ->
           exists c1 c2,
             cell C1 i j = Some c1 /\ cell C2 i j = Some c2
             /\ cell C i j = Some (c1 + c2)%Z.
Proof.
  intros afinn_score analyze names sl1 sl2 r1 r2 r Hne Hnd.
  destruct (@calculate_matrix_all_cells afinn_score analyze names sl1
              r1 Hne Hnd) as [C1 [S1 [H1 [_ [_ Hc1]]]]].
  destruct (@calculate_matrix_all_cells afinn_score analyze names sl2
              r2 Hne Hnd) as [C2 [S2 [H2 [_ [_ Hc2]]]]].
  destruct (@calculate_matrix_all_cells afinn_score analyze names (sl1 ++ sl2)
              r Hne Hnd) as [C [S [H [_ [_ Hc]]]]].
  exists C1, S1, C2, S2, C, S. repeat (split; [assumption |]).
  intros i j Hi Hj.
  destruct (Hc1 i j Hi Hj) as [HC1 _].
  destruct (Hc2 i j Hi Hj) as [HC2 _].
  destruct (Hc i j Hi Hj) as [HC _].
  rewrite HC1, HC2, HC.
  rewrite together_app, length_app, Nat2Z.inj_add.
  destruct (j <? i)%nat.
  - do 2 eexists. repeat (split; [reflexivity |]). reflexivity.
  - exists 0%Z, 0%Z. repeat (split; [reflexivity |]). reflexivity.
Qed.

Lemma calculate_matrix_additive_witness :
  exists C1 S1 C2 S2 C S,
    calculate_matrix Sample.score Sample.analyze Sample.pair
      ["alice and bob good"]%string (Np.Fin 1) = Ok (C1, S1)
    /\ calculate_matrix Sample.score Sample.analyze Sample.pair
         ["alice bad bob"; "bob great"]%string Np.NaN = Ok (C2, S2)
    /\ calculate_matrix Sample.score Sample.analyze Sample.pair
         (["alice and bob good"%string]
          ++ ["alice bad bob"%string; "bob great"%string])
         (Np.Fin 2) = Ok (C, S)
    /\ forall i j, (i < 2)%nat -> (j < 2)%nat ->
         exists c1 c2,
           cell C1 i j = Some c1 /\ cell C2 i j = Some c2
           /\ cell C i j = Some (c1 + c2)%Z.
Proof.
  apply (@calculate_matrix_additive Sample.score Sample.analyze Sample.pair
           ["alice and bob good"]%string
           ["alice bad bob"; "bob great"]%string (Np.Fin 1) Np.NaN (Np.Fin 2)).
  - discriminate.
  - exact sample_pair_NoDup.
Defined.

(** X16.  On an empty corpus the builder returns the K x K zero
    matrices when the alignment rate is finite; with the [nan] rate
    that [calculate_align_rate] gives for such a corpus, every cell
    below the diagonal of the sentiment matrix is [nan]. *)
Theorem calculate_matrix_empty_corpus :
  forall (afinn_score : string -> R)
         (analyze : option string -> string -> list string)
         (name_list : list string) (align_rate : Np.float64),
    name_list <> [] -> NoDup name_list ->
    exists C S,
      calculate_matrix afinn_score analyze name_list [] align_rate = Ok (C, S)
      /\ forall i j, (i < length name_list)%nat -> (j < length name_list)%nat ->
           cell C i j = Some 0%Z
           /\ (forall a, align_rate = Np.Fin a -> cell S i j = Some (Np.Fin 0))
           /\ (align_rate = Np.NaN -> (j < i)%nat -> cell S i j = Some Np.NaN).
Proof.
  intros afinn_score analyze names align Hne Hnd.
  destruct (@calculate_matrix_all_cells afinn_score analyze names []
              align Hne Hnd) as [C [S [H [_ [_ Hc]]]]].
  exists C, S. split; [exact H |].
  intros i j Hi Hj. destruct (Hc i j Hi Hj) as [HC HS].
  rewrite HC, HS. cbn [together filter map length Z.of_nat].
  split; [now destruct (j <? i)%nat |]. split.
  - intros a ->. destruct (j <? i)%nat; [| reflexivity].
    cbn [Np.add Np.mul Np.of_int Np.sum fold_right]. do 2 f_equal. lra.
  - intros -> Hji. apply Nat.ltb_lt in Hji. now rewrite Hji.
Qed.

Lemma calculate_matrix_empty_corpus_witness :
  exists C S,
    calculate_matrix Sample.score Sample.analyze Sample.pair [] Np.NaN
    = Ok (C, S)
    /\ forall i j, (i < 2)%nat -> (j < 2)%nat ->
         cell C i j = Some 0%Z
         /\ (forall a, Np.NaN = Np.Fin a -> cell S i j = Some (Np.Fin 0))
         /\ (Np.NaN = Np.NaN -> (j < i)%nat -> cell S i j = Some Np.NaN).
Proof.
  apply (@calculate_matrix_empty_corpus Sample.score Sample.analyze
           Sample.pair Np.NaN).
  - discriminate.
  - exact sample_pair_NoDup.
Defined.


(** ** More on the edge projector *)

(** X17.  A mode string outside the three is not rejected: on a matrix
    of two names or more the loop reads the never-assigned [weight] and
    the call ends in [UnboundLocalError]. *)
Theorem unknown_mode_is_unbound_local :
  forall (matrix : list (list Np.float64)) (mode : string)
         (name_list : list string) (K : nat),
    ~ known_mode mode -> is_shape K K matrix -> (2 <= K)%nat ->
    (K <= length name_list)%nat ->
    matrix_to_edge_list matrix mode name_list = Raise UnboundLocalError.
Proof. intros. now apply matrix_to_edge_list_unknown_mode with K. Qed.

Lemma unknown_mode_is_unbound_local_witness :
  matrix_to_edge_list Sample.lower_matrix "cooccurrence" Sample.names
  = Raise UnboundLocalError.
Proof.
  apply (@unknown_mode_is_unbound_local Sample.lower_matrix "cooccurrence"
           Sample.names 3).
  - intros [H | [H | H]]; discriminate H.
  - exact sample_shape.
  - lia.
  - simpl. lia.
Defined.

(** X18.  A matrix without cells (no rows, or rows without columns)
    makes [np.max] raise [ValueError] whatever the mode and the names;
    a 1 x 1 matrix yields the empty edge list whatever the mode string,
    an unknown one included. *)
Theorem degenerate_matrices :
  forall (matrix : list (list Np.float64)) (mode : string)
         (name_list : list string),
    (concat matrix = [] ->
     matrix_to_edge_list matrix mode name_list = Raise ValueError)
    /\ (is_shape 1 1 matrix ->
        matrix_to_edge_list matrix mode name_list = Ok []).
Proof.
  intros matrix mode names. split.
  - intros H. unfold matrix_to_edge_list. now rewrite H.
  - intros Hshape. unfold matrix_to_edge_list.
    rewrite where_zero_triu_ones.
    destruct (amax_nonempty
                (square_concat_nonempty (Nat.lt_0_1) Hshape)) as [m ->].
    cbn [bind]. replace (length matrix) with 1%nat by (symmetry; apply Hshape).
    cbn [lower_positions seq flat_map map app].
    destruct (mode =? "co-occurrence")%string;
      destruct (mode =? "sentiment")%string;
      destruct (mode =? "bare")%string; reflexivity.
Qed.

Lemma degenerate_matrices_witness :
  matrix_to_edge_list [[]; []] "sentiment" Sample.names = Raise ValueError
  /\ matrix_to_edge_list [[Np.Fin 3]] "anything" [] = Ok [].
Proof.
  split.
  - apply (proj1 (degenerate_matrices [[]; []] "sentiment" Sample.names)).
    reflexivity.
  - apply (proj2 (degenerate_matrices [[Np.Fin 3]] "anything" [])).
    split; [reflexivity | repeat constructor].
Defined.

(** Outside bare mode the loop visits every position: the first one
    whose row index is past the end of the name list raises. *)
Lemma edge_loop_index_error (mode : string) (w c : list (list Np.float64))
  (names : list string) (locs : list (nat * nat)) :
  (mode =? "bare")%string = false ->
  (forall p, In p locs ->
     (snd p < fst p)%nat
     /\ (exists x, cell w (fst p) (snd p) = Some x)
     /\ (exists y, cell c (fst p) (snd p) = Some y)) ->
  (exists p, In p locs /\ (length names <= fst p)%nat) ->
  forall acc,
    edge_loop mode (Some w) (Some c) names locs acc = Raise IndexError.
Proof.
  intros Hmode. induction locs as [| [i0 i1] rest IH]; intros Hlocs Hbad acc.
  - destruct Hbad as [p [[] _]].
  - destruct (Hlocs (i0, i1)) as [Hlt [[x Hx] [y Hy]]]; [now left |].
    cbn [fst snd] in *.
    cbn [edge_loop]. rewrite Hmode. cbn [negb bind getvar].
    unfold getitem, getcell.
    destruct (nth_error names i0) as [a |] eqn:Ea; [| reflexivity].
    assert (Hi0 : (i0 < length names)%nat)
      by (apply nth_error_Some; congruence).
    destruct (nth_error names i1) as [b |] eqn:Eb;
      [| apply nth_error_None in Eb; lia].
    cbn [bind]. rewrite Hx, Hy. cbn [bind].
    apply IH.
    + intros p Hp. apply Hlocs. now right.
    + destruct Hbad as [p [[<- | Hp] Hlen]].
      * cbn [fst] in Hlen. lia.
      * now exists p.
Qed.

(** X19.  With fewer names than matrix rows the projector raises
    [IndexError] in co-occurrence and sentiment mode (in bare mode only
    if a kept position reaches past the names). *)
Theorem short_name_list_is_index_error :
  forall (matrix : list (list Np.float64)) (mode : string)
         (name_list : list string) (K : nat),
    mode = "co-occurrence"%string \/ mode = "sentiment"%string ->
    is_shape K K matrix -> (2 <= K)%nat -> (length name_list < K)%nat ->
    matrix_to_edge_list matrix mode name_list = Raise IndexError.
Proof.
  intros matrix mode names K Hmode Hshape HK Hnames.
  assert (Hknown : known_mode mode) by (destruct Hmode; [left | right; left]; assumption).
  rewrite (matrix_to_edge_list_known matrix names Hknown).
  assert (Hpos : (0 < K)%nat) by lia.
  destruct (amax_nonempty (square_concat_nonempty Hpos Hshape)) as [m ->].
  cbn [bind].
  replace (length matrix) with K by (symmetry; apply Hshape).
  apply edge_loop_index_error.
  - destruct Hmode as [-> | ->]; reflexivity.
  - intros [i j] Hp. apply in_lower_positions in Hp. cbn [fst snd].
    destruct (@cell_in_shape _ matrix K K i j Hshape) as [x Hx]; try lia.
    rewrite !cell_map_map, Hx. cbn [option_map]. repeat split; eauto; lia.
  - exists (K - 1, 0)%nat. split; [apply in_lower_positions; lia |].
    cbn [fst]. lia.
Qed.

Lemma short_name_list_is_index_error_witness :
  matrix_to_edge_list Sample.lower_matrix "sentiment" Sample.pair
  = Raise IndexError.
Proof.
  apply (@short_name_list_is_index_error Sample.lower_matrix "sentiment"
           Sample.pair 3).
  - now right.
  - exact sample_shape.
  - lia.
  - simpl. lia.
Defined.

Lemma keeps_outside_bare (matrix : list (list Np.float64)) (mode : string)
  (max_abs : Np.float64) (K : nat) :
  (mode =? "bare")%string = false ->
  filter (keeps matrix mode max_abs) (lower_positions K) = lower_positions K.
Proof.
  intros Hmode. apply forallb_filter_id, forallb_forall.
  intros p _. unfold keeps. now rewrite Hmode.
Qed.

(** X20.  In co-occurrence and sentiment mode the result is the
    complete graph on the first K names: one edge for each of the
    K(K-1)/2 pairs, listed row by row ((1,0), (2,0), (2,1), ...),
    whatever the matrix holds. *)
Theorem complete_graph_outside_bare :
  forall (matrix : list (list Np.float64)) (mode : string)
         (name_list : list string) (K : nat),
    mode = "co-occurrence"%string \/ mode = "sentiment"%string ->
    (0 < K)%nat -> is_shape K K matrix -> (K <= length name_list)%nat ->
    exists edges,
      matrix_to_edge_list matrix mode name_list = Ok edges
      /\ (2 * length edges = K * (K - 1))%nat
      /\ map endpoints edges
         = map (fun p => (nth (fst p) name_list ""%string,
                          nth (snd p) name_list ""%string))
               (lower_positions K).
Proof.
  intros matrix mode names K Hmode HK Hshape Hnames.
  assert (Hknown : known_mode mode) by (destruct Hmode; [left | right; left]; assumption).
  destruct (amax_nonempty (square_concat_nonempty HK Hshape)) as [m Hm].
  rewrite (matrix_to_edge_list_closed names Hknown Hshape Hnames Hm).
  eexists. split; [reflexivity |].
  unfold projected_edges.
  replace (length matrix) with K by (symmetry; apply Hshape).
  rewrite keeps_outside_bare by (destruct Hmode as [-> | ->]; reflexivity).
  split.
  - rewrite length_map. apply length_lower_positions.
  - rewrite map_map. reflexivity.
Qed.

Lemma complete_graph_outside_bare_witness :
  exists edges,
    matrix_to_edge_list Sample.lower_matrix "co-occurrence" Sample.names
    = Ok edges
    /\ (2 * length edges = 3 * (3 - 1))%nat
    /\ map endpoints edges
       = [("bob", "alice"); ("carl", "alice"); ("carl", "bob")]%string.
Proof.
  apply (@complete_graph_outside_bare Sample.lower_matrix "co-occurrence"
           Sample.names 3).
  - now left.
  - lia.
  - exact sample_shape.
  - simpl. lia.
Defined.

Lemma filter_map_swap' {A B : Type} (f : A -> B) (p : B -> bool)
  (l : list A) :
  filter p (map f l) = map f (filter (fun a => p (f a)) l).
Proof.
  induction l as [| a r IH]; [reflexivity |]. simpl.
  destruct (p (f a)); simpl; now rewrite IH.
Qed.

(** X21.  The bare projection is the sentiment projection with the
    faint edges removed: the same edges with the same weights and
    colours, in the same order, minus those whose weight does not
    exceed 0.0001. *)
Theorem bare_is_filtered_sentiment :
  forall (matrix : list (list Np.float64)) (name_list : list string)
         (K : nat),
    (0 < K)%nat -> is_shape K K matrix -> (K <= length name_list)%nat ->
    exists edges,
      matrix_to_edge_list matrix "sentiment" name_list = Ok edges
      /\ matrix_to_edge_list matrix "bare" name_list
         = Ok (filter (fun e => Np.gt (weight e) (Np.Fin 0.0001)) edges).
Proof.
  intros matrix names K HK Hshape Hnames.
  destruct (amax_nonempty (square_concat_nonempty HK Hshape)) as [m Hm].
  rewrite (@matrix_to_edge_list_closed matrix "sentiment" names K m);
    try assumption; [| right; now left].
  rewrite (@matrix_to_edge_list_closed matrix "bare" names K m);
    try assumption; [| right; now right].
  eexists. split; [reflexivity |]. f_equal.
  unfold projected_edges.
  rewrite (@keeps_outside_bare matrix "sentiment" m) by reflexivity.
  rewrite filter_map_swap'. reflexivity.
Qed.

Lemma bare_is_filtered_sentiment_witness :
  exists edges,
    matrix_to_edge_list Sample.lower_matrix "sentiment" Sample.names = Ok edges
    /\ matrix_to_edge_list Sample.lower_matrix "bare" Sample.names
       = Ok (filter (fun e => Np.gt (weight e) (Np.Fin 0.0001)) edges).
Proof.
  apply (@bare_is_filtered_sentiment Sample.lower_matrix Sample.names 3).
  - lia.
  - exact sample_shape.
  - simpl. lia.
Defined.

(** ** Finite matrices: the maximum and bounds *)

Lemma fold_maximum_finite (rest : list R) (a : R) :
  fold_left Np.maximum (map Np.abs (map Np.Fin rest)) (Np.Fin a)
  = Np.Fin (fold_left Rmax (map Rabs rest) a).
Proof.
  revert a. induction rest as [| x r IH]; intros a; [reflexivity |].
  cbn [map fold_left Np.abs Np.maximum]. apply IH.
Qed.

Lemma concat_finite (V : list (list R)) :
  concat (finite_matrix V) = map Np.Fin (concat V).
Proof. unfold finite_matrix. symmetry. apply concat_map. Qed.

Lemma amax_finite (V : list (list R)) (v : R) (rest : list R) :
  concat V = v :: rest ->
  Np.amax (map Np.abs (concat (finite_matrix V)))
  = Ok (Np.Fin (real_max_abs v rest)).
Proof.
  intros H. rewrite concat_finite, H. cbn [map Np.amax Np.abs].
  now rewrite fold_maximum_finite.
Qed.

Lemma fold_Rmax_ge_init (l : list R) (a : R) :
  (a <= fold_left Rmax l a)%R.
Proof.
  revert a. induction l as [| x r IH]; intros a; simpl; [lra |].
  eapply Rle_trans; [apply (Rmax_l a x) | apply IH].
Qed.

Lemma fold_Rmax_ge_member (l : list R) (a x : R) :
  In x l -> (x <= fold_left Rmax l a)%R.
Proof.
  revert a. induction l as [| y r IH]; intros a Hin; [contradiction |].
  simpl. destruct Hin as [-> | Hin].
  - eapply Rle_trans; [apply (Rmax_r a x) | apply fold_Rmax_ge_init].
  - now apply IH.
Qed.

Lemma real_max_abs_bound (v x : R) (rest : list R) :
  In x (v :: rest) -> (Rabs x <= real_max_abs v rest)%R.
Proof.
  unfold real_max_abs. intros [<- | Hin].
  - apply fold_Rmax_ge_init.
  - apply fold_Rmax_ge_member. now apply in_map.
Qed.

Lemma ln_monotone (x y : R) : (0 < x)%R -> (x <= y)%R -> (ln x <= ln y)%R.
Proof.
  intros Hx [Hlt | ->]; [| lra].
  left. now apply ln_increasing.
Qed.

Lemma cell_finite (V : list (list R)) (i j : nat) (x : Np.float64) :
  cell (finite_matrix V) i j = Some x ->
  exists v, x = Np.Fin v /\ In v (concat V).
Proof.
  unfold finite_matrix. rewrite cell_map_map.
  destruct (cell V i j) as [v |] eqn:E; [| discriminate].
  cbn [option_map]. intros H. injection H as <-. exists v.
  split; [reflexivity |].
  unfold cell in E. destruct (nth_error V i) as [row |] eqn:Er; [| discriminate].
  apply in_concat. exists row. split; eapply nth_error_In; eassumption.
Qed.

(** The emitted edges of a finite matrix with a non-zero cell: the
    normalised value of each lies between -1 and 1. *)
Lemma finite_edges_normalised (V : list (list R)) (mode : string)
  (names : list string) (edges : list edge) :
  known_mode mode ->
  (exists v, In v (concat V) /\ v <> 0%R) ->
  matrix_to_edge_list (finite_matrix V) mode names = Ok edges ->
  forall e, In e edges ->
    exists m, (-1 <= m <= 1)%R
              /\ weight e = spec_weight mode (Np.Fin m)
              /\ color e = spec_color mode (Np.Fin m)
              /\ exists v top, In v (concat V) /\ (0 < top)%R
                               /\ m = (v / top)%R.
Proof.
  intros Hmode [v0 [Hv0 Hnz]] Hok e He.
  destruct (matrix_to_edge_list_emitted _ _ Hmode Hok) as [mx [Hmx HF]].
  destruct (concat V) as [| v rest] eqn:Econcat; [contradiction |].
  rewrite (amax_finite V Econcat) in Hmx. injection Hmx as <-.
  assert (Htop : (0 < real_max_abs v rest)%R).
  { pose proof (@real_max_abs_bound v v0 rest Hv0) as Hb.
    pose proof (Rabs_pos_lt v0 Hnz). lra. }
  apply In_nth_error in He as [n Hn].
  destruct (Forall2_nth_error_r _ HF Hn)
    as [[i j] [_ [_ [_ [x [Hx [Hw Hc]]]]]]].
  cbn [fst snd] in Hx.
  destruct (@cell_finite V i j _ Hx) as [u [-> Hu]].
  rewrite Econcat in Hu.
  pose proof (@real_max_abs_bound v u rest Hu) as Hb.
  rewrite div_finite in Hw, Hc by lra.
  exists (u / real_max_abs v rest)%R.
  split.
  { pose proof (Rle_abs u) as Hu1. pose proof (Rle_abs (- u)) as Hu2.
    rewrite Rabs_Ropp in Hu2.
    set (top := real_max_abs v rest) in *.
    set (q := (u / top)%R).
    assert (Hq : (q * top = u)%R) by (unfold q; field; lra).
    split; nra. }
  split; [exact Hw |]. split; [exact Hc |].
  exists u, (real_max_abs v rest). repeat split; auto.
Qed.

(** X23.  In sentiment and bare mode, on a finite matrix with a
    non-zero cell, every edge has a finite colour between -2000 and
    2000 and a finite weight between 0 and [ln(1001) * 0.7]. *)
Theorem signed_modes_bounds :
  forall (V : list (list R)) (mode : string) (name_list : list string)
         (edges : list edge),
    mode = "sentiment"%string \/ mode = "bare"%string ->
    (exists v, In v (concat V) /\ v <> 0%R) ->
    matrix_to_edge_list (finite_matrix V) mode name_list = Ok edges ->
    forall e, In e edges ->
      exists w c,
        weight e = Np.Fin w /\ color e = Np.Fin c
        /\ (0 <= w <= ln 1001 * 0.7)%R /\ (-2000 <= c <= 2000)%R.
Proof.
  intros V mode names edges Hmode Hnz Hok e He.
  assert (Hknown : known_mode mode) by (destruct Hmode; [right; left | right; right]; assumption).
  assert (Hsigned : mode <> "co-occurrence"%string)
    by (destruct Hmode as [-> | ->]; discriminate).
  destruct (@finite_edges_normalised V mode names edges Hknown Hnz Hok e He)
    as [m [Hm [Hw [Hc _]]]].
  rewrite spec_weight_signed in Hw by assumption.
  rewrite spec_color_signed in Hc by assumption.
  do 2 eexists. split; [exact Hw |]. split; [exact Hc |].
  assert (Habs : (0 <= Rabs (1000 * m) <= 1000)%R).
  { split; [apply Rabs_pos |]. apply Rabs_le. lra. }
  split; [| lra].
  assert (H0 : (0 <= ln (Rabs (1000 * m) + 1))%R).
  { rewrite <- ln_1. apply ln_monotone; lra. }
  assert (H1 : (ln (Rabs (1000 * m) + 1) <= ln 1001)%R)
    by (apply ln_monotone; lra).
  lra.
Qed.

Lemma signed_modes_bounds_witness :
  exists w c,
    Np.Fin (ln 501 * 0.7) = Np.Fin w /\ Np.Fin 1000 = Np.Fin c
    /\ (0 <= w <= ln 1001 * 0.7)%R /\ (-2000 <= c <= 2000)%R.
Proof.
  refine (@signed_modes_bounds
            [ [0; 0; 0]; [2; 0; 0]; [0; 1; 0] ]%R "sentiment" Sample.names
            _ (or_introl eq_refl) _ sample_sentiment
            (Edge "carl" "bob" (Np.Fin (ln 501 * 0.7)) (Np.Fin 1000)) _).
  - exists 2%R. split; [simpl; auto 10 | lra].
  - simpl. auto.
Defined.

(** X24.  In co-occurrence mode, on a finite matrix without negative
    cells and with a non-zero cell (what [calculate_matrix] returns for
    a corpus with a co-occurrence), every edge has a finite weight
    between 0 and [ln(2001) * 0.7] and a finite colour between 0 and
    [ln(2001)]. *)
Theorem co_occurrence_bounds :
  forall (V : list (list R)) (name_list : list string) (edges : list edge),
    (forall v, In v (concat V) -> (0 <= v)%R) ->
    (exists v, In v (concat V) /\ v <> 0%R) ->
    matrix_to_edge_list (finite_matrix V) "co-occurrence" name_list
    = Ok edges ->
    forall e, In e edges ->
      exists w c,
        weight e = Np.Fin w /\ color e = Np.Fin c
        /\ (0 <= w <= ln 2001 * 0.7)%R /\ (0 <= c <= ln 2001)%R.
Proof.
  intros V names edges Hpos Hnz Hok e He.
  destruct (@finite_edges_normalised V "co-occurrence" names edges
              (or_introl eq_refl) Hnz Hok e He)
    as [m [Hm [Hw [Hc [v [top [Hv [Htop ->]]]]]]]].
  assert (Hq : (0 <= v / top)%R).
  { apply Rmult_le_pos; [now apply Hpos |].
    left. now apply Rinv_0_lt_compat. }
  rewrite spec_weight_co_occurrence in Hw by lra.
  rewrite spec_color_co_occurrence in Hc by lra.
  do 2 eexists. split; [exact Hw |]. split; [exact Hc |].
  assert (H0 : (0 <= ln (2000 * (v / top) + 1))%R).
  { rewrite <- ln_1. apply ln_monotone; lra. }
  assert (H1 : (ln (2000 * (v / top) + 1) <= ln 2001)%R)
    by (apply ln_monotone; lra).
  lra.
Qed.

Lemma co_occurrence_bounds_witness :
  exists w c,
    Np.Fin (ln 1001 * 0.7) = Np.Fin w /\ Np.Fin (ln 1001) = Np.Fin c
    /\ (0 <= w <= ln 2001 * 0.7)%R /\ (0 <= c <= ln 2001)%R.
Proof.
  refine (@co_occurrence_bounds
            [ [0; 0; 0]; [2; 0; 0]; [0; 1; 0] ]%R Sample.names
            _ _ _ sample_co_occurrence
            (Edge "carl" "bob" (Np.Fin (ln 1001 * 0.7)) (Np.Fin (ln 1001))) _).
  - intros v Hv. simpl in Hv.
    repeat (destruct Hv as [<- | Hv]; [lra |]). destruct Hv.
  - exists 2%R. split; [simpl; auto 10 | lra].
  - simpl. auto.
Defined.

(** X25.  Co-occurrence mode is not meant for signed matrices: a cell
    below the diagonal at or below minus one thousandth of the largest
    absolute value puts the logarithm outside its domain, and its edge
    is emitted with weight [nan] and colour [nan].  The argument of the
    logarithm is then -1 or less, a margin that the rounding of the
    quotient, idealised away here, cannot close. *)
Theorem co_occurrence_negative_cell_is_nan :
  forall (V : list (list R)) (name_list : list string) (K i j : nat)
         (v top : R),
    is_shape K K (finite_matrix V) -> (K <= length name_list)%nat ->
    (j < i < K)%nat -> cell V i j = Some v ->
    Np.amax (map Np.abs (concat (finite_matrix V))) = Ok (Np.Fin top) ->
    (0 < top)%R -> (1000 * v <= - top)%R ->
    exists edges,
      matrix_to_edge_list (finite_matrix V) "co-occurrence" name_list
      = Ok edges
      /\ In (Edge (nth i name_list ""%string) (nth j name_list ""%string)
                  Np.NaN Np.NaN) edges.
Proof.
  intros V names K i j v top Hshape Hnames Hij Hcell Hmax Htop Hneg.
  rewrite (@matrix_to_edge_list_closed (finite_matrix V) "co-occurrence"
             names K (Np.Fin top)); try assumption; [| now left].
  eexists. split; [reflexivity |].
  unfold projected_edges.
  replace (length (finite_matrix V)) with K by (symmetry; apply Hshape).
  rewrite keeps_outside_bare by reflexivity.
  apply in_map_iff. exists (i, j). split; [| now apply in_lower_positions].
  unfold edge_of. cbn [fst snd].
  assert (Hx : cell (finite_matrix V) i j = Some (Np.Fin v)).
  { unfold finite_matrix. now rewrite cell_map_map, Hcell. }
  rewrite (cell_nth _ _ _ (Np.Fin 0) Hx).
  rewrite div_finite by lra.
  assert (Harg : (2000 * (v / top) + 1 <= -1)%R).
  { set (q := (v / top)%R).
    assert (Hq : (q * top = v)%R) by (unfold q; field; lra).
    nra. }
  unfold spec_weight, spec_color. cbn [String.eqb Ascii.eqb Bool.eqb].
  cbn [Np.mul Np.add]. unfold Np.log. rewrite Rsign_neg by lra.
  reflexivity.
Qed.

Lemma co_occurrence_negative_cell_is_nan_witness :
  exists edges,
    matrix_to_edge_list (finite_matrix [ [0; 0]; [-3; 0] ]%R)
      "co-occurrence" Sample.names = Ok edges
    /\ In (Edge "bob" "alice" Np.NaN Np.NaN) edges.
Proof.
  apply (@co_occurrence_negative_cell_is_nan [ [0; 0]; [-3; 0] ]%R
           Sample.names 2 1 0 (-3)%R 3%R).
  - split; [reflexivity | repeat constructor].
  - simpl. lia.
  - lia.
  - reflexivity.
  - cbn [finite_matrix concat app map Np.abs Np.amax fold_left Np.maximum].
    rewrite Rabs_R0, (Rabs_left (-3)) by lra.
    do 2 f_equal. unfold Rmax.
    repeat (destruct (Rle_dec _ _); try lra).
  - lra.
  - lra.
Defined.


(** ** The builder and the projector together *)

Lemma fold_maximum_nan (l : list Np.float64) :
  fold_left Np.maximum l Np.NaN = Np.NaN.
Proof. induction l as [| x r IH]; [reflexivity | exact IH]. Qed.

Lemma fold_maximum_has_nan (l : list Np.float64) (a : Np.float64) :
  In Np.NaN l -> fold_left Np.maximum l a = Np.NaN.
Proof.
  revert a. induction l as [| x r IH]; intros a Hin; [contradiction |].
  cbn [fold_left]. destruct Hin as [-> | Hin].
  - replace (Np.maximum a Np.NaN) with Np.NaN by (now destruct a).
    apply fold_maximum_nan.
  - now apply IH.
Qed.

Lemma amax_has_nan (cells : list Np.float64) :
  In Np.NaN cells -> Np.amax (map Np.abs cells) = Ok Np.NaN.
Proof.
  intros Hin. destruct cells as [| x r]; [contradiction |].
  cbn [map Np.amax]. f_equal. destruct Hin as [-> | Hin].
  - apply fold_maximum_nan.
  - apply fold_maximum_has_nan.
    change Np.NaN with (Np.abs Np.NaN). now apply in_map.
Qed.

Lemma cell_in_concat {A : Type} (M : list (list A)) (i j : nat) (x : A) :
  cell M i j = Some x -> In x (concat M).
Proof.
  unfold cell. intros H.
  destruct (nth_error M i) as [row |] eqn:E; [| discriminate].
  apply in_concat. exists row. split; eapply nth_error_In; eassumption.
Qed.

(** With a [nan] maximum every normalised cell is [nan]. *)
Lemma nan_maximum_projected (matrix : list (list Np.float64)) (mode : string)
  (names : list string) (K : nat) :
  known_mode mode -> is_shape K K matrix -> (K <= length names)%nat ->
  Np.amax (map Np.abs (concat matrix)) = Ok Np.NaN ->
  matrix_to_edge_list matrix mode names
  = Ok (if (mode =? "bare")%string then []
        else map (fun p => Edge (nth (fst p) names ""%string)
                                (nth (snd p) names ""%string) Np.NaN Np.NaN)
                 (lower_positions K)).
Proof.
  intros Hmode Hshape Hnames Hmax.
  rewrite (matrix_to_edge_list_closed names Hmode Hshape Hnames Hmax).
  f_equal. unfold projected_edges.
  replace (length matrix) with K by (symmetry; apply Hshape).
  destruct (mode =? "bare")%string eqn:Ebare.
  - rewrite (@filter_ext _ _ (fun _ => false)).
    + clear. now induction (lower_positions K).
    + intros p. unfold keeps. rewrite Ebare, div_nan_r.
      now rewrite spec_weight_nan.
  - rewrite keeps_outside_bare by assumption.
    apply map_ext. intros p. unfold edge_of.
    now rewrite div_nan_r, spec_weight_nan, spec_color_nan.
Qed.

(** X26.  A corpus without any scored sentence poisons the sentiment
    graph: the alignment rate is [nan], so is every cell below the
    diagonal of the sentiment matrix, and its projection has weight
    and colour [nan] on every edge in sentiment mode and no edge at all
    in bare mode. *)
Theorem neutral_corpus_pipeline :
  forall (afinn_score : string -> R)
         (analyze : option string -> string -> list string)
         (name_list sentence_list : list string),
    NoDup name_list -> (2 <= length name_list)%nat ->
    (forall s, In s sentence_list -> afinn_score s = 0%R) ->
    exists C S,
      calculate_align_rate afinn_score sentence_list = Ok Np.NaN
      /\ calculate_matrix afinn_score analyze name_list sentence_list Np.NaN
         = Ok (C, S)
      /\ (forall i j, (j < i < length name_list)%nat ->
            cell S i j = Some Np.NaN)
      /\ matrix_to_edge_list S "sentiment" name_list
         = Ok (map (fun p => Edge (nth (fst p) name_list ""%string)
                                  (nth (snd p) name_list ""%string)
                                  Np.NaN Np.NaN)
                   (lower_positions (length name_list)))
      /\ matrix_to_edge_list S "bare" name_list = Ok [].
Proof.
  intros afinn_score analyze names sl Hnd HK Hzero.
  assert (Hne : names <> []) by (intros ->; simpl in HK; lia).
  destruct (@calculate_matrix_all_cells afinn_score analyze names sl Np.NaN
              Hne Hnd) as [C [S [H [_ [HS Hcells]]]]].
  exists C, S. split; [now apply align_rate_nan |]. split; [exact H |].
  assert (Hlow : forall i j, (j < i < length names)%nat ->
            cell S i j = Some Np.NaN).
  { intros i j Hij. destruct (Hcells i j) as [_ HSc]; try lia.
    rewrite HSc. replace (j <? i)%nat with true
      by (symmetry; apply Nat.ltb_lt; lia).
    reflexivity. }
  split; [exact Hlow |].
  assert (Hmax : Np.amax (map Np.abs (concat S)) = Ok Np.NaN).
  { apply amax_has_nan. apply cell_in_concat with 1%nat 0%nat.
    apply Hlow. lia. }
  split.
  - rewrite (@nan_maximum_projected S "sentiment" names (length names));
      auto; right; now left.
  - rewrite (@nan_maximum_projected S "bare" names (length names));
      auto; right; now right.
Qed.

Lemma neutral_corpus_pipeline_witness :
  exists C S,
    calculate_align_rate Sample.score ["alice met bob"; "bob"]%string
    = Ok Np.NaN
    /\ calculate_matrix Sample.score Sample.analyze Sample.pair
         ["alice met bob"; "bob"]%string Np.NaN = Ok (C, S)
    /\ (forall i j, (j < i < 2)%nat -> cell S i j = Some Np.NaN)
    /\ matrix_to_edge_list S "sentiment" Sample.pair
       = Ok [Edge "bob" "alice" Np.NaN Np.NaN]
    /\ matrix_to_edge_list S "bare" Sample.pair = Ok [].
Proof.
  apply (@neutral_corpus_pipeline Sample.score Sample.analyze Sample.pair
           ["alice met bob"; "bob"]%string).
  - exact sample_pair_NoDup.
  - simpl. lia.
  - intros s [<- | [<- | []]]; reflexivity.
Defined.

Lemma map_map_shape {A B : Type} (f : A -> B) (M : list (list A))
  (r c : nat) :
  is_shape r c M -> is_shape r c (map (map f) M).
Proof.
  intros [Hlen Hrows]. split; [now rewrite length_map |].
  apply Forall_map. rewrite Forall_forall in *.
  intros row Hrow. rewrite length_map. now apply Hrows.
Qed.

(** X27.  The stages fit: whatever the sentences, scores and alignment
    rate, both matrices the builder returns are projected without an
    exception in each of the three modes, and outside bare mode each
    projection has the K(K-1)/2 edges of the complete graph. *)
Theorem builder_output_projects :
  forall (afinn_score : string -> R)
         (analyze : option string -> string -> list string)
         (name_list sentence_list : list string) (align_rate : Np.float64)
         (mode : string),
    name_list <> [] -> NoDup name_list -> known_mode mode ->
    exists C S edges_c edges_s,
      calculate_matrix afinn_score analyze name_list sentence_list align_rate
      = Ok (C, S)
      /\ matrix_to_edge_list (as_float C) mode name_list = Ok edges_c
      /\ matrix_to_edge_list S mode name_list = Ok edges_s
      /\ (mode <> "bare"%string ->
          (2 * length edges_c = length name_list * (length name_list - 1))%nat
          /\ length edges_s = length edges_c).
Proof.
  intros afinn_score analyze names sl align mode Hne Hnd Hmode.
  destruct (@calculate_matrix_all_cells afinn_score analyze names sl align
              Hne Hnd) as [C [S [H [HC [HS _]]]]].
  assert (HK : (0 < length names)%nat)
    by (destruct names; [contradiction | simpl; lia]).
  assert (HCf : is_shape (length names) (length names) (as_float C))
    by (now apply map_map_shape).
  destruct (amax_nonempty (square_concat_nonempty HK HCf)) as [mc Hmc].
  destruct (amax_nonempty (square_concat_nonempty HK HS)) as [ms Hms].
  exists C, S. do 2 eexists. split; [exact H |].
  rewrite (@matrix_to_edge_list_closed (as_float C) mode names
             (length names) mc) by auto.
  rewrite (@matrix_to_edge_list_closed S mode names (length names) ms)
    by auto.
  split; [reflexivity |]. split; [reflexivity |].
  intros Hbare. apply String.eqb_neq in Hbare.
  unfold projected_edges.
  replace (length (as_float C)) with (length names) by (symmetry; apply HCf).
  replace (length S) with (length names) by (symmetry; apply HS).
  rewrite !keeps_outside_bare by assumption.
  rewrite !length_map. split; [apply length_lower_positions | reflexivity].
Qed.

Lemma builder_output_projects_witness :
  exists C S edges_c edges_s,
    calculate_matrix Sample.score Sample.analyze Sample.pair Sample.sentences
      (Np.Fin 1) = Ok (C, S)
    /\ matrix_to_edge_list (as_float C) "co-occurrence" Sample.pair
       = Ok edges_c
    /\ matrix_to_edge_list S "co-occurrence" Sample.pair = Ok edges_s
    /\ ("co-occurrence"%string <> "bare"%string ->
        (2 * length edges_c = 2 * (2 - 1))%nat
        /\ length edges_s = length edges_c).
Proof.
  apply (@builder_output_projects Sample.score Sample.analyze Sample.pair
           Sample.sentences (Np.Fin 1) "co-occurrence").
  - discriminate.
  - exact sample_pair_NoDup.
  - now left.
Defined.


(** ** Reading a story *)

Lemma chars_append (s t : string) :
  list_ascii_of_string (s ++ t)
  = list_ascii_of_string s ++ list_ascii_of_string t.
Proof. induction s as [| c r IH]; simpl; [reflexivity | now rewrite IH]. Qed.

Lemma length_append (s t : string) :
  String.length (s ++ t) = (String.length s + String.length t)%nat.
Proof. induction s as [| c r IH]; simpl; [reflexivity | now rewrite IH]. Qed.

Lemma length_replace_char (old new : ascii) (s : string) :
  String.length (replace_char old new s) = String.length s.
Proof. induction s as [| c r IH]; simpl; [reflexivity | now rewrite IH]. Qed.

Lemma replace_char_same (c : ascii) (s : string) : replace_char c c s = s.
Proof.
  induction s as [| d r IH]; simpl; [reflexivity |]. rewrite IH.
  destruct (Ascii.eqb_spec d c); congruence.
Qed.

Lemma replace_char_removes (old new : ascii) (s : string) :
  old <> new -> ~ In old (list_ascii_of_string (replace_char old new s)).
Proof.
  intros Hneq. induction s as [| c r IH]; simpl; [tauto |].
  intros [H | H]; [| now apply IH].
  destruct (Ascii.eqb_spec c old); congruence.
Qed.

Lemma replace_char_keeps_out (old new c : ascii) (s : string) :
  c <> new -> ~ In c (list_ascii_of_string s) ->
  ~ In c (list_ascii_of_string (replace_char old new s)).
Proof.
  intros Hneq. induction s as [| d r IH]; simpl; [tauto |].
  intros Hs [H | H].
  - destruct (Ascii.eqb_spec d old); [congruence | tauto].
  - apply IH; tauto.
Qed.

Lemma clean_has_no_line_break (data : string) (c : ascii) :
  In c (list_ascii_of_string (clean data)) ->
  c <> carriage_return /\ c <> line_feed.
Proof.
  unfold clean. rewrite replace_char_same. intros Hin. split; intros ->.
  - revert Hin. apply replace_char_keeps_out; [discriminate |].
    apply replace_char_removes. discriminate.
  - revert Hin. apply replace_char_removes. discriminate.
Qed.

Lemma length_clean (data : string) :
  String.length (clean data) = String.length data.
Proof. unfold clean. now rewrite !length_replace_char. Qed.

Lemma read_books_no_line_break (read : string -> option string)
  (books : list string) :
  forall novel text,
    (forall c, In c (list_ascii_of_string novel) ->
               c <> carriage_return /\ c <> line_feed) ->
    read_books read books novel = Novel text ->
    forall c, In c (list_ascii_of_string text) ->
              c <> carriage_return /\ c <> line_feed.
Proof.
  induction books as [| i rest IH]; intros novel text Hnovel Hread.
  - injection Hread as <-. exact Hnovel.
  - cbn [read_books] in Hread.
    destruct (read i) as [data |]; [| discriminate].
    apply (IH (novel ++ (" " ++ clean data))%string text); [| exact Hread].
    intros c Hc.
    rewrite !chars_append in Hc. apply in_app_or in Hc as [Hc | Hc];
      [now apply Hnovel |].
    apply in_app_or in Hc as [Hc | Hc];
      [| now apply clean_has_no_line_break with data].
    simpl in Hc. destruct Hc as [<- | []]. split; discriminate.
Qed.

(** X28.  The text [read_story] returns never contains a carriage
    return or a line feed, whatever the files hold: each one has been
    replaced by a space. *)
Theorem read_story_has_no_line_break :
  forall (entries : list string) (read : string -> option string)
         (story_name text : string),
    read_story entries read story_name = Novel text ->
    forall c, In c (list_ascii_of_string text) ->
              c <> carriage_return /\ c <> line_feed.
Proof.
  intros entries read story_name text Hread.
  apply (@read_books_no_line_break read
           (filter (fun i => found story_name i) entries) ""%string text);
    [| exact Hread].
  intros c [].
Qed.

Lemma read_story_has_no_line_break_witness :
  read_story ["grimm_01.txt"; "notes.md"]%string
    (fun _ => Some (String "o" (String "n" (String "e"
       (String carriage_return (String line_feed "two three"))))))
    "grimm"%string
  = Novel " one  two three"
  /\ " "%char <> carriage_return /\ " "%char <> line_feed.
Proof.
  split; [reflexivity |].
  apply (@read_story_has_no_line_break
           ["grimm_01.txt"; "notes.md"]%string
           (fun _ => Some (String "o" (String "n" (String "e"
              (String carriage_return (String line_feed "two three"))))))
           "grimm"%string " one  two three"%string).
  - reflexivity.
  - simpl. now left.
Defined.

Lemma read_books_length (read : string -> option string)
  (books : list string) :
  forall novel text,
    read_books read books novel = Novel text ->
    String.length text
    = (String.length novel
       + list_sum (map (fun i => match read i with
                                 | Some data => 1 + String.length data
                                 | None => 0
                                 end) books))%nat.
Proof.
  induction books as [| i rest IH]; intros novel text Hread.
  - injection Hread as <-. simpl. lia.
  - cbn [read_books] in Hread. cbn [map list_sum].
    destruct (read i) as [data |]; [| discriminate].
    rewrite (IH _ _ Hread), !length_append, length_clean. simpl. lia.
Qed.

Lemma found_empty (s : string) : found ""%string s = true.
Proof. now destruct s. Qed.

(** X29.  [read_story] reads exactly the listed files whose name
    contains [story_name], in listing order.  It fails at the first of
    them that cannot be read; otherwise the text has one leading space
    per file and, cleaning being character for character, as many
    characters as the files together.  No matching file means the empty
    text, with nothing read; the empty [story_name] matches every
    file. *)
Theorem read_story_selects_and_concatenates :
  forall (entries : list string) (read : string -> option string)
         (story_name : string),
    let book_list := filter (fun i => found story_name i) entries in
    (forall text,
       read_story entries read story_name = Novel text ->
       (forall i, In i book_list -> read i <> None)
       /\ String.length text
          = list_sum (map (fun i => match read i with
                                    | Some data => 1 + String.length data
                                    | None => 0
                                    end) book_list))
    /\ ((forall i, In i book_list -> read i <> None) ->
        exists text, read_story entries read story_name = Novel text)
    /\ (book_list = [] -> read_story entries read story_name = Novel "")
    /\ filter (found "") entries = entries.
Proof.
  intros entries read story_name book_list.
  assert (Hall : forall books novel,
            (forall i, In i books -> read i <> None) <->
            exists text, read_books read books novel = Novel text).
  { induction books as [| i rest IH]; intros novel.
    - split; [intros _; now exists novel | intros _ i []].
    - cbn [read_books]. destruct (read i) as [data |] eqn:E.
      + rewrite <- IH. split.
        * intros H j Hj. apply H. now right.
        * intros H j [<- | Hj]; [congruence | now apply H].
      + split.
        * intros H. exfalso. apply (H i); [now left | exact E].
        * intros [text H]. discriminate. }
  unfold read_story. cbv zeta. fold book_list. clearbody book_list.
  repeat split.
  - apply (Hall book_list ""%string). now exists text.
  - now rewrite (read_books_length _ _ _ H).
  - apply Hall.
  - intros ->. reflexivity.
  - apply forallb_filter_id, forallb_forall. intros i _. apply found_empty.
Qed.

Lemma read_story_selects_and_concatenates_witness :
  String.length " one  two three"
  = list_sum (map (fun i : string => 1 + 14)%nat ["grimm_01.txt"%string]).
Proof.
  destruct (@read_story_selects_and_concatenates
              ["grimm_01.txt"; "notes.md"]%string
              (fun _ => Some (String "o" (String "n" (String "e"
                 (String carriage_return (String line_feed "two three"))))))
              "grimm"%string) as [H _].
  exact (proj2 (H " one  two three"%string eq_refl)).
Defined.


(** ** Plotting *)

Lemma matrix_to_edge_list_single (x : Np.float64) (mode : string)
  (names : list string) :
  matrix_to_edge_list [[x]] mode names = Ok [].
Proof.
  unfold matrix_to_edge_list. rewrite where_zero_triu_ones.
  cbn [concat app map Np.amax fold_left bind length].
  destruct (mode =? "co-occurrence")%string,
    (mode =? "sentiment")%string, (mode =? "bare")%string; reflexivity.
Qed.

(** X30.  [plot_graph] with a mode other than the three it names never
    returns and never writes a file.  Its own [ValueError] is not what
    the caller sees once the matrix has two characters or more: the edge
    projector has already failed on the unassigned [weight], before the
    figure is opened.  With a single character the graph is built and
    the [ValueError] is reached. *)
Theorem plot_graph_unknown_mode :
  forall (name_list : list string) (name_frequency : list Z)
         (matrix : list (list Np.float64)) (plt_name suffix mode path : string)
         (K : nat),
    ~ known_mode mode ->
    is_shape K K matrix -> (K <= length name_list)%nat ->
    (exists e, snd (plot_graph name_list name_frequency matrix plt_name
                      suffix mode path) = Raise e)
    /\ forallb (fun a => negb (writes_file a))
         (fst (plot_graph name_list name_frequency matrix plt_name
                 suffix mode path)) = true
    /\ ((2 <= K)%nat ->
        plot_graph name_list name_frequency matrix plt_name suffix mode path
        = ([], Raise UnboundLocalError))
    /\ (K = 1%nat -> name_frequency <> [] ->
        plot_graph name_list name_frequency matrix plt_name suffix mode path
        = ([Figure; BuildGraph name_list []], Raise ValueError)).
Proof.
  intros name_list name_frequency matrix plt_name suffix mode path K
    Hmode Hshape Hnames.
  assert (Hmodes : (mode =? "co-occurrence")%string = false
                   /\ (mode =? "sentiment")%string = false
                   /\ (mode =? "bare")%string = false).
  { unfold known_mode in Hmode.
    repeat split; apply String.eqb_neq; intros ->; tauto. }
  destruct Hmodes as (Hco & Hse & Hba).
  assert (Hany : (exists e,
                    snd (plot_graph name_list name_frequency matrix plt_name
                           suffix mode path) = Raise e)
                 /\ forallb (fun a => negb (writes_file a))
                      (fst (plot_graph name_list name_frequency matrix
                              plt_name suffix mode path)) = true).
  { unfold plot_graph.
    destruct (matrix_to_edge_list matrix mode name_list) as [edges | e];
      [| split; [now exists e | reflexivity]].
    destruct (Np.amax (map Np.of_int name_frequency)) as [top | e];
      [| split; [now exists e | reflexivity]].
    rewrite Hco, Hse, Hba. cbn. split; [now exists ValueError | reflexivity]. }
  destruct Hany as [Hraise Hfiles]. repeat split; try assumption.
  - intros HK. unfold plot_graph.
    now rewrite (@matrix_to_edge_list_unknown_mode matrix mode name_list K).
  - intros -> Hfreq. destruct Hshape as [Hlen Hrows].
    destruct matrix as [| row [| ? ?]]; try discriminate Hlen.
    inversion Hrows as [| ? ? Hrow _]; subst.
    destruct row as [| x [| ? ?]]; try discriminate Hrow.
    unfold plot_graph. rewrite matrix_to_edge_list_single.
    destruct name_frequency as [| f rest]; [contradiction |].
    cbn [map Np.amax]. rewrite Hco, Hse, Hba. reflexivity.
Qed.

Lemma plot_graph_unknown_mode_witness :
  plot_graph ["a"; "b"]%string [2%Z; 1%Z]
    [[Np.Fin 0; Np.Fin 0]; [Np.Fin 1; Np.Fin 0]]
    "story"%string "graph"%string "weighted"%string ""%string
  = ([], Raise UnboundLocalError).
Proof.
  refine (proj1 (proj2 (proj2 (@plot_graph_unknown_mode
            ["a"; "b"]%string [2%Z; 1%Z]
            [[Np.Fin 0; Np.Fin 0]; [Np.Fin 1; Np.Fin 0]]
            "story"%string "graph"%string "weighted"%string ""%string
            2%nat _ _ _))) _).
  - unfold known_mode. intros [H | [H | H]]; discriminate.
  - split; [reflexivity | repeat constructor].
  - simpl. lia.
  - lia.
Defined.
